(** * FlopLab: the poker engine of [src/lib/poker.ts] and its caller-side gate

    A shallow embedding of the hand evaluator, the deck builder, the rank
    comparator, the Monte Carlo equity loop and the card-entry validation of
    the UI, followed by the properties of the specification proved (or
    refuted) on that embedding.

    Conventions.
    - JS numbers holding integers are [Z]; array lengths and loop counters
      are [nat] (a JS number counts exactly up to [2^53]).
    - The other JS numbers, here the equity and the credits added to it, are
      IEEE 754 binary64 values: [spec_float] with the operations of the
      Standard Library's [SpecFloat] at precision 53 and [emax = 1024],
      rounding to nearest, ties to even.
    - [undefined] read from an array is [None : option Card]; a [TypeError]
      (property access on [undefined]) is [None] in the result of a fallible
      function.
    - [Set<string>] is a [gset string]; a [Map<number, number>], whose
      iteration order is observable, is an insertion-ordered association list.
    - [Array.prototype.sort] is the stable sort by a comparator.
    - [Math.random] is an explicit sequence of outcomes threaded through the
      draws. *)

From Stdlib Require Import ZArith QArith Qpower Lia SpecFloat.
From stdpp Require Import gmap strings list sorting.

Open Scope Z_scope.

(** ** Card model *)

Inductive Suit := SuitS | SuitH | SuitD | SuitC.
Inductive Rank := R2 | R3 | R4 | R5 | R6 | R7 | R8 | R9 | RT | RJ | RQ | RK | RA.
Record Card := mkCard { rank : Rank; suit : Suit }.

#[global] Instance Suit_eq_dec : EqDecision Suit.
Proof. solve_decision. Defined.
#[global] Instance Rank_eq_dec : EqDecision Rank.
Proof. solve_decision. Defined.
#[global] Instance Card_eq_dec : EqDecision Card.
Proof. solve_decision. Defined.

Definition RANK_VALUE (r : Rank) : Z :=
  match r with
  | R2 => 2 | R3 => 3 | R4 => 4 | R5 => 5 | R6 => 6 | R7 => 7 | R8 => 8
  | R9 => 9 | RT => 10 | RJ => 11 | RQ => 12 | RK => 13 | RA => 14
  end.

Definition SUITS : list Suit := [SuitS; SuitH; SuitD; SuitC].
Definition RANKS : list Rank := [R2; R3; R4; R5; R6; R7; R8; R9; RT; RJ; RQ; RK; RA].

(** The one-character spellings of the string unions [Suit] and [Rank]. *)
Definition suit_str (x : Suit) : string :=
  match x with SuitS => "s" | SuitH => "h" | SuitD => "d" | SuitC => "c" end.

Definition rank_str (r : Rank) : string :=
  match r with
  | R2 => "2" | R3 => "3" | R4 => "4" | R5 => "5" | R6 => "6" | R7 => "7"
  | R8 => "8" | R9 => "9" | RT => "T" | RJ => "J" | RQ => "Q" | RK => "K"
  | RA => "A"
  end.

Definition cardToString (card : Card) : string :=
  rank_str (rank card) +:+ suit_str (suit card).

(** ** Deck builder *)

(** [createDeck]: two nested [for .. of] loops pushing every card whose key
    is not in the [used] set. *)
Definition createDeck (exclude : list Card) : list Card :=
  let used : gset string := list_to_set (cardToString <$> exclude) in
  foldl (fun deck suit =>
    foldl (fun deck rank =>
      let card := mkCard rank suit in
      if decide (cardToString card ∈ used) then deck else deck ++ [card])
      deck RANKS)
    [] SUITS.

(** ** JS array and Map primitives *)

(** [Array.prototype.sort(cmp)]: the stable sort by a comparator returning a
    number (negative: first argument first). *)
Section js_sort.
Context {A : Type} (cmp : A → A → Z).

Fixpoint sort_insert (x : A) (l : list A) : list A :=
  match l with
  | [] => [x]
  | y :: l' => if decide (cmp x y ≤ 0) then x :: y :: l' else y :: sort_insert x l'
  end.

Definition js_sort (l : list A) : list A := foldr sort_insert [] l.
End js_sort.

(** The comparator [(a, b) => b - a]. *)
Definition desc (a b : Z) : Z := b - a.

(** [Map<number, number>] with its insertion order. *)
Definition NumMap := list (Z * Z).

Fixpoint map_get (m : NumMap) (k : Z) : option Z :=
  match m with
  | [] => None
  | (k', v) :: m' => if decide (k' = k) then Some v else map_get m' k
  end.

Fixpoint map_set (m : NumMap) (k v : Z) : NumMap :=
  match m with
  | [] => [(k, v)]
  | (k', v') :: m' => if decide (k' = k) then (k, v) :: m' else (k', v') :: map_set m' k v
  end.

(** [for (const rank of ranks) counts.set(rank, (counts.get(rank) ?? 0) + 1)] *)
Definition count_ranks (ranks : list Z) : NumMap :=
  foldl (fun counts rank => map_set counts rank (default 0 (map_get counts rank) + 1)) [] ranks.

(** [[...new Set(xs)]]: the first occurrences, in order. *)
Definition set_spread (xs : list Z) : list Z :=
  foldl (fun acc x => if decide (x ∈ acc) then acc else acc ++ [x]) [] xs.

(** ** Straight detection *)

Definition slice_is_run (sorted : list Z) (i : nat) : bool :=
  match sorted !! i, sorted !! (i + 4)%nat with
  | Some hi, Some lo => bool_decide (hi - lo = 4)
  | _, _ => false
  end.

Definition getStraightHigh (ranksDesc : list Z) : option Z :=
  if decide (length ranksDesc < 5)%nat then None else
  let sorted := js_sort desc (set_spread ranksDesc) in
  match find (slice_is_run sorted) (seq 0 (length sorted + 1 - 5)) with
  | Some i => sorted !! i
  | None =>
      if bool_decide (14 ∈ sorted) && bool_decide (5 ∈ sorted) && bool_decide (4 ∈ sorted)
         && bool_decide (3 ∈ sorted) && bool_decide (2 ∈ sorted)
      then Some 5 else None
  end.

(** Truthiness of a [number | null]. *)
Definition truthy (x : option Z) : bool :=
  match x with Some v => negb (bool_decide (v = 0)) | None => false end.

(** ** 5-card evaluator *)

Record Group := mkGroup { g_rank : Z; g_count : Z }.

(** [(a, b) => (b.count - a.count) || (b.rank - a.rank)] *)
Definition by_count_then_rank (a b : Group) : Z :=
  if decide (g_count b - g_count a = 0) then g_rank b - g_rank a
  else g_count b - g_count a.

Definition all_same_suit (cards : list Card) : bool :=
  match cards with
  | [] => true
  | first :: _ => forallb (fun card => bool_decide (suit card = suit first)) cards
  end.

(** [groups[i].count] and [groups[i].rank]: a [TypeError] when [groups[i]]
    is [undefined]. *)
Definition count_at (groups : list Group) (i : nat) : option Z := g_count <$> groups !! i.
Definition rank_at (groups : list Group) (i : nat) : option Z := g_rank <$> groups !! i.

(** [a && b] where evaluating [b] may throw: [b] is evaluated only when [a]
    holds. *)
Definition and_then (a : bool) (b : option bool) : option bool :=
  if a then b else Some false.

Definition count_is (groups : list Group) (i : nat) (n : Z) : option bool :=
  k ← count_at groups i; Some (bool_decide (k = n)).

(** [evaluate5] on an array without holes.  [None] is the [TypeError] of
    reading [.count] or [.rank] of a missing group. *)
Definition evaluate5 (cards : list Card) : option (list Z) :=
  let ranks := js_sort desc ((fun card => RANK_VALUE (rank card)) <$> cards) in
  let isFlush := all_same_suit cards in
  let counts := count_ranks ranks in
  let uniqueRanks := js_sort desc (fst <$> counts) in
  let straightHigh := getStraightHigh uniqueRanks in
  if isFlush && truthy straightHigh then Some [8; default 0 straightHigh] else
  let groups := js_sort by_count_then_rank ((fun '(r, n) => mkGroup r n) <$> counts) in
  c0 ← count_at groups 0;
  if decide (c0 = 4) then
    r0 ← rank_at groups 0; kicker ← rank_at groups 1; Some [7; r0; kicker]
  else
  full ← and_then (bool_decide (c0 = 3)) (count_is groups 1 2);
  if (full : bool) then
    r0 ← rank_at groups 0; r1 ← rank_at groups 1; Some [6; r0; r1]
  else
  if isFlush then Some (5 :: ranks) else
  if truthy straightHigh then Some [4; default 0 straightHigh] else
  if decide (c0 = 3) then
    r0 ← rank_at groups 0;
    Some (3 :: r0 :: js_sort desc (g_rank <$> drop 1 groups))
  else
  twoPair ← and_then (bool_decide (c0 = 2)) (count_is groups 1 2);
  if (twoPair : bool) then
    r0 ← rank_at groups 0; r1 ← rank_at groups 1; kicker ← rank_at groups 2;
    Some [2; Z.max r0 r1; Z.min r0 r1; kicker]
  else
  if decide (c0 = 2) then
    r0 ← rank_at groups 0;
    Some (1 :: r0 :: js_sort desc (g_rank <$> drop 1 groups))
  else Some (0 :: ranks).

(** ** Rank comparator *)

(** The loop of [compareRanks] from index [i], with [n] iterations left;
    [a[i] ?? 0] is [default 0 (a !! i)]. *)
Fixpoint compare_from (a b : list Z) (i n : nat) : Z :=
  match n with
  | O => 0
  | S n' =>
      let diff := default 0 (a !! i) - default 0 (b !! i) in
      if decide (diff = 0) then compare_from a b (S i) n' else diff
  end.

Definition compareRanks (a b : list Z) : Z :=
  compare_from a b 0 (Nat.max (length a) (length b)).

(** ** 7-card selector and combination tables *)

(** [COMBOS_7_5]: five nested loops over increasing indices below 7. *)
Definition COMBOS_7_5 : list (list nat) :=
  a ← seq 0 3;
  b ← seq (a + 1) (4 - (a + 1));
  c ← seq (b + 1) (5 - (b + 1));
  d ← seq (c + 1) (6 - (c + 1));
  e ← seq (d + 1) (7 - (d + 1));
  [[a; b; c; d; e]].

(** [pick]: [cards[idx]] is [undefined] beyond the end of the array. *)
Definition pick (cards : list (option Card)) (combo : list nat) : list (option Card) :=
  (fun idx => mjoin (cards !! idx)) <$> combo.

(** [evaluate5] on an array that may hold [undefined]: its first statement
    reads [card.rank] of every element and throws on a hole. *)
Definition evaluate5_holes (cards : list (option Card)) : option (list Z) :=
  cs ← mapM id cards; evaluate5 cs.

(** The selection loop shared by [evaluate7] and [getBestHandLabel]. *)
Definition best_of (cards : list (option Card)) (combos : list (list nat)) : option (list Z) :=
  c0 ← combos !! 0%nat;
  first ← evaluate5_holes (pick cards c0);
  foldl (fun best combo =>
           best ← best;
           hand ← evaluate5_holes (pick cards combo);
           Some (if decide (compareRanks hand best > 0) then hand else best))
        (Some first) (drop 1 combos).

Definition evaluate7 (cards : list (option Card)) : option (list Z) :=
  best_of cards COMBOS_7_5.

(** [backtrack] extends [combo] by the indices from [start] on; here the
    indices still available are the list [avail] and [k] is
    [5 - combo.length]. *)
Fixpoint backtrack (k : nat) (avail : list nat) (combo : list nat) : list (list nat) :=
  match k with
  | O => [combo]
  | S k' =>
      (fix loop (avail : list nat) : list (list nat) :=
         match avail with
         | [] => []
         | i :: rest => backtrack k' rest (combo ++ [i]) ++ loop rest
         end) avail
  end.

(** [getCombos] as a function of [length]: the table it returns. *)
Definition getCombos (length : nat) : list (list nat) :=
  if decide (length = 7%nat) then COMBOS_7_5 else backtrack 5 (seq 0 length) [].

(** [getCombos] with its [COMBO_CACHE]: a hit returns the stored table, a
    miss computes the table and stores it. *)
Definition getCombos_memo (cache : gmap nat (list (list nat))) (length : nat)
  : list (list nat) * gmap nat (list (list nat)) :=
  if decide (length = 7%nat) then (COMBOS_7_5, cache) else
  match cache !! length with
  | Some cached => (cached, cache)
  | None =>
      let combos := backtrack 5 (seq 0 length) [] in
      (combos, <[length := combos]> cache)
  end.

Definition rankToLabel (r : Z) : string :=
  if decide (r = 8) then "Straight Flush" else
  if decide (r = 7) then "Four of a Kind" else
  if decide (r = 6) then "Full House" else
  if decide (r = 5) then "Flush" else
  if decide (r = 4) then "Straight" else
  if decide (r = 3) then "Three of a Kind" else
  if decide (r = 2) then "Two Pair" else
  if decide (r = 1) then "One Pair" else "High Card".

(** The rank multiplicities gathered by [cards.forEach] in
    [getBestHandLabel]. *)
Definition count_cards (cards : list Card) : NumMap :=
  foldl (fun counts card =>
           let value := RANK_VALUE (rank card) in
           map_set counts value (default 0 (map_get counts value) + 1)) [] cards.

Definition getBestHandLabel (cards : list Card) : option string :=
  if decide (length cards < 5)%nat then
    let values := js_sort desc (snd <$> count_cards cards) in
    if decide (values !! 0%nat = Some 2) then Some "One Pair"
    else if decide (values !! 0%nat = Some 3) then Some "Three of a Kind"
    else Some "High Card"
  else
    best ← best_of (Some <$> cards) (getCombos (length cards));
    Some (rankToLabel (default 0 (best !! 0%nat))).

(** ** Monte Carlo simulator *)

(** The JS numbers of the equity computation: binary64. *)
Definition double : Type := spec_float.

(** [x + y] and [x / y] on doubles. *)
Definition dadd : double → double → double := SFadd 53 1024.
Definition ddiv : double → double → double := SFdiv 53 1024.

(** The double holding an integer (the integer itself up to [2^53]). *)
Definition double_of_Z (z : Z) : double := binary_normalize 53 1024 z 0 false.
Definition double_of_nat (n : nat) : double := double_of_Z (Z.of_nat n).

Record WinRateParams := mkParams {
  hero : list Card;
  board : list Card;
  numPlayers : Z;
  knownOpponents : list (list Card);
  iterations : option nat   (* [iterations?: number], default 5000 *)
}.

Record WinRateResult := mkResult {
  equity : double;
  res_iterations : nat       (* the field [iterations] of the result *)
}.

(** What one pass of the loop body dealt and scored; [t_credit] is the
    number added to [equity], if any. *)
Record Trial := mkTrial {
  t_unknown : list (list (option Card));
  t_board : list (option Card);
  t_winners : list Z;
  t_credit : option double
}.

(** [equity += credit], when hero is among the winners. *)
Definition add_credit (equity : double) (credit : option double) : double :=
  match credit with
  | Some c => dadd equity c
  | None => equity
  end.

(** [Math.floor(Math.random() * len)]: [Math.random()] lies in [0, 1), so
    the index ranges over [0 .. len - 1] and is [0] for an empty array.  A
    raw outcome [r] of the generator selects the index [r mod len]. *)
Definition random_index (r len : nat) : nat :=
  if decide (len = 0%nat) then 0%nat else (r mod len)%nat.

Section simulator.
(** The outcomes of the successive calls of [Math.random]; the state
    threaded through the draws is the number of calls made so far. *)
Variable random : nat → nat.

(** [drawRandom]: [deck.splice(idx, 1)] removes the card and returns it
    ([undefined] from an empty deck). *)
Definition drawRandom (deck : list Card) (k : nat) : option Card * list Card * nat :=
  let idx := random_index (random k) (length deck) in
  (deck !! idx, delete idx deck, S k).

Fixpoint draw_opponents (n : nat) (deck : list Card) (k : nat)
  : list (list (option Card)) * list Card * nat :=
  match n with
  | O => ([], deck, k)
  | S n' =>
      let '(first, deck, k) := drawRandom deck k in
      let '(second, deck, k) := drawRandom deck k in
      let '(rest, deck, k) := draw_opponents n' deck k in
      ([first; second] :: rest, deck, k)
  end.

(** [while (fullBoard.length < 5) fullBoard.push(drawRandom(deck))], with
    [n] the number of cards still missing. *)
Fixpoint fill_board (n : nat) (fullBoard : list (option Card)) (deck : list Card) (k : nat)
  : list (option Card) * list Card * nat :=
  match n with
  | O => (fullBoard, deck, k)
  | S n' =>
      let '(card, deck, k) := drawRandom deck k in
      fill_board n' (fullBoard ++ [card]) deck k
  end.

(** The callback of the [forEach] over all opponents, on the running best
    rank and the winners' indices ([-1] is hero). *)
Definition tally_step (fullBoard : list (option Card))
    (st : option (list Z * list Z)) (entry : Z * list (option Card)) : option (list Z * list Z) :=
  let '(index, hand) := entry in
  '(bestRank, winners) ← st;
  rank ← evaluate7 (hand ++ fullBoard);
  let cmp := compareRanks rank bestRank in
  if decide (cmp > 0) then Some (rank, [index])
  else if decide (cmp = 0) then Some (bestRank, winners ++ [index])
  else Some (bestRank, winners).

Definition tally (fullBoard : list (option Card)) (heroRank : list Z)
    (allOpponents : list (list (option Card))) : option (list Z * list Z) :=
  foldl (tally_step fullBoard) (Some (heroRank, [-1]))
        (zip (Z.of_nat <$> seq 0 (length allOpponents)) allOpponents).

Definition unknownOpponentsCount (p : WinRateParams) : Z :=
  Z.max (numPlayers p - 1 - Z.of_nat (length (knownOpponents p))) 0.

(** One pass of the loop body. *)
Definition trial (p : WinRateParams) (k : nat) : option (Trial * nat) :=
  let deck := createDeck (hero p ++ board p ++ concat (knownOpponents p)) in
  let '(unknownOpponents, deck, k) :=
    draw_opponents (Z.to_nat (unknownOpponentsCount p)) deck k in
  let '(fullBoard, deck, k) :=
    fill_board (5 - length (board p))%nat (Some <$> board p) deck k in
  heroRank ← evaluate7 ((Some <$> hero p) ++ fullBoard);
  let allOpponents := ((fun hand : list Card => Some <$> hand) <$> knownOpponents p) ++ unknownOpponents in
  '(bestRank, winners) ← tally fullBoard heroRank allOpponents;
  let credit := if decide ((-1) ∈ winners)
                then Some (ddiv (double_of_nat 1) (double_of_nat (length winners)))
                else None in
  Some (mkTrial unknownOpponents fullBoard winners credit, k).

(** [n] passes of the loop, accumulating [equity] and logging the trials. *)
Fixpoint run_trials (p : WinRateParams) (n : nat) (acc : double) (k : nat)
  : option (double * list Trial) :=
  match n with
  | O => Some (acc, [])
  | S n' =>
      '(t, k) ← trial p k;
      '(acc, log) ← run_trials p n' (add_credit acc (t_credit t)) k;
      Some (acc, t :: log)
  end.

Definition iterations_of (p : WinRateParams) : nat := default 5000%nat (iterations p).

(** [calculateWinRate] together with the log of its trials: [equity]
    starts at [0] and the result holds [equity / iterations]. *)
Definition calculateWinRate_log (p : WinRateParams) : option (WinRateResult * list Trial) :=
  '(total, log) ← run_trials p (iterations_of p) (double_of_nat 0) 0%nat;
  Some (mkResult (ddiv total (double_of_nat (iterations_of p))) (iterations_of p), log).

Definition calculateWinRate (p : WinRateParams) : option WinRateResult :=
  fst <$> calculateWinRate_log p.
End simulator.

(** ** The caller: card entry and the recompute gate of the UI *)

Module App.

Definition CardSlot := option Card.

(** [cards.filter(Boolean)] *)
Definition compactCards (cards : list CardSlot) : list Card := omap id cards.

Definition toKey (card : Card) : string :=
  rank_str (rank card) +:+ suit_str (suit card).

(** The loop of [hasDuplicate] with its [seen] set. *)
Fixpoint hasDuplicate_from (seen : gset string) (cards : list Card) : bool :=
  match cards with
  | [] => false
  | card :: rest =>
      let key := toKey card in
      if decide (key ∈ seen) then true else hasDuplicate_from ({[key]} ∪ seen) rest
  end.

Definition hasDuplicate (cards : list Card) : bool := hasDuplicate_from ∅ cards.

(** The React state the card handlers and the recompute effect read. *)
Record State := mkState {
  numPlayers : Z;
  heroCards : list CardSlot;
  boardCards : list CardSlot;
  knownOpponents : list (list CardSlot);
  error : string
}.

Definition initial : State := mkState 6 [None; None] (replicate 5 None) [] "".

(** [arr[index] = v]: an assignment beyond the end extends the array,
    leaving holes. *)
Definition assign (arr : list CardSlot) (index : nat) (v : CardSlot) : list CardSlot :=
  if decide (index < length arr)%nat then <[index := v]> arr
  else arr ++ replicate (index - length arr) None ++ [v].

Definition allCards (st : State) : list Card :=
  compactCards (heroCards st) ++ compactCards (boardCards st)
  ++ concat (compactCards <$> knownOpponents st).

Definition canCalculate (st : State) : bool :=
  if decide (length (compactCards (heroCards st)) ≠ 2%nat) then false
  else if existsb (fun hand => negb (bool_decide (length (compactCards hand) = 2%nat)))
                  (knownOpponents st) then false
  else true.

Definition handleHeroSet (st : State) (index : nat) (card : Card) : bool * State :=
  let nextHero := assign (heroCards st) index (Some card) in
  let nextAll := compactCards nextHero ++ compactCards (boardCards st)
                 ++ concat (compactCards <$> knownOpponents st) in
  if hasDuplicate nextAll
  then (false, mkState (numPlayers st) (heroCards st) (boardCards st) (knownOpponents st)
                       "Duplicate card detected.")
  else (true, mkState (numPlayers st) nextHero (boardCards st) (knownOpponents st) "").

Definition handleBoardSet (st : State) (index : nat) (card : Card) : bool * State :=
  let nextBoard := assign (boardCards st) index (Some card) in
  let nextAll := compactCards (heroCards st) ++ compactCards nextBoard
                 ++ concat (compactCards <$> knownOpponents st) in
  if hasDuplicate nextAll
  then (false, mkState (numPlayers st) (heroCards st) (boardCards st) (knownOpponents st)
                       "Duplicate card detected.")
  else (true, mkState (numPlayers st) (heroCards st) nextBoard (knownOpponents st) "").

(** [nextOpponents[handIndex][cardIndex] = card] throws when there is no
    such hand. *)
Definition handleOpponentSet (st : State) (handIndex cardIndex : nat) (card : Card)
  : option (bool * State) :=
  hand ← knownOpponents st !! handIndex;
  let nextOpponents := <[handIndex := assign hand cardIndex (Some card)]> (knownOpponents st) in
  let nextAll := compactCards (heroCards st) ++ compactCards (boardCards st)
                 ++ concat (compactCards <$> nextOpponents) in
  if hasDuplicate nextAll
  then Some (false, mkState (numPlayers st) (heroCards st) (boardCards st) (knownOpponents st)
                            "Duplicate card detected.")
  else Some (true, mkState (numPlayers st) (heroCards st) (boardCards st) nextOpponents "").

Definition handleClearHero (st : State) (index : nat) : State :=
  mkState (numPlayers st) (assign (heroCards st) index None) (boardCards st)
          (knownOpponents st) "".

Definition handleClearBoard (st : State) (index : nat) : State :=
  mkState (numPlayers st) (heroCards st) (assign (boardCards st) index None)
          (knownOpponents st) "".

Definition handleClearOpponent (st : State) (handIndex cardIndex : nat) : option State :=
  hand ← knownOpponents st !! handIndex;
  Some (mkState (numPlayers st) (heroCards st) (boardCards st)
                (<[handIndex := assign hand cardIndex None]> (knownOpponents st)) "").

(** The effect on [knownOpponentsCount]: push empty hands up to [count],
    then pop down to [count]. *)
Definition resizeOpponents (st : State) (count : nat) : State :=
  let next := knownOpponents st in
  let next := next ++ replicate (count - length next) [None; None] in
  mkState (numPlayers st) (heroCards st) (boardCards st) (take count next) (error st).

(** [setNumPlayers(Math.min(9, Math.max(2, v)))] *)
Definition setNumPlayers (st : State) (v : Z) : State :=
  mkState (Z.min 9 (Z.max 2 v)) (heroCards st) (boardCards st) (knownOpponents st) (error st).

(** What the recompute effect hands to the engine. *)
Definition engine_params (st : State) : WinRateParams :=
  mkParams (compactCards (heroCards st)) (compactCards (boardCards st)) (numPlayers st)
           (compactCards <$> knownOpponents st) (Some 5000%nat).

(** The recompute effect: [None] when the run is blocked (the equity is
    reset to [null]), otherwise the outcome of the engine call. *)
Definition recompute (random : nat → nat) (st : State) : option (option WinRateResult) :=
  if canCalculate st then Some (calculateWinRate random (engine_params st)) else None.

(** [cards.findIndex((card) => !card)] *)
Definition nextEmptyIndex (cards : list CardSlot) : Z :=
  match list_find (fun slot => slot = None) cards with
  | Some (i, _) => Z.of_nat i
  | None => -1
  end.

(** The slot a typed rank goes to:
    [cards[activeIndex] ? nextEmptyIndex(cards) : activeIndex]. *)
Definition entryIndex (cards : list CardSlot) (activeIndex : nat) : Z :=
  match cards !! activeIndex with
  | Some (Some _) => nextEmptyIndex cards
  | _ => Z.of_nat activeIndex
  end.

(** [usedKeys]: the set behind the "Cards Used" counter. *)
Definition usedKeys (st : State) : gset string := list_to_set (toKey <$> allCards st).

(** The states the handlers can produce from the initial one. *)
Inductive reachable : State → Prop :=
  | reach_initial : reachable initial
  | reach_hero_set st index card :
      reachable st → reachable (handleHeroSet st index card).2
  | reach_board_set st index card :
      reachable st → reachable (handleBoardSet st index card).2
  | reach_opponent_set st handIndex cardIndex card ok st' :
      reachable st → handleOpponentSet st handIndex cardIndex card = Some (ok, st') →
      reachable st'
  | reach_clear_hero st index : reachable st → reachable (handleClearHero st index)
  | reach_clear_board st index : reachable st → reachable (handleClearBoard st index)
  | reach_clear_opponent st handIndex cardIndex st' :
      reachable st → handleClearOpponent st handIndex cardIndex = Some st' → reachable st'
  | reach_resize st count : reachable st → reachable (resizeOpponents st count)
  | reach_players st v : reachable st → reachable (setNumPlayers st v).

End App.

(** Inputs the engine accepts although a precondition fails. *)
Definition duplicate_params : WinRateParams :=
  mkParams [mkCard RA SuitS; mkCard RA SuitS] [] 2 [] (Some 1%nat).

Definition overfull_params : WinRateParams :=
  mkParams [mkCard RA SuitS; mkCard RK SuitS] [] 2
    [[mkCard R2 SuitH; mkCard R3 SuitH]; [mkCard R4 SuitH; mkCard R5 SuitH]] (Some 1%nat).

Definition three_card_hero_params : WinRateParams :=
  mkParams [mkCard RA SuitS; mkCard RK SuitS; mkCard RQ SuitS] [] 2 [] (Some 1%nat).

(** ** Reference notions used in the statements *)

(** The 52 cards in suit-major, rank-minor order. *)
Definition full_deck : list Card :=
  suit ← SUITS; rank ← RANKS; [mkCard rank suit].

(** [a[i] ?? 0]: a descriptor read as an infinite sequence padded with
    zeros. *)
Definition pad (a : list Z) (i : nat) : Z := default 0 (a !! i).

(** Lexicographic comparison of the padded sequences: [d] is [0] when they
    agree everywhere, and otherwise the difference at the first position
    where they differ. *)
Definition lex_result (a b : list Z) (d : Z) : Prop :=
  (d = 0 ∧ ∀ i, pad a i = pad b i)
  ∨ (∃ i, (∀ j, (j < i)%nat → pad a j = pad b j) ∧ pad a i ≠ pad b i ∧ d = pad a i - pad b i).

(** A HandRank descriptor: what [evaluate5] returns for five distinct
    cards. *)
Definition HandRank (r : list Z) : Prop :=
  ∃ cards, length cards = 5%nat ∧ NoDup cards ∧ evaluate5 cards = Some r.

(** *** The evaluator as the specification words it *)

(** The rank ordinals of a hand, in card order. *)
Definition values (cards : list Card) : list Z := (fun card => RANK_VALUE (rank card)) <$> cards.

(** The 13 rank ordinals, highest first. *)
Definition rank_values_desc : list Z := reverse (RANK_VALUE <$> RANKS).

(** Rank multiset: how many of the cards have ordinal [v]. *)
Definition multiplicity (v : Z) (vals : list Z) : nat :=
  length (filter (fun x => x = v) vals).

(** The ranks held exactly [n] times, highest first. *)
Definition ranks_with (n : nat) (vals : list Z) : list Z :=
  filter (fun v => multiplicity v vals = n) rank_values_desc.

(** Flush: all cards share one suit. *)
Definition spec_flush (cards : list Card) : bool :=
  existsb (fun x => forallb (fun card => bool_decide (suit card = x)) cards) SUITS.

(** [r, r-1, r-2, r-3, r-4] are all present. *)
Definition has_run (vals : list Z) (r : Z) : bool :=
  forallb (fun k => bool_decide (r - k ∈ vals)) [0; 1; 2; 3; 4].

Definition is_wheel (vals : list Z) : bool :=
  forallb (fun v => bool_decide (v ∈ vals)) [14; 5; 4; 3; 2].

(** Straight-high: the highest [r] with a run below it, scanning from the
    highest rank; otherwise 5 for the wheel. *)
Definition run_high (vals : list Z) : option Z := find (has_run vals) rank_values_desc.

Definition spec_straight_high (vals : list Z) : option Z :=
  match run_high vals with
  | Some r => Some r
  | None => if is_wheel vals then Some 5 else None
  end.

(** Category precedence, highest first. *)
Definition spec_category (vals : list Z) (flush : bool) : Z :=
  let straight := bool_decide (is_Some (spec_straight_high vals)) in
  let quads := ranks_with 4 vals in
  let trips := ranks_with 3 vals in
  let pairs := ranks_with 2 vals in
  if flush && straight then 8
  else if bool_decide (quads ≠ []) then 7
  else if bool_decide (trips ≠ []) && bool_decide (pairs ≠ []) then 6
  else if flush then 5
  else if straight then 4
  else if bool_decide (trips ≠ []) then 3
  else if bool_decide (2 ≤ length pairs)%nat then 2
  else if bool_decide (pairs ≠ []) then 1
  else 0.

(** Tie-break values: the straight-high for the straight categories; all
    five ranks descending for flush and high card; otherwise the groups in
    descending (count, rank) order followed by the kickers descending. *)
Definition spec_tiebreak (cat : Z) (vals : list Z) : list Z :=
  if bool_decide (cat = 8 ∨ cat = 4) then option_list (spec_straight_high vals)
  else if bool_decide (cat = 5 ∨ cat = 0)
  then rank_values_desc ≫= (fun v => replicate (multiplicity v vals) v)
  else ranks_with 4 vals ++ ranks_with 3 vals ++ ranks_with 2 vals ++ ranks_with 1 vals.

Definition spec_evaluateFive (cards : list Card) : list Z :=
  let cat := spec_category (values cards) (spec_flush cards) in
  cat :: spec_tiebreak cat (values cards).

(** The descriptor length of each category. *)
Definition desc_len (cat : Z) : nat :=
  if decide (cat = 8) then 2 else if decide (cat = 7) then 3 else
  if decide (cat = 6) then 3 else if decide (cat = 5) then 6 else
  if decide (cat = 4) then 2 else if decide (cat = 3) then 4 else
  if decide (cat = 2) then 4 else if decide (cat = 1) then 5 else 6.

(** The cache holds nothing but tables [getCombos] computed. *)
Definition cache_coherent (cache : gmap nat (list (list nat))) : Prop :=
  ∀ n combos, cache !! n = Some combos → combos = backtrack 5 (seq 0 n) [].

(** *** Subsets of a given size *)

(** All [k]-element sub-sequences of [l], in lexicographic order of their
    positions. *)
Fixpoint subsets {A} (k : nat) (l : list A) : list (list A) :=
  match k, l with
  | O, _ => [[]]
  | S _, [] => []
  | S k', x :: l' => (cons x <$> subsets k' l') ++ subsets k l'
  end.

(** The selection loop over the hands themselves. *)
Definition best_hand (hands : list (list (option Card))) : option (list Z) :=
  h0 ← hands !! 0%nat;
  first ← evaluate5_holes h0;
  foldl (fun best hand =>
           best ← best;
           r ← evaluate5_holes hand;
           Some (if decide (compareRanks r best > 0) then r else best))
        (Some first) (drop 1 hands).

(** Sample hands used in the examples. *)
Definition quad_deuces_seven : list Card :=
  [mkCard R2 SuitC; mkCard R2 SuitD; mkCard R2 SuitH; mkCard R2 SuitS;
   mkCard RK SuitS; mkCard RQ SuitD; mkCard RJ SuitD].

Definition full_house_hand : list Card :=
  [mkCard R9 SuitH; mkCard RK SuitS; mkCard R9 SuitC; mkCard RK SuitD; mkCard R9 SuitS].

(** *** The simulator as the specification words it *)

(** Every card some hand or the board already holds. *)
Definition known_cards (p : WinRateParams) : list Card :=
  hero p ++ board p ++ concat (knownOpponents p).

Definition valid_input (p : WinRateParams) : Prop :=
  length (hero p) = 2%nat
  ∧ (length (board p) ≤ 5)%nat
  ∧ 2 ≤ numPlayers p ≤ 9
  ∧ Forall (fun hand => length hand = 2%nat) (knownOpponents p)
  ∧ NoDup (known_cards p)
  ∧ (1 ≤ iterations_of p)%nat.

(** Hero is among the maximal hands. *)
Definition hero_is_best (heroRank : list Z) (oppRanks : list (list Z)) : bool :=
  forallb (fun r => bool_decide (compareRanks r heroRank ≤ 0)) oppRanks.

(** The opponents tying with hero. *)
Definition ties (heroRank : list Z) (oppRanks : list (list Z)) : nat :=
  length (filter (fun r => compareRanks r heroRank = 0) oppRanks).

(** The credit of a showdown: the double [1 / |winner set|] when hero is in
    the winner set, and none otherwise. *)
Definition spec_credit (heroRank : list Z) (oppRanks : list (list Z)) : option double :=
  if hero_is_best heroRank oppRanks
  then Some (ddiv (double_of_nat 1) (double_of_nat (1 + ties heroRank oppRanks)))
  else None.

(** A trial as the specification describes it: the unknown hands [opps] and
    the board completion [drawn] are fresh distinct cards, and the credit is
    the one of the showdown. *)
Definition trial_ok (p : WinRateParams) (t : Trial) : Prop :=
  ∃ (opps : list (list Card)) (drawn : list Card) (heroRank : list Z) (oppRanks : list (list Z)),
    t_unknown t = (fun hand : list Card => Some <$> hand) <$> opps
    ∧ length opps = Z.to_nat (Z.max (numPlayers p - 1 - Z.of_nat (length (knownOpponents p))) 0)
    ∧ Forall (fun hand => length hand = 2%nat) opps
    ∧ t_board t = Some <$> (board p ++ drawn)
    ∧ length (board p ++ drawn) = 5%nat
    ∧ NoDup (known_cards p ++ concat opps ++ drawn)
    ∧ evaluate7 (Some <$> (hero p ++ board p ++ drawn)) = Some heroRank
    ∧ Forall2 (fun hand r => evaluate7 (Some <$> (hand ++ board p ++ drawn)) = Some r)
              (knownOpponents p ++ opps) oppRanks
    ∧ t_credit t = spec_credit heroRank oppRanks.

(** What the [forEach] has established after the opponents with the ranks
    [processed]. *)
Definition tally_inv (heroRank : list Z) (processed : list (list Z))
    (bestRank : list Z) (winners : list Z) : Prop :=
  (hero_is_best heroRank processed = true ∧ bestRank = heroRank ∧ (-1) ∈ winners
   ∧ length winners = (1 + ties heroRank processed)%nat)
  ∨ (hero_is_best heroRank processed = false ∧ ((-1) ∉ winners)
     ∧ compareRanks bestRank heroRank > 0).

(** The credits added up as the loop does: in trial order, each addition
    rounded. *)
Definition sum_credits (log : list Trial) : double :=
  foldl add_credit (double_of_nat 0) (t_credit <$> log).



(** The number a double stands for ([None] for infinities and NaN). *)
Definition double_value (x : double) : option Q :=
  match x with
  | S754_zero _ => Some 0%Q
  | S754_finite s m e =>
      let v := (inject_Z (Zpos m) * 2 ^ e)%Q in
      Some (if s then (- v)%Q else v)
  | _ => None
  end.

(** Sample inputs of the simulator. *)


(** A royal flush on the board, three players, ten trials: every trial is a
    three-way split. *)
Definition split_pot_params : WinRateParams :=
  mkParams [mkCard R2 SuitC; mkCard R3 SuitD]
           [mkCard RT SuitS; mkCard RJ SuitS; mkCard RQ SuitS; mkCard RK SuitS; mkCard RA SuitS]
           3 [] (Some 10%nat).

(** Hero holds the deuces of clubs and diamonds; the board shows the two
    other deuces. *)
Definition deuces_hero : list Card := [mkCard R2 SuitC; mkCard R2 SuitD].
Definition deuces_board : list Card :=
  [mkCard R2 SuitH; mkCard R2 SuitS; mkCard RK SuitS; mkCard RQ SuitD; mkCard RJ SuitD].

Definition four_deuces (numPlayers : Z) (known : list (list Card)) (iters : option nat)
  : WinRateParams :=
  mkParams deuces_hero deuces_board numPlayers known iters.


(** *** Partial hands *)

(** The largest number of cards sharing one rank. *)
Definition max_multiplicity (cards : list Card) : nat :=
  max_list ((fun v => multiplicity v (values cards)) <$> rank_values_desc).

Definition partial_label (m : nat) : string :=
  if decide (m = 2%nat) then "One Pair"
  else if decide (m = 3%nat) then "Three of a Kind"
  else "High Card".

(** *** Finite case analysis over the ranks of a hand *)

(** A hand with the ranks [rs] that is single-suited exactly when [flush]. *)
Definition repr (rs : list Rank) (flush : bool) : list Card :=
  zip_with mkCard rs (if flush then [SuitS; SuitS; SuitS; SuitS; SuitS]
                      else [SuitH; SuitS; SuitS; SuitS; SuitS]).

Definition forall_ranks (f : Rank → bool) : bool := forallb f RANKS.

Definition forall_hands (check : list Rank → bool → bool) : bool :=
  forall_ranks (fun a => forall_ranks (fun b => forall_ranks (fun c =>
  forall_ranks (fun d => forall_ranks (fun e =>
    check [a; b; c; d; e] true && check [a; b; c; d; e] false))))).

Fixpoint descending (vals : list Z) : bool :=
  match vals with
  | x :: ((y :: _) as rest) => bool_decide (y ≤ x) && descending rest
  | _ => true
  end.

Definition five_alike (rs : list Rank) : bool :=
  match rs with
  | [a; b; c; d; e] =>
      bool_decide (a = b) && bool_decide (b = c) && bool_decide (c = d) && bool_decide (d = e)
  | _ => false
  end.

(** The comparator sorting cards by rank, highest first. *)
Definition by_rank (a b : Card) : Z := RANK_VALUE (rank b) - RANK_VALUE (rank a).

(** The facts checked on every descending rank vector. *)
Definition check_hand (rs : list Rank) (flush : bool) : bool :=
  let vals := RANK_VALUE <$> rs in
  if negb (descending vals) then true else
  if five_alike rs then true else
  match evaluate5 (repr rs flush) with
  | Some r =>
      if bool_decide (length r = desc_len (pad r 0)) then
        if bool_decide (r = (let cat := spec_category vals flush in cat :: spec_tiebreak cat vals))
        then if bool_decide (NoDup rs)
             then bool_decide (getStraightHigh vals = if is_wheel vals then Some 5 else run_high vals)
             else true
        else false
      else false
  | None => false
  end.

(** *** Further reference notions *)

(** Two more sample hands. *)
Definition royal_flush_hand : list Card :=
  [mkCard RT SuitH; mkCard RJ SuitH; mkCard RQ SuitH; mkCard RK SuitH; mkCard RA SuitH].

Definition four_aces_hand : list Card :=
  [mkCard RA SuitS; mkCard RA SuitH; mkCard RA SuitD; mkCard RA SuitC; mkCard RK SuitS].

(** Binomial coefficients by Pascal's rule. *)
Fixpoint choose (n k : nat) : nat :=
  match k, n with
  | O, _ => 1
  | S _, O => 0
  | S k', S n' => choose n' k' + choose n' k
  end%nat.

(** All sub-sequences of a list. *)
Fixpoint powerset {A} (l : list A) : list (list A) :=
  match l with
  | [] => [[]]
  | x :: l' => (cons x <$> powerset l') ++ powerset l'
  end.

(** The ranks, highest first. *)
Definition RANKS_desc : list Rank := reverse RANKS.

(** Straight detection checked on one set of ranks. *)
Definition check_straight (rs : list Rank) : bool :=
  let vals := RANK_VALUE <$> rs in
  if bool_decide (length rs < 5)%nat then true
  else bool_decide (getStraightHigh vals = spec_straight_high vals).

(** The descriptor's tie-break values are ranks of the hand. *)
Definition check_members (rs : list Rank) (flush : bool) : bool :=
  let vals := RANK_VALUE <$> rs in
  if negb (descending vals) then true else
  if five_alike rs then true else
  match evaluate5 (repr rs flush) with
  | Some r =>
      bool_decide (0 ≤ pad r 0 ≤ 8)
      && forallb (fun v => bool_decide (v ∈ vals)) (drop 1 r)
  | None => false
  end.

(** The number of bits of a mantissa. *)
Definition bits (p : positive) : Z := Zpos (digits2_pos p).

(** [x] is [+0] or a positive normal double of value at most [K], with an
    exponent from -200 to 1 (values from [2^-148] to [2^53]). *)
Definition at_most (x : double) (K : Z) : Prop :=
  x = S754_zero false
  ∨ ∃ m e, x = S754_finite false m e ∧ bits m = 53 ∧ -200 ≤ e ≤ 1
           ∧ Zpos m * 2 ^ (e + 200) ≤ K * 2 ^ 200.

(** Reading a card back from its key. *)
Definition parse_card (key : string) : option Card :=
  list_find (fun card => cardToString card = key) full_deck ≫= fun '(_, card) => Some card.

(* ================================================================== *)
(** * Properties *)
(* ================================================================== *)

(** ** Deck builder *)

Lemma parse_cardToString card : parse_card (cardToString card) = Some card.
Proof. by destruct card as [[] []]. Qed.

#[global] Instance cardToString_inj : Inj (=) (=) cardToString.
Proof.
  intros x y Hxy. apply (inj Some).
  by rewrite <- (parse_cardToString x), <- (parse_cardToString y), Hxy.
Qed.

Lemma elem_of_full_deck card : card ∈ full_deck.
Proof. destruct card as [[] []]; apply (bool_decide_unpack _); vm_compute; exact I. Qed.

Lemma foldl_push_bind {A B} (g : B → list A) (step : list A → B → list A) :
  (∀ deck x, step deck x = deck ++ g x) →
  ∀ l acc, foldl step acc l = acc ++ (l ≫= g).
Proof.
  intros Hstep l. induction l as [|x l IH]; intros acc; simpl.
  - by rewrite app_nil_r.
  - by rewrite IH, Hstep, <- app_assoc.
Qed.

Lemma filter_bind {A B} (P : A → Prop) `{∀ x, Decision (P x)} (f : B → list A) (l : list B) :
  filter P (l ≫= f) = l ≫= (fun x => filter P (f x)).
Proof.
  induction l as [|x l IH]; [done|].
  by rewrite !bind_cons, filter_app, IH.
Qed.

Lemma used_key_spec (exclude : list Card) card :
  cardToString card ∈ (list_to_set (cardToString <$> exclude) : gset string) ↔ card ∈ exclude.
Proof. by rewrite elem_of_list_to_set, (list_elem_of_fmap_inj cardToString). Qed.

Lemma createDeck_filter exclude :
  createDeck exclude = filter (fun card => card ∉ exclude) full_deck.
Proof.
  unfold createDeck, full_deck.
  rewrite (foldl_push_bind
    (fun suit => RANKS ≫= fun rank =>
       if decide (mkCard rank suit ∈ exclude) then [] else [mkCard rank suit])).
  - rewrite filter_bind, app_nil_l. apply list_bind_ext; [|done]. intros suit.
    rewrite filter_bind. apply list_bind_ext; [|done]. intros rank.
    rewrite (filter_singleton _ _ []). repeat case_decide; naive_solver.
  - intros deck suit.
    apply (foldl_push_bind
      (fun rank => if decide (mkCard rank suit ∈ exclude) then [] else [mkCard rank suit])).
    intros deck' rank. simpl.
    repeat case_decide; rewrite ?app_nil_r; try done; exfalso;
      match goal with H : _ |- _ => apply used_key_spec in H; done
                 | H : ¬ _ |- _ => apply H, used_key_spec; done end.
Qed.

Lemma NoDup_full_deck : NoDup full_deck.
Proof. apply (bool_decide_unpack _). vm_compute. exact I. Qed.

Lemma length_full_deck : length full_deck = 52%nat.
Proof. reflexivity. Qed.

Lemma createDeck_elem exclude card : card ∈ createDeck exclude ↔ card ∉ exclude.
Proof.
  rewrite createDeck_filter, list_elem_of_filter.
  split; [by intros [? _] | intros ?; split; [done | apply elem_of_full_deck]].
Qed.

Lemma NoDup_createDeck exclude : NoDup (createDeck exclude).
Proof. rewrite createDeck_filter. apply NoDup_filter, NoDup_full_deck. Qed.

Lemma length_createDeck exclude :
  NoDup exclude → length (createDeck exclude) = (52 - length exclude)%nat.
Proof.
  intros Hnd. rewrite createDeck_filter.
  pose proof (filter_app_complement (fun card => card ∉ exclude) full_deck) as Hperm.
  apply Permutation_length in Hperm. rewrite length_app, length_full_deck in Hperm.
  assert (filter (fun card : Card => ¬ (card ∉ exclude)) full_deck ≡ₚ exclude) as Hex.
  { apply NoDup_Permutation; [apply NoDup_filter, NoDup_full_deck | done |].
    intros card. rewrite list_elem_of_filter. split.
    - intros [Hin _]. by destruct (decide (card ∈ exclude)).
    - intros Hin. split; [by intros ? | apply elem_of_full_deck]. }
  apply Permutation_length in Hex. lia.
Qed.

(** C9. For a duplicate-free [exclude], [createDeck] returns [52 - |exclude|]
    distinct cards, exactly the cards not excluded, as the full suit-major
    rank-minor deck with the excluded cards struck out; it is a function of
    [exclude] alone.  Excluding nothing gives all 52 cards, excluding all 52
    gives the empty deck. *)
Theorem createDeck_contract (exclude : list Card) :
  NoDup exclude →
  length (createDeck exclude) = (52 - length exclude)%nat
  ∧ NoDup (createDeck exclude)
  ∧ (∀ card, card ∈ createDeck exclude ↔ card ∉ exclude)
  ∧ createDeck exclude = filter (fun card => card ∉ exclude) full_deck
  ∧ createDeck [] = full_deck
  ∧ length full_deck = 52%nat
  ∧ createDeck full_deck = [].
Proof.
  intros Hnd. split_and!.
  - by apply length_createDeck.
  - apply NoDup_createDeck.
  - apply createDeck_elem.
  - apply createDeck_filter.
  - reflexivity.
  - reflexivity.
  - apply length_zero_iff_nil.
    rewrite length_createDeck, length_full_deck; [done | apply NoDup_full_deck].
Qed.

Lemma createDeck_contract_witness :
  NoDup [mkCard RA SuitS; mkCard RK SuitH]
  ∧ length (createDeck [mkCard RA SuitS; mkCard RK SuitH]) = 50%nat.
Proof.
  assert (NoDup [mkCard RA SuitS; mkCard RK SuitH]) as Hnd.
  { apply (bool_decide_unpack _). vm_compute. exact I. }
  split; [exact Hnd|].
  exact (proj1 (createDeck_contract [mkCard RA SuitS; mkCard RK SuitH] Hnd)).
Defined.

(** ** Rank comparator *)

Lemma pad_beyond a i : (length a ≤ i)%nat → pad a i = 0.
Proof. intros Hi. unfold pad. by rewrite lookup_ge_None_2. Qed.

Lemma compare_from_lex a b n : ∀ i,
  (∀ j, (j < i)%nat → pad a j = pad b j) →
  (∀ j, (i + n ≤ j)%nat → pad a j = pad b j) →
  lex_result a b (compare_from a b i n).
Proof.
  induction n as [|n IH]; intros i Hlow Hhigh; simpl.
  - left. split; [done|]. intros j.
    destruct (decide (j < i)%nat); [by apply Hlow | apply Hhigh; lia].
  - fold (pad a i) (pad b i). case_decide as Hd.
    + apply IH.
      * intros j Hj. destruct (decide (j = i)) as [->|]; [lia | apply Hlow; lia].
      * intros j Hj. apply Hhigh. lia.
    + right. exists i. split_and!; [done | lia | done].
Qed.

Lemma compareRanks_lex a b : lex_result a b (compareRanks a b).
Proof.
  apply compare_from_lex; [lia|].
  intros j Hj. rewrite !pad_beyond; lia.
Qed.

Lemma lex_result_unique a b d d' : lex_result a b d → lex_result a b d' → d = d'.
Proof.
  intros [[-> Heq]|(i & Hlt & Hne & ->)] [[-> Heq']|(i' & Hlt' & Hne' & ->)].
  - done.
  - by destruct Hne'.
  - by destruct Hne.
  - destruct (lt_eq_lt_dec i i') as [[Hii| ->]|Hii]; [| done |].
    + destruct Hne. by apply Hlt'.
    + destruct Hne'. by apply Hlt.
Qed.

Lemma lex_result_flip a b d : lex_result a b d → lex_result b a (- d).
Proof.
  intros [[-> Heq]|(i & Hlt & Hne & ->)].
  - left. split; [done|]. intros i. by rewrite Heq.
  - right. exists i. split_and!; [|congruence|lia].
    intros j Hj. by rewrite Hlt.
Qed.

Lemma compareRanks_flip a b : compareRanks b a = - compareRanks a b.
Proof.
  eapply lex_result_unique; [apply compareRanks_lex|].
  apply lex_result_flip, compareRanks_lex.
Qed.

Lemma compareRanks_refl a : compareRanks a a = 0.
Proof.
  eapply lex_result_unique; [apply compareRanks_lex|]. by left.
Qed.

Lemma compareRanks_zero_iff a b : compareRanks a b = 0 ↔ ∀ i, pad a i = pad b i.
Proof.
  split.
  - intros Hz. destruct (compareRanks_lex a b) as [[_ Heq]|(i & _ & Hne & Hd)]; [done|].
    rewrite Hz in Hd. lia.
  - intros Heq. eapply lex_result_unique; [apply compareRanks_lex|]. by left.
Qed.

Lemma compareRanks_pos_iff a b :
  compareRanks a b > 0 ↔
  ∃ i, (∀ j, (j < i)%nat → pad a j = pad b j) ∧ pad a i > pad b i.
Proof.
  split.
  - intros Hpos. destruct (compareRanks_lex a b) as [[Hz _]|(i & Hlt & Hne & Hd)]; [lia|].
    exists i. split; [done | lia].
  - intros (i & Hlt & Hgt).
    assert (lex_result a b (pad a i - pad b i)) as Hres.
    { right. exists i. split_and!; [done | lia | done]. }
    rewrite (lex_result_unique _ _ _ _ (compareRanks_lex a b) Hres). lia.
Qed.

Lemma compareRanks_trans_pos a b c :
  compareRanks a b > 0 → compareRanks b c > 0 → compareRanks a c > 0.
Proof.
  rewrite !compareRanks_pos_iff. intros (i & Hi & Hgi) (j & Hj & Hgj).
  destruct (lt_eq_lt_dec i j) as [[Hij| ->]|Hij].
  - exists i. split; [|rewrite <- Hj by done; done].
    intros k Hk. rewrite Hi by done. apply Hj. lia.
  - exists j. split; [|lia]. intros k Hk. rewrite Hi by done. by apply Hj.
  - exists j. split; [|rewrite Hi by done; done].
    intros k Hk. rewrite Hi by lia. by apply Hj.
Qed.

Lemma compareRanks_zero_l a b c : compareRanks a b = 0 → compareRanks a c = compareRanks b c.
Proof.
  rewrite compareRanks_zero_iff. intros Heq.
  eapply lex_result_unique; [apply compareRanks_lex|].
  destruct (compareRanks_lex b c) as [[-> Hbc]|(i & Hlt & Hne & ->)].
  - left. split; [done|]. intros i. by rewrite Heq.
  - right. exists i. rewrite Heq. split_and!; [|done|done].
    intros j Hj. rewrite Heq. by apply Hlt.
Qed.

Lemma compareRanks_zero_r a b c : compareRanks b c = 0 → compareRanks a b = compareRanks a c.
Proof.
  intros Hz. rewrite (compareRanks_flip b a), (compareRanks_flip c a). f_equal.
  apply compareRanks_zero_l. done.
Qed.

Lemma compareRanks_trans_ge a b c :
  0 ≤ compareRanks a b → 0 ≤ compareRanks b c → 0 ≤ compareRanks a c.
Proof.
  intros Hab Hbc.
  destruct (decide (compareRanks a b = 0)) as [Hz|Hnz].
  { by rewrite (compareRanks_zero_l _ _ _ Hz). }
  destruct (decide (compareRanks b c = 0)) as [Hz'|Hnz'].
  { rewrite <- (compareRanks_zero_r _ _ _ Hz'). done. }
  pose proof (compareRanks_trans_pos a b c). lia.
Qed.

Lemma compareRanks_category a b : pad a 0 > pad b 0 → compareRanks a b > 0.
Proof.
  intros Hgt. apply compareRanks_pos_iff. exists 0%nat. split; [lia | done].
Qed.

(** ** Sorting *)

Section js_sort_facts.
Context {A : Type} (cmp : A → A → Z).

Lemma sort_insert_perm x l : sort_insert cmp x l ≡ₚ x :: l.
Proof.
  induction l as [|y l IH]; simpl; [done|].
  case_decide; [done|]. rewrite IH. apply Permutation_swap.
Qed.

Lemma js_sort_perm l : js_sort cmp l ≡ₚ l.
Proof.
  induction l as [|x l IH]; simpl; [done|].
  by rewrite sort_insert_perm, IH.
Qed.

Lemma length_js_sort l : length (js_sort cmp l) = length l.
Proof. by rewrite js_sort_perm. Qed.

Let R (x y : A) : Prop := cmp x y ≤ 0.

Hypothesis cmp_total : ∀ x y, ¬ cmp x y ≤ 0 → cmp y x ≤ 0.

Lemma Sorted_sort_insert x l : Sorted R l → Sorted R (sort_insert cmp x l).
Proof.
  induction 1 as [|y l Hs IH Hhd]; simpl.
  - by repeat constructor.
  - case_decide as Hxy.
    + by repeat constructor.
    + constructor; [done|].
      destruct Hhd as [|z l Hyz]; simpl.
      * constructor. by apply cmp_total.
      * case_decide; constructor; [by apply cmp_total | done].
Qed.

Lemma Sorted_js_sort l : Sorted R (js_sort cmp l).
Proof.
  induction l as [|x l IH]; simpl; [constructor | by apply Sorted_sort_insert].
Qed.
End js_sort_facts.

#[global] Instance desc_trans : Transitive (fun x y => desc x y ≤ 0).
Proof. unfold desc. intros x y z ??. lia. Qed.

#[global] Instance desc_antisym : AntiSymm (=) (fun x y => desc x y ≤ 0).
Proof. unfold desc. intros x y ??. lia. Qed.

Lemma Sorted_sort_desc l : Sorted (fun x y => desc x y ≤ 0) (js_sort desc l).
Proof. apply Sorted_js_sort. unfold desc. intros x y ?. lia. Qed.

(** Sorting by [(a, b) => b - a] yields the same array for every ordering of
    the input. *)
Lemma js_sort_desc_perm l l' : l ≡ₚ l' → js_sort desc l = js_sort desc l'.
Proof.
  intros Hperm. apply (Sorted_unique (fun x y => desc x y ≤ 0)).
  - apply Sorted_sort_desc.
  - apply Sorted_sort_desc.
  - by rewrite !js_sort_perm.
Qed.

Lemma js_sort_desc_sorted l :
  Sorted (fun x y => desc x y ≤ 0) l → js_sort desc l = l.
Proof.
  intros Hs. apply (Sorted_unique (fun x y => desc x y ≤ 0)); [apply Sorted_sort_desc | done |].
  apply js_sort_perm.
Qed.

Lemma descending_Sorted vals : Sorted (fun x y => desc x y ≤ 0) vals → descending vals = true.
Proof.
  induction 1 as [|x l Hs IH Hhd]; [done|].
  destruct Hhd as [|y l Hxy]; [done|].
  change (descending (x :: y :: l)) with (bool_decide (y ≤ x) && descending (y :: l)).
  rewrite IH. unfold desc in Hxy. by rewrite bool_decide_true by lia.
Qed.

(** ** The evaluator depends on the ranks and on the flush flag only *)

Lemma forallb_suit_spec (x : Suit) cards :
  forallb (fun card => bool_decide (suit card = x)) cards = true
  ↔ ∀ card, card ∈ cards → suit card = x.
Proof.
  rewrite forallb_forall. split; intros Hall card Hin.
  - apply list_elem_of_In, Hall in Hin. by apply bool_decide_eq_true in Hin.
  - apply bool_decide_eq_true, Hall, list_elem_of_In, Hin.
Qed.

Lemma all_same_suit_spec cards :
  all_same_suit cards = true ↔ ∃ x, ∀ card, card ∈ cards → suit card = x.
Proof.
  destruct cards as [|first rest].
  - split; [|done]. intros _. exists SuitS. by intros card ?%elem_of_nil.
  - unfold all_same_suit. rewrite forallb_suit_spec. split.
    + intros Hall. by exists (suit first).
    + intros [x Hall] card Hin. rewrite (Hall card Hin). symmetry. apply Hall. left.
Qed.

Lemma spec_flush_spec cards :
  spec_flush cards = true ↔ ∃ x, ∀ card, card ∈ cards → suit card = x.
Proof.
  unfold spec_flush. rewrite existsb_exists. split.
  - intros (x & _ & Hall). exists x. by apply forallb_suit_spec.
  - intros [x Hall]. exists x. split; [|by apply forallb_suit_spec].
    destruct x; simpl; tauto.
Qed.

Lemma all_same_suit_flush cards : all_same_suit cards = spec_flush cards.
Proof. apply eq_true_iff_eq. by rewrite all_same_suit_spec, spec_flush_spec. Qed.

Lemma all_same_suit_perm cards cards' :
  cards ≡ₚ cards' → all_same_suit cards = all_same_suit cards'.
Proof.
  intros Hperm. apply eq_true_iff_eq. rewrite !all_same_suit_spec.
  by setoid_rewrite Hperm.
Qed.

Lemma evaluate5_values_flush cards cards' :
  values cards = values cards' → all_same_suit cards = all_same_suit cards' →
  evaluate5 cards = evaluate5 cards'.
Proof. unfold evaluate5, values. by intros -> ->. Qed.

(** [evaluate5] is invariant under the order of its cards. *)
Lemma evaluate5_perm cards cards' : cards ≡ₚ cards' → evaluate5 cards = evaluate5 cards'.
Proof.
  intros Hperm.
  assert (js_sort desc (values cards) = js_sort desc (values cards')) as Hranks.
  { apply js_sort_desc_perm. unfold values. by rewrite Hperm. }
  unfold evaluate5. fold (values cards) (values cards').
  by rewrite Hranks, (all_same_suit_perm _ _ Hperm).
Qed.

Lemma elem_of_RANKS (r : Rank) : In r RANKS.
Proof. destruct r; simpl; tauto. Qed.

Lemma forall_ranks_spec f : forall_ranks f = true → ∀ r, f r = true.
Proof. intros Hall r. eapply forallb_forall; [exact Hall | apply elem_of_RANKS]. Qed.

Lemma forall_hands_spec check :
  forall_hands check = true →
  ∀ rs flush, length rs = 5%nat → check rs flush = true.
Proof.
  intros Hall rs flush Hlen.
  destruct rs as [|a [|b [|c [|d [|e [|]]]]]]; try done.
  unfold forall_hands in Hall.
  pose proof (forall_ranks_spec _ Hall a) as Ha; cbv beta in Ha.
  pose proof (forall_ranks_spec _ Ha b) as Hb; cbv beta in Hb.
  pose proof (forall_ranks_spec _ Hb c) as Hc; cbv beta in Hc.
  pose proof (forall_ranks_spec _ Hc d) as Hd; cbv beta in Hd.
  pose proof (forall_ranks_spec _ Hd e) as He; cbv beta in He.
  apply andb_prop in He. destruct flush; tauto.
Qed.

Lemma hand_table : forall_hands check_hand = true.
Proof. vm_cast_no_check (eq_refl true). Qed.

Lemma repr_values rs flush : length rs = 5%nat → values (repr rs flush) = RANK_VALUE <$> rs.
Proof.
  intros Hlen. destruct rs as [|a [|b [|c [|d [|e [|]]]]]]; try done.
  by destruct flush.
Qed.

Lemma repr_flush rs flush : length rs = 5%nat → all_same_suit (repr rs flush) = flush.
Proof.
  intros Hlen. destruct rs as [|a [|b [|c [|d [|e [|]]]]]]; try done.
  by destruct flush.
Qed.

(** Five cards of one rank are not distinct: there are four suits. *)
Lemma five_alike_dup (cards : list Card) :
  five_alike (rank <$> cards) = true → ¬ NoDup cards.
Proof.
  intros Halike Hnd.
  destruct cards as [|c1 [|c2 [|c3 [|c4 [|c5 [|]]]]]]; try done.
  simpl in Halike. rewrite !andb_true_iff, !bool_decide_eq_true in Halike.
  destruct Halike as [[[H12 H23] H34] H45].
  assert (NoDup (suit <$> [c1; c2; c3; c4; c5])) as Hsuits.
  { apply NoDup_fmap_2_strong; [|done].
    intros [r1 s1] [r2 s2] Hin1 Hin2 Hs. simpl in Hs. subst s2. f_equal.
    assert (∀ card, card ∈ [c1; c2; c3; c4; c5] → rank card = rank c1) as Hsame.
    { intros card Hin. set_unfold in Hin. destruct_or!; subst; congruence. }
    by rewrite (Hsame _ Hin1 : r1 = _), (Hsame _ Hin2 : r2 = _). }
  assert (suit <$> [c1; c2; c3; c4; c5] ⊆+ SUITS) as Hsub.
  { apply NoDup_submseteq; [done|]. intros x _. destruct x; set_solver. }
  apply submseteq_length in Hsub. simpl in Hsub. lia.
Qed.

(** Every five-card hand evaluates like the hand of its ranks in
    descending order, of one suit or of two. *)
Lemma canonical_hand cards :
  length cards = 5%nat →
  ∃ rs, length rs = 5%nat
        ∧ Sorted (fun x y => desc x y ≤ 0) (RANK_VALUE <$> rs)
        ∧ rs ≡ₚ rank <$> cards
        ∧ (NoDup cards → five_alike rs = false)
        ∧ evaluate5 cards = evaluate5 (repr rs (all_same_suit cards)).
Proof.
  intros Hlen. set (sorted := js_sort by_rank cards).
  assert (sorted ≡ₚ cards) as Hperm by apply js_sort_perm.
  exists (rank <$> sorted). split_and!.
  - by rewrite length_fmap, Hperm.
  - rewrite <- list_fmap_compose.
    apply (Sorted_fmap _ (fun x y => by_rank x y ≤ 0)); [done|].
    apply Sorted_js_sort. unfold by_rank. intros x y ?. lia.
  - by rewrite Hperm.
  - intros Hnd. destruct (five_alike (rank <$> sorted)) eqn:Halike; [|done].
    destruct (five_alike_dup sorted Halike). by rewrite Hperm.
  - rewrite <- (evaluate5_perm _ _ Hperm).
    assert (length (rank <$> sorted) = 5%nat) as Hlen' by (by rewrite length_fmap, Hperm).
    apply evaluate5_values_flush.
    + rewrite repr_values by done. unfold values. by rewrite <- list_fmap_compose.
    + rewrite repr_flush by done. by apply all_same_suit_perm.
Qed.

(** ** The specification's evaluator reads the ranks as a multiset *)

Section spec_perm.
Context (vals vals' : list Z) (Hperm : vals ≡ₚ vals').

Lemma multiplicity_perm v : multiplicity v vals = multiplicity v vals'.
Proof. unfold multiplicity. by rewrite Hperm. Qed.

Lemma ranks_with_perm n : ranks_with n vals = ranks_with n vals'.
Proof.
  unfold ranks_with. apply list_filter_iff. intros v. by rewrite multiplicity_perm.
Qed.

Lemma present_perm v : bool_decide (v ∈ vals) = bool_decide (v ∈ vals').
Proof. apply bool_decide_ext. by rewrite Hperm. Qed.

Lemma has_run_perm r : has_run vals r = has_run vals' r.
Proof. unfold has_run. simpl. by rewrite !present_perm. Qed.

Lemma is_wheel_perm : is_wheel vals = is_wheel vals'.
Proof. unfold is_wheel. simpl. by rewrite !present_perm. Qed.

Lemma run_high_perm : run_high vals = run_high vals'.
Proof.
  unfold run_high. induction rank_values_desc as [|r l IH]; simpl; [done|].
  by rewrite has_run_perm, IH.
Qed.

Lemma spec_straight_high_perm : spec_straight_high vals = spec_straight_high vals'.
Proof. unfold spec_straight_high. by rewrite is_wheel_perm, run_high_perm. Qed.

Lemma spec_category_perm flush : spec_category vals flush = spec_category vals' flush.
Proof.
  unfold spec_category. by rewrite spec_straight_high_perm, !ranks_with_perm.
Qed.

Lemma spec_tiebreak_perm cat : spec_tiebreak cat vals = spec_tiebreak cat vals'.
Proof.
  unfold spec_tiebreak. rewrite spec_straight_high_perm, !ranks_with_perm.
  repeat case_match; try done.
  apply list_bind_ext; [|done]. intros v. by rewrite multiplicity_perm.
Qed.
End spec_perm.

(** What the table says about a hand of five distinct cards. *)
Lemma hand_facts cards :
  length cards = 5%nat → NoDup cards →
  ∃ r, evaluate5 cards = Some r
       ∧ length r = desc_len (pad r 0)
       ∧ r = spec_evaluateFive cards
       ∧ (NoDup (values cards) →
          getStraightHigh (js_sort desc (values cards))
          = if is_wheel (values cards) then Some 5 else run_high (values cards)).
Proof.
  intros Hlen Hnd.
  destruct (canonical_hand cards Hlen) as (rs & Hlen' & Hsorted & Hperm & Halike & Heval).
  pose proof (descending_Sorted _ Hsorted) as Hdesc.
  pose proof (forall_hands_spec _ hand_table rs (all_same_suit cards) Hlen') as Hcheck.
  unfold check_hand in Hcheck. cbv zeta in Hcheck.
  rewrite Hdesc, (Halike Hnd) in Hcheck. simpl negb in Hcheck. cbv iota in Hcheck.
  rewrite <- Heval in Hcheck.
  destruct (evaluate5 cards) as [r|]; [|done].
  exists r. split; [done|].
  case_bool_decide as Hl; [|done]. case_bool_decide as Hr; [|done].
  assert (RANK_VALUE <$> rs ≡ₚ values cards) as Hvals.
  { change (values cards) with (RANK_VALUE ∘ rank <$> cards).
    by rewrite list_fmap_compose, Hperm. }
  split_and!; [done| |].
  - rewrite Hr. unfold spec_evaluateFive. rewrite <- all_same_suit_flush.
    by rewrite (spec_category_perm _ _ Hvals), (spec_tiebreak_perm _ _ Hvals).
  - intros Hndv.
    assert (NoDup rs) as Hndr.
    { eapply (NoDup_fmap_1 RANK_VALUE). by rewrite Hvals. }
    rewrite bool_decide_true in Hcheck by done. apply bool_decide_eq_true in Hcheck.
    rewrite <- (is_wheel_perm _ _ Hvals), <- (run_high_perm _ _ Hvals), <- Hcheck.
    f_equal. rewrite <- (js_sort_desc_perm _ _ Hvals). by apply js_sort_desc_sorted.
Qed.

Lemma set_spread_NoDup l : NoDup l → set_spread l = l.
Proof.
  unfold set_spread.
  enough (∀ acc, NoDup (acc ++ l) →
    foldl (fun acc x => if decide (x ∈ acc) then acc else acc ++ [x]) acc l = acc ++ l) as Hgen.
  { intros Hnd. by apply (Hgen []). }
  induction l as [|x l IH]; intros acc Hnd; simpl.
  - by rewrite app_nil_r.
  - rewrite decide_False.
    + rewrite IH; rewrite <- app_assoc; done.
    + apply NoDup_app in Hnd as (_ & Hdisj & _). intros Hin. apply (Hdisj x Hin). left.
Qed.

Lemma getStraightHigh_perm l l' :
  NoDup l → l ≡ₚ l' → getStraightHigh l = getStraightHigh l'.
Proof.
  intros Hnd Hperm. unfold getStraightHigh.
  rewrite !set_spread_NoDup by (done || by rewrite <- Hperm).
  by rewrite (js_sort_desc_perm _ _ Hperm), (Permutation_length Hperm).
Qed.

#[global] Instance RANK_VALUE_inj : Inj (=) (=) RANK_VALUE.
Proof. intros [] [] ?; done. Qed.

(** ** 5-card evaluator: the claims *)

(** C3. For five distinct cards [evaluate5] returns the category chosen by
    the precedence straight flush > four of a kind > full house > flush >
    straight > three of a kind > two pair > one pair > high card, followed
    by the tie-break values of that category: the groups in descending
    (count, rank) order and then the kickers descending for the grouped
    categories, all five ranks descending for flush and high card. *)
Theorem evaluate5_matches_spec (cards : list Card) :
  length cards = 5%nat → NoDup cards →
  evaluate5 cards = Some (spec_evaluateFive cards).
Proof.
  intros Hlen Hnd.
  destruct (hand_facts cards Hlen Hnd) as (r & Heval & _ & Hspec & _).
  by rewrite Heval, Hspec.
Qed.

Lemma evaluate5_matches_spec_witness :
  evaluate5 full_house_hand = Some (spec_evaluateFive full_house_hand)
  ∧ spec_evaluateFive full_house_hand = [6; 9; 13].
Proof.
  split; [|by vm_compute].
  apply evaluate5_matches_spec; [reflexivity|].
  apply (bool_decide_unpack _). vm_compute. exact I.
Defined.

(** C5. Five distinct cards with the ranks A, 2, 3, 4, 5 that are not all of
    one suit evaluate to a straight with high card 5; and for five distinct
    ranks in any order [getStraightHigh] is 5 on the wheel and otherwise the
    highest [r] with [r, r-1, r-2, r-3, r-4] all present (none when there is
    no such [r]), so the ace plays low in the wheel only. *)
Theorem wheel_straight_high :
  (∀ cards, length cards = 5%nat → NoDup cards →
     rank <$> cards ≡ₚ [RA; R2; R3; R4; R5] → spec_flush cards = false →
     evaluate5 cards = Some [4; 5])
  ∧ (∀ rs, length rs = 5%nat → NoDup rs →
     let vals := RANK_VALUE <$> rs in
     (rs ≡ₚ [RA; R2; R3; R4; R5] ↔ is_wheel vals = true)
     ∧ getStraightHigh vals = if is_wheel vals then Some 5 else run_high vals).
Proof.
  split.
  - intros cards Hlen Hnd Hranks Hmixed.
    rewrite (evaluate5_matches_spec cards Hlen Hnd). unfold spec_evaluateFive.
    assert (values cards ≡ₚ [14; 2; 3; 4; 5]) as Hvals.
    { change (values cards) with (RANK_VALUE ∘ rank <$> cards).
      by rewrite list_fmap_compose, Hranks. }
    rewrite Hmixed, (spec_category_perm _ _ Hvals).
    by rewrite (spec_tiebreak_perm _ _ Hvals).
  - intros rs Hlen Hnd vals.
    assert (NoDup vals) as Hndv by by apply (NoDup_fmap_2 RANK_VALUE).
    split.
    + split.
      * intros Hperm. unfold vals. by rewrite (is_wheel_perm _ [14; 2; 3; 4; 5]) by (by rewrite Hperm).
      * intros Hwheel. symmetry. apply submseteq_length_Permutation; [|by rewrite Hlen].
        apply NoDup_submseteq; [apply (bool_decide_unpack _); vm_compute; exact I|].
        unfold is_wheel in Hwheel. simpl in Hwheel.
        rewrite !andb_true_iff, !bool_decide_eq_true in Hwheel.
        intros r Hr. apply (list_elem_of_fmap_inj RANK_VALUE).
        set_unfold in Hr. destruct_or!; subst r; simpl; tauto.
    + pose (cards := repr rs false).
      assert (values cards = vals) as Hv by by apply repr_values.
      assert (length cards = 5%nat) as Hlenc.
      { unfold cards, repr. rewrite length_zip_with. simpl. lia. }
      assert (NoDup cards) as Hndc.
      { apply (NoDup_fmap_1 (fun card => RANK_VALUE (rank card))).
        change (NoDup (values cards)). by rewrite Hv. }
      destruct (hand_facts cards Hlenc Hndc) as (_ & _ & _ & _ & Hsh).
      rewrite Hv in Hsh. rewrite <- Hsh by done.
      apply getStraightHigh_perm; [done|]. by rewrite js_sort_perm.
Qed.

(** ** Descriptor lengths and the comparator's padding *)

Lemma HandRank_length r : HandRank r → length r = desc_len (pad r 0).
Proof.
  intros (cards & Hlen & Hnd & Heval).
  destruct (hand_facts cards Hlen Hnd) as (r' & Heval' & Hl & _). congruence.
Qed.

Lemma HandRank_same_category a b :
  HandRank a → HandRank b → pad a 0 = pad b 0 → length a = length b.
Proof. intros Ha Hb Hcat. by rewrite (HandRank_length a), (HandRank_length b), Hcat. Qed.

Lemma desc_len_pos cat : (0 < desc_len cat)%nat.
Proof. unfold desc_len. repeat case_decide; lia. Qed.

Lemma compareRanks_decided_at_category a b :
  pad a 0 ≠ pad b 0 → compareRanks a b = pad a 0 - pad b 0.
Proof.
  intros Hne. eapply lex_result_unique; [apply compareRanks_lex|].
  right. exists 0%nat. split_and!; [lia | done | done].
Qed.

(** C8. The length of the descriptor of five distinct cards is a function
    ([desc_len]) of its category element; so two descriptors of one
    category have the same length and every position the comparator reads
    is inside both of them, while descriptors of different lengths have
    different categories and are ordered by the category alone. *)
Theorem descriptor_length_by_category :
  (∀ cards, length cards = 5%nat → NoDup cards →
     ∃ r, evaluate5 cards = Some r ∧ length r = desc_len (pad r 0))
  ∧ (∀ a b, HandRank a → HandRank b → pad a 0 = pad b 0 →
       length a = length b
       ∧ ∀ i, (i < Nat.max (length a) (length b))%nat → is_Some (a !! i) ∧ is_Some (b !! i))
  ∧ (∀ a b, HandRank a → HandRank b → length a ≠ length b →
       pad a 0 ≠ pad b 0 ∧ compareRanks a b = pad a 0 - pad b 0).
Proof.
  split_and!.
  - intros cards Hlen Hnd.
    destruct (hand_facts cards Hlen Hnd) as (r & Heval & Hl & _). by exists r.
  - intros a b Ha Hb Hcat.
    pose proof (HandRank_same_category a b Ha Hb Hcat) as Hlen. split; [done|].
    intros i Hi. rewrite <- Hlen, Nat.max_id in Hi.
    split; apply lookup_lt_is_Some; lia.
  - intros a b Ha Hb Hlen.
    assert (pad a 0 ≠ pad b 0) as Hne.
    { intros Hcat. by apply Hlen, HandRank_same_category. }
    split; [done | by apply compareRanks_decided_at_category].
Qed.

Lemma HandRank_eq a b : HandRank a → HandRank b → compareRanks a b = 0 → a = b.
Proof.
  intros Ha Hb Hz. rewrite compareRanks_zero_iff in Hz.
  pose proof (HandRank_same_category a b Ha Hb (Hz 0%nat)) as Hlen.
  apply list_eq. intros i. specialize (Hz i). unfold pad in Hz.
  destruct (decide (i < length a)%nat) as [Hi|Hi].
  - destruct (lookup_lt_is_Some_2 a i Hi) as [x Hx].
    destruct (lookup_lt_is_Some_2 b i ltac:(lia)) as [y Hy].
    rewrite Hx, Hy in *. simpl in Hz. by subst.
  - rewrite !lookup_ge_None_2; [done | lia | lia].
Qed.

(** C4. [compareRanks] is the lexicographic comparison of the two
    sequences padded with zeros.  On HandRank descriptors it is a strict
    total order: [a > b] exactly when [b < a], two descriptors are equal
    exactly when neither is greater, [>] is transitive, and a greater
    category decides the comparison whatever the tie-break values. *)
Theorem compareRanks_strict_total_order :
  (∀ a b, lex_result a b (compareRanks a b))
  ∧ (∀ a b, compareRanks a b > 0 ↔ compareRanks b a < 0)
  ∧ (∀ a b, HandRank a → HandRank b →
       (a = b ↔ ¬ compareRanks a b > 0 ∧ ¬ compareRanks a b < 0))
  ∧ (∀ a b c, compareRanks a b > 0 → compareRanks b c > 0 → compareRanks a c > 0)
  ∧ (∀ a b, pad a 0 > pad b 0 → compareRanks a b > 0).
Proof.
  split_and!.
  - apply compareRanks_lex.
  - intros a b. rewrite (compareRanks_flip a b). lia.
  - intros a b Ha Hb. split.
    + intros ->. rewrite compareRanks_refl. lia.
    + intros [Hgt Hlt]. apply HandRank_eq; [done | done | lia].
  - apply compareRanks_trans_pos.
  - apply compareRanks_category.
Qed.

(** ** Combination tables enumerate the 5-card subsets *)

Lemma elem_of_subsets {A} k (l s : list A) :
  s ∈ subsets k l ↔ s `sublist_of` l ∧ length s = k.
Proof.
  revert k s. induction l as [|x l IH]; intros [|k] s; simpl.
  - rewrite list_elem_of_singleton, sublist_nil_r. split; [by intros -> | by intros [-> _]].
  - rewrite elem_of_nil, sublist_nil_r. split; [done | by intros [-> ?]].
  - rewrite list_elem_of_singleton. split.
    + intros ->. split; [apply sublist_nil_l | done].
    + intros [_ Hlen]. by destruct s.
  - rewrite elem_of_app, list_elem_of_fmap, IH, sublist_cons_r. split.
    + intros [(s' & -> & Hs')|[Hs Hlen]].
      * apply IH in Hs' as [Hs' Hlen]. split; [|by rewrite <- Hlen].
        right. by exists s'.
      * split; [by left | done].
    + intros [[Hs|(s' & -> & Hs')] Hlen].
      * by right.
      * left. exists s'. split; [done|]. apply IH. split; [done|]. simpl in Hlen. lia.
Qed.

Lemma subsets_nonempty {A} k (l : list A) : (k ≤ length l)%nat → subsets k l ≠ [].
Proof.
  intros Hk Hnil.
  assert (take k l ∈ subsets k l) as Hin.
  { apply elem_of_subsets. split; [apply sublist_take | rewrite length_take; lia]. }
  rewrite Hnil in Hin. by apply elem_of_nil in Hin.
Qed.

Lemma subsets_fmap {A B} (f : A → B) k (l : list A) :
  subsets k (f <$> l) = (fun s : list A => f <$> s) <$> subsets k l.
Proof.
  revert k. induction l as [|x l IH]; intros [|k]; simpl; try done.
  rewrite fmap_app, IH, IH, <- !list_fmap_compose. done.
Qed.

Lemma pick_app cards c1 c2 : pick cards (c1 ++ c2) = pick cards c1 ++ pick cards c2.
Proof. apply fmap_app. Qed.

Lemma pick_backtrack cards k : ∀ avail combo,
  pick cards <$> backtrack k avail combo
  = (fun hand => pick cards combo ++ hand) <$> subsets k (pick cards avail).
Proof.
  induction k as [|k IHk]; intros avail combo.
  - destruct avail; simpl; by rewrite app_nil_r.
  - induction avail as [|i rest IHrest]; [done|].
    change (backtrack (S k) (i :: rest) combo)
      with (backtrack k rest (combo ++ [i]) ++ backtrack (S k) rest combo).
    rewrite fmap_app, IHk, IHrest. simpl subsets.
    rewrite fmap_app, <- list_fmap_compose. f_equal.
    apply list_fmap_ext. intros _ hand _. simpl.
    by rewrite pick_app, <- app_assoc.
Qed.

Lemma pick_all cards : pick cards (seq 0 (length cards)) = cards.
Proof.
  apply list_eq. intros i. unfold pick. rewrite list_lookup_fmap.
  destruct (decide (i < length cards)%nat) as [Hi|Hi].
  - rewrite lookup_seq_lt by done. simpl.
    destruct (lookup_lt_is_Some_2 cards i Hi) as [x ->]. done.
  - rewrite lookup_seq_ge by lia. by rewrite lookup_ge_None_2 by lia.
Qed.

Lemma COMBOS_7_5_backtrack : COMBOS_7_5 = backtrack 5 (seq 0 7) [].
Proof. reflexivity. Qed.

Lemma pick_getCombos cards :
  pick cards <$> getCombos (length cards) = subsets 5 cards.
Proof.
  assert (pick cards <$> backtrack 5 (seq 0 (length cards)) [] = subsets 5 cards) as Hgen.
  { rewrite pick_backtrack, pick_all. simpl. apply list_fmap_id. }
  unfold getCombos. case_decide as H7; [|done].
  by rewrite COMBOS_7_5_backtrack, <- H7.
Qed.

(** The memo is transparent: from the empty cache on, the cached
    [getCombos] returns the table of the pure one. *)
Lemma getCombos_memo_transparent cache n :
  cache_coherent cache →
  (getCombos_memo cache n).1 = getCombos n ∧ cache_coherent (getCombos_memo cache n).2.
Proof.
  intros Hcache. unfold getCombos_memo, getCombos.
  case_decide as H7; [done|].
  destruct (cache !! n) as [cached|] eqn:Hhit; simpl.
  - split; [by apply Hcache | done].
  - split; [done|]. intros m combos.
    destruct (decide (n = m)) as [->|Hne].
    + rewrite lookup_insert_eq. by intros [= <-].
    + rewrite lookup_insert_ne by done. apply Hcache.
Qed.

Lemma cache_coherent_empty : cache_coherent ∅.
Proof. intros n combos. by rewrite lookup_empty. Qed.

Lemma best_of_best_hand cards combos : best_of cards combos = best_hand (pick cards <$> combos).
Proof.
  unfold best_of, best_hand. rewrite list_lookup_fmap.
  destruct (combos !! 0%nat) as [c0|]; [|done]. simpl.
  destruct (evaluate5_holes (pick cards c0)) as [first|]; [|done]. simpl.
  rewrite <- fmap_drop, foldl_fmap. done.
Qed.

Lemma evaluate5_holes_Some cards : evaluate5_holes (Some <$> cards) = evaluate5 cards.
Proof. unfold evaluate5_holes. by rewrite mapM_fmap_Some. Qed.

(** ** The selection loop returns a maximum *)

Lemma fold_best_max (rest : list (list (option Card))) : ∀ best0,
  (∀ h, h ∈ rest → is_Some (evaluate5_holes h)) →
  ∃ best,
    foldl (fun best hand =>
             best ← best;
             r ← evaluate5_holes hand;
             Some (if decide (compareRanks r best > 0) then r else best))
          (Some best0) rest = Some best
    ∧ (best = best0 ∨ ∃ h, h ∈ rest ∧ evaluate5_holes h = Some best)
    ∧ 0 ≤ compareRanks best best0
    ∧ ∀ h r, h ∈ rest → evaluate5_holes h = Some r → 0 ≤ compareRanks best r.
Proof.
  induction rest as [|h rest IH]; intros best0 Hdef.
  - exists best0. split_and!; [done | by left | by rewrite compareRanks_refl |].
    by intros h r ?%elem_of_nil.
  - destruct (Hdef h) as [r Hr]; [left|].
    simpl. rewrite Hr. simpl.
    set (best1 := if decide (compareRanks r best0 > 0) then r else best0).
    assert (0 ≤ compareRanks best1 best0 ∧ 0 ≤ compareRanks best1 r) as [H10 H1r].
    { unfold best1. case_decide as Hcmp.
      - rewrite compareRanks_refl. lia.
      - rewrite compareRanks_refl, (compareRanks_flip r best0). lia. }
    destruct (IH best1) as (best & Hfold & Horigin & Hge1 & Hmax).
    { intros h' Hin. apply Hdef. by right. }
    exists best. split_and!; [done | | |].
    + destruct Horigin as [->|(h' & Hin & Hh')].
      * unfold best1. case_decide; [right; exists h; split; [left | done] | by left].
      * right. exists h'. split; [by right | done].
    + by apply (compareRanks_trans_ge _ best1).
    + intros h' r' [->|Hin]%elem_of_cons Hr'.
      * assert (r' = r) as -> by congruence. by apply (compareRanks_trans_ge _ best1).
      * by apply (Hmax h').
Qed.

Lemma best_hand_max hands :
  hands ≠ [] →
  (∀ h, h ∈ hands → is_Some (evaluate5_holes h)) →
  ∃ best,
    best_hand hands = Some best
    ∧ (∃ h, h ∈ hands ∧ evaluate5_holes h = Some best)
    ∧ ∀ h r, h ∈ hands → evaluate5_holes h = Some r → 0 ≤ compareRanks best r.
Proof.
  intros Hne Hdef. destruct hands as [|h0 rest]; [done|].
  destruct (Hdef h0) as [first Hfirst]; [left|].
  destruct (fold_best_max rest first) as (best & Hfold & Horigin & Hge & Hmax).
  { intros h Hin. apply Hdef. by right. }
  exists best. unfold best_hand. simpl. rewrite Hfirst. simpl. rewrite drop_0.
  split_and!; [done | |].
  - destruct Horigin as [->|(h & Hin & Hh)].
    + exists h0. split; [left | done].
    + exists h. split; [by right | done].
  - intros h r [->|Hin]%elem_of_cons Hr.
    + assert (r = first) as -> by congruence. done.
    + by apply (Hmax h).
Qed.

(** Every 5-card subset, in any order, is a rearranged sub-sequence. *)
Lemma subset_is_subsequence (cards s : list Card) :
  NoDup cards → NoDup s → s ⊆ cards → length s = 5%nat →
  ∃ s', s' ∈ subsets 5 cards ∧ s' ≡ₚ s.
Proof.
  intros Hnd Hnds Hsub Hlen.
  assert (filter (fun card => card ∈ s) cards ≡ₚ s) as Hperm.
  { apply NoDup_Permutation; [by apply NoDup_filter | done |].
    intros card. rewrite list_elem_of_filter. split; [by intros [? _] | auto]. }
  exists (filter (fun card => card ∈ s) cards). split; [|done].
  apply elem_of_subsets. split; [apply sublist_filter | by rewrite Hperm].
Qed.

Lemma subsets_evaluate (cards : list Card) :
  NoDup cards →
  ∀ h, h ∈ subsets 5 (Some <$> cards) →
  ∃ s, h = Some <$> s ∧ s ∈ subsets 5 cards ∧ is_Some (evaluate5_holes h).
Proof.
  intros Hnd h. rewrite subsets_fmap, list_elem_of_fmap. intros (s & -> & Hs).
  exists s. split_and!; [done | done |].
  rewrite evaluate5_holes_Some. apply elem_of_subsets in Hs as [Hsub Hlen].
  destruct (hand_facts s Hlen) as (r & -> & _); [|done].
  by apply (sublist_NoDup s cards).
Qed.

(** The maximum over the 5-card subsets, for any table of combinations that
    enumerates them. *)
Lemma best_of_subsets (cards : list Card) combos :
  NoDup cards → (5 ≤ length cards)%nat →
  pick (Some <$> cards) <$> combos = subsets 5 (Some <$> cards) →
  ∃ best,
    best_of (Some <$> cards) combos = Some best
    ∧ (∃ s, s ∈ subsets 5 cards ∧ evaluate5 s = Some best)
    ∧ ∀ s, length s = 5%nat → NoDup s → s ⊆ cards →
        ∃ r, evaluate5 s = Some r ∧ 0 ≤ compareRanks best r.
Proof.
  intros Hnd Hlen Hpicks. rewrite best_of_best_hand, Hpicks.
  destruct (best_hand_max (subsets 5 (Some <$> cards))) as (best & Hbest & Horigin & Hmax).
  { apply (subsets_nonempty 5). by rewrite length_fmap. }
  { intros h Hh. by destruct (subsets_evaluate cards Hnd h Hh) as (_ & _ & _ & ?). }
  exists best. split_and!; [done | |].
  - destruct Horigin as (h & Hh & Heval).
    destruct (subsets_evaluate cards Hnd h Hh) as (s & -> & Hs & _).
    exists s. by rewrite <- evaluate5_holes_Some.
  - intros s Hlens Hnds Hsub.
    destruct (subset_is_subsequence cards s Hnd Hnds Hsub Hlens) as (s' & Hs' & Hperm).
    destruct (hand_facts s Hlens Hnds) as (r & Hr & _).
    exists r. split; [done|].
    apply (Hmax (Some <$> s')).
    + rewrite subsets_fmap. by apply list_elem_of_fmap_2.
    + by rewrite evaluate5_holes_Some, (evaluate5_perm _ _ Hperm).
Qed.

Lemma pick_COMBOS_7_5 (cards : list (option Card)) :
  length cards = 7%nat → pick cards <$> COMBOS_7_5 = subsets 5 cards.
Proof.
  intros Hlen. rewrite <- pick_getCombos, Hlen. done.
Qed.

(** [evaluate7] on seven distinct cards: it returns, and what it returns is
    the greatest descriptor among the 5-card subsets. *)
Lemma evaluate7_max (cards : list Card) :
  length cards = 7%nat → NoDup cards →
  ∃ best,
    evaluate7 (Some <$> cards) = Some best
    ∧ (∃ s, s ∈ subsets 5 cards ∧ evaluate5 s = Some best)
    ∧ ∀ s, length s = 5%nat → NoDup s → s ⊆ cards →
        ∃ r, evaluate5 s = Some r ∧ 0 ≤ compareRanks best r.
Proof.
  intros Hlen Hnd. apply best_of_subsets; [done | lia |].
  apply pick_COMBOS_7_5. by rewrite length_fmap.
Qed.

Lemma length_subsets_5_of_7 {A} (l : list A) : length l = 7%nat → length (subsets 5 l) = 21%nat.
Proof.
  intros Hlen. destruct l as [|x1 [|x2 [|x3 [|x4 [|x5 [|x6 [|x7 [|]]]]]]]]; try done.
Qed.

(** C6 (amended). For exactly seven distinct cards [evaluate7] goes through
    all 21 five-card subsets and returns the maximum: its result is
    [evaluate5] of one of them and compares greater than or equal to
    [evaluate5] of every 5-card subset.  For five or more distinct cards the
    loop of [getBestHandLabel] over [getCombos] goes through all 5-card
    subsets and labels the category of the maximum. *)
Theorem evaluate7_selects_maximum :
  (∀ cards : list Card, length cards = 7%nat → NoDup cards →
     pick (Some <$> cards) <$> COMBOS_7_5 = subsets 5 (Some <$> cards)
     ∧ length (subsets 5 cards) = 21%nat
     ∧ ∃ best,
         evaluate7 (Some <$> cards) = Some best
         ∧ (∃ s, s `sublist_of` cards ∧ length s = 5%nat ∧ evaluate5 s = Some best)
         ∧ ∀ s, length s = 5%nat → NoDup s → s ⊆ cards →
             ∃ r, evaluate5 s = Some r ∧ 0 ≤ compareRanks best r)
  ∧ (∀ cards : list Card, (5 ≤ length cards)%nat → NoDup cards →
     pick (Some <$> cards) <$> getCombos (length cards) = subsets 5 (Some <$> cards)
     ∧ (∀ s, s ∈ subsets 5 cards ↔ s `sublist_of` cards ∧ length s = 5%nat)
     ∧ ∃ best,
         getBestHandLabel cards = Some (rankToLabel (pad best 0))
         ∧ (∃ s, s `sublist_of` cards ∧ length s = 5%nat ∧ evaluate5 s = Some best)
         ∧ ∀ s, length s = 5%nat → NoDup s → s ⊆ cards →
             ∃ r, evaluate5 s = Some r ∧ 0 ≤ compareRanks best r).
Proof.
  split.
  - intros cards Hlen Hnd. split_and!.
    + apply pick_COMBOS_7_5. by rewrite length_fmap.
    + by apply length_subsets_5_of_7.
    + destruct (evaluate7_max cards Hlen Hnd) as (best & Heval & (s & Hs & Hbest) & Hmax).
      exists best. split_and!; [done | | done].
      apply elem_of_subsets in Hs as [? ?]. by exists s.
  - intros cards Hlen Hnd.
    assert (pick (Some <$> cards) <$> getCombos (length cards) = subsets 5 (Some <$> cards))
      as Hpicks.
    { rewrite <- pick_getCombos. by rewrite length_fmap. }
    split_and!; [done | intros s; apply elem_of_subsets |].
    destruct (best_of_subsets cards _ Hnd Hlen Hpicks) as (best & Heval & (s & Hs & Hbest) & Hmax).
    exists best. split_and!; [| | done].
    + unfold getBestHandLabel. rewrite decide_False by lia. by rewrite Heval.
    + apply elem_of_subsets in Hs as [? ?]. by exists s.
Qed.

(** [evaluate7] given five cards reads the missing sixth card and throws. *)
Lemma evaluate7_of_five_throws :
  length full_house_hand = 5%nat
  ∧ NoDup full_house_hand
  ∧ evaluate7 (Some <$> full_house_hand) = None.
Proof.
  split_and!; [done | apply (bool_decide_unpack _); by vm_compute | by vm_compute].
Qed.

(** ** Drawing from the deck *)

Section draws.
Variable random : nat → nat.

Lemma draw_opponents_S n deck k :
  draw_opponents random (S n) deck k =
  let '(first, deck, k) := drawRandom random deck k in
  let '(second, deck, k) := drawRandom random deck k in
  let '(rest, deck, k) := draw_opponents random n deck k in
  ([first; second] :: rest, deck, k).
Proof. reflexivity. Qed.

Lemma fill_board_S n fullBoard deck k :
  fill_board random (S n) fullBoard deck k =
  let '(card, deck, k) := drawRandom random deck k in
  fill_board random n (fullBoard ++ [card]) deck k.
Proof. reflexivity. Qed.

Lemma random_index_lt r len : (0 < len)%nat → (random_index r len < len)%nat.
Proof.
  intros Hlen. unfold random_index. rewrite decide_False by lia.
  apply Nat.mod_upper_bound. lia.
Qed.

Lemma drawRandom_spec deck k :
  (0 < length deck)%nat →
  ∃ card deck', drawRandom random deck k = (Some card, deck', S k) ∧ deck ≡ₚ card :: deck'.
Proof.
  intros Hlen. unfold drawRandom.
  pose proof (random_index_lt (random k) (length deck) Hlen) as Hidx.
  destruct (lookup_lt_is_Some_2 deck _ Hidx) as [card Hcard].
  exists card, (delete (random_index (random k) (length deck)) deck).
  split; [by rewrite Hcard | by apply delete_Permutation].
Qed.

Lemma draw_opponents_spec n : ∀ deck k,
  (2 * n ≤ length deck)%nat →
  ∃ hands deck' k',
    draw_opponents random n deck k = ((fun hand : list Card => Some <$> hand) <$> hands, deck', k')
    ∧ length hands = n
    ∧ Forall (fun hand => length hand = 2%nat) hands
    ∧ deck ≡ₚ concat hands ++ deck'.
Proof.
  induction n as [|n IH]; intros deck k Hlen.
  - by exists [], deck, k.
  - destruct (drawRandom_spec deck k) as (c1 & deck1 & Hd1 & Hp1); [lia|].
    assert (length deck = S (length deck1)) as Hl1 by by rewrite Hp1.
    destruct (drawRandom_spec deck1 (S k)) as (c2 & deck2 & Hd2 & Hp2); [lia|].
    assert (length deck1 = S (length deck2)) as Hl2 by by rewrite Hp2.
    destruct (IH deck2 (S (S k))) as (hands & deck' & k' & Hrest & Hn & Hall & Hp); [lia|].
    exists ([c1; c2] :: hands), deck', k'. rewrite draw_opponents_S, Hd1, Hd2, Hrest.
    split_and!; [done | simpl; by rewrite Hn | by constructor | simpl].
    by rewrite Hp1, Hp2, Hp.
Qed.

Lemma fill_board_spec n : ∀ fullBoard deck k,
  (n ≤ length deck)%nat →
  ∃ drawn deck' k',
    fill_board random n fullBoard deck k = (fullBoard ++ (Some <$> drawn), deck', k')
    ∧ length drawn = n
    ∧ deck ≡ₚ drawn ++ deck'.
Proof.
  induction n as [|n IH]; intros fullBoard deck k Hlen.
  - exists [], deck, k. by rewrite app_nil_r.
  - destruct (drawRandom_spec deck k) as (c1 & deck1 & Hd1 & Hp1); [lia|].
    assert (length deck = S (length deck1)) as Hl1 by by rewrite Hp1.
    destruct (IH (fullBoard ++ [Some c1]) deck1 (S k)) as (drawn & deck' & k' & Hrest & Hn & Hp); [lia|].
    exists (c1 :: drawn), deck', k'. rewrite fill_board_S, Hd1, Hrest.
    split_and!; [by rewrite <- app_assoc | simpl; by rewrite Hn | simpl; by rewrite Hp1, Hp].
Qed.
End draws.

(** ** The showdown *)

Lemma hero_is_best_snoc hr processed r :
  hero_is_best hr (processed ++ [r])
  = hero_is_best hr processed && bool_decide (compareRanks r hr ≤ 0).
Proof. unfold hero_is_best. rewrite forallb_app. simpl. by rewrite andb_true_r. Qed.

Lemma ties_snoc hr processed r :
  ties hr (processed ++ [r])
  = (ties hr processed + if decide (compareRanks r hr = 0%Z) then 1 else 0)%nat.
Proof.
  unfold ties. rewrite filter_app, length_app, (filter_singleton _ _ []).
  by case_decide.
Qed.

Lemma tally_step_inv fb hr processed best winners (i : nat) hand r :
  evaluate7 (hand ++ fb) = Some r →
  tally_inv hr processed best winners →
  ∃ best' winners',
    tally_step fb (Some (best, winners)) (Z.of_nat i, hand) = Some (best', winners')
    ∧ tally_inv hr (processed ++ [r]) best' winners'.
Proof.
  intros Hr Hinv. unfold tally_step. simpl. rewrite Hr. simpl.
  unfold tally_inv. rewrite hero_is_best_snoc, ties_snoc.
  assert ((-1) ∉ [Z.of_nat i]) as Hidx by (rewrite list_elem_of_singleton; lia).
  destruct (decide (compareRanks r best > 0)) as [Hgt1|Hngt];
    [|destruct (decide (compareRanks r best = 0)) as [Heq|Hne]];
    eexists _, _; (split; [done|]);
    destruct Hinv as [(Hbest & -> & Hin & Hlen)|(Hbest & Hnin & Hgt)]; rewrite Hbest.
  - right. by rewrite bool_decide_false by lia.
  - right. split_and!; [done | done |]. by apply (compareRanks_trans_pos r best hr).
  - left. rewrite bool_decide_true, decide_True by lia.
    split_and!; [done | done | set_solver | rewrite length_app; simpl; lia].
  - right. split_and!; [done | | done].
    rewrite elem_of_app. intros [?|?]; done.
  - left. rewrite bool_decide_true, decide_False by lia.
    split_and!; [done | done | done | lia].
  - by right.
Qed.

Lemma tally_fold fb hr hands ranks :
  Forall2 (fun hand r => evaluate7 (hand ++ fb) = Some r) hands ranks →
  ∀ i processed best winners,
  tally_inv hr processed best winners →
  ∃ best' winners',
    foldl (tally_step fb) (Some (best, winners)) (zip (Z.of_nat <$> seq i (length hands)) hands)
    = Some (best', winners')
    ∧ tally_inv hr (processed ++ ranks) best' winners'.
Proof.
  induction 1 as [|hand r hands ranks Hr _ IH]; intros i processed best winners Hinv.
  - exists best, winners. by rewrite app_nil_r.
  - destruct (tally_step_inv fb hr processed best winners i hand r Hr Hinv)
      as (best1 & winners1 & Hstep & Hinv1).
    destruct (IH (S i) _ _ _ Hinv1) as (best' & winners' & Hfold & Hinv').
    exists best', winners'. split; [|by rewrite (cons_middle r), app_assoc].
    change (foldl (tally_step fb) (tally_step fb (Some (best, winners)) (Z.of_nat i, hand))
                  (zip (Z.of_nat <$> seq (S i) (length hands)) hands) = Some (best', winners')).
    by rewrite Hstep.
Qed.

(** The credit computed from the winners is the credit of the
    specification. *)
Lemma tally_credit fb hr hands ranks :
  Forall2 (fun hand r => evaluate7 (hand ++ fb) = Some r) hands ranks →
  ∃ best winners,
    tally fb hr hands = Some (best, winners)
    ∧ (if decide ((-1) ∈ winners)
       then Some (ddiv (double_of_nat 1) (double_of_nat (length winners)))
       else None) = spec_credit hr ranks.
Proof.
  intros Hranks.
  destruct (tally_fold fb hr hands ranks Hranks 0%nat [] hr [-1]) as (best & winners & Hfold & Hinv).
  { left. split_and!; [done | done | set_solver | done]. }
  exists best, winners. split; [done|]. unfold spec_credit. rewrite app_nil_l in Hinv.
  destruct Hinv as [(-> & _ & Hin & ->)|(-> & Hnin & _)].
  - by rewrite decide_True.
  - by rewrite decide_False.
Qed.

(** ** One trial *)

Lemma concat_elem_perm {A} (hand : list A) hands :
  hand ∈ hands → ∃ rest, concat hands ≡ₚ hand ++ rest.
Proof.
  induction 1 as [hand l|hand y l _ [rest IH]]; simpl.
  - by exists (concat l).
  - exists (y ++ rest). rewrite IH. by rewrite !app_assoc, (Permutation_app_comm y hand).
Qed.

Lemma length_concat_pairs {A} (hands : list (list A)) :
  Forall (fun hand => length hand = 2%nat) hands →
  length (concat hands) = (2 * length hands)%nat.
Proof.
  induction 1 as [|hand hands Hh _ IH]; simpl; [done|].
  rewrite length_app, Hh, IH. lia.
Qed.

Lemma all_Some_Forall2 {A B} (f : A → option B) l :
  (∀ x, x ∈ l → is_Some (f x)) → ∃ k, Forall2 (fun x y => f x = Some y) l k.
Proof.
  intros Hall.
  destruct (mapM_is_Some_2 f l) as [k Hk]; [by apply Forall_forall|].
  exists k. by apply mapM_Some_1.
Qed.

Section trial_facts.
Variable random : nat → nat.
Variable p : WinRateParams.
Hypothesis Hvalid : valid_input p.
Hypothesis Hroom : (length (knownOpponents p) ≤ 22)%nat.

Lemma length_known_cards :
  length (known_cards p) = (2 + length (board p) + 2 * length (knownOpponents p))%nat.
Proof.
  destruct Hvalid as (Hhero & _ & _ & Hpairs & _).
  unfold known_cards. rewrite !length_app, Hhero, (length_concat_pairs _ Hpairs). lia.
Qed.

Lemma deck_has_room :
  (2 * Z.to_nat (unknownOpponentsCount p) + (5 - length (board p))
   ≤ length (createDeck (known_cards p)))%nat.
Proof.
  destruct Hvalid as (_ & Hboard & Hplayers & _ & Hnd & _).
  rewrite (length_createDeck _ Hnd), length_known_cards.
  unfold unknownOpponentsCount. lia.
Qed.

Lemma trial_spec k : ∃ t k', trial random p k = Some (t, k') ∧ trial_ok p t.
Proof.
  pose proof deck_has_room as Hdeck.
  destruct Hvalid as (Hhero & Hboard & Hplayers & Hpairs & Hnd & _).
  unfold trial. fold (known_cards p).
  set (deck := createDeck (known_cards p)) in *.
  destruct (draw_opponents_spec random (Z.to_nat (unknownOpponentsCount p)) deck k)
    as (opps & deck1 & k1 & -> & Hopps & Hpairs' & Hperm1); [lia|].
  assert (length deck = (2 * length opps + length deck1)%nat) as Hlen1.
  { by rewrite Hperm1, length_app, (length_concat_pairs _ Hpairs'). }
  destruct (fill_board_spec random (5 - length (board p)) (Some <$> board p) deck1 k1)
    as (drawn & deck2 & k2 & -> & Hdrawn & Hperm2); [lia|].
  rewrite <- fmap_app.
  assert (NoDup (known_cards p ++ concat opps ++ drawn)) as Hall.
  { assert (NoDup deck) as Hnd' by apply NoDup_createDeck.
    rewrite Hperm1, Hperm2, app_assoc in Hnd'. apply NoDup_app in Hnd' as (Hnd' & _ & _).
    apply NoDup_app. split_and!; [done | | done].
    intros card Hknown Hdeck'.
    assert (card ∈ deck) as Hin.
    { rewrite Hperm1, Hperm2, !elem_of_app in *. tauto. }
    by apply createDeck_elem in Hin. }
  assert (length (board p ++ drawn) = 5%nat) as Hfull by (rewrite length_app; lia).
  assert (∀ hand rest, length hand = 2%nat →
            concat (knownOpponents p) ++ concat opps ≡ₚ hand ++ rest ∨ hand = hero p →
            is_Some (evaluate7 (Some <$> (hand ++ board p ++ drawn)))) as Heval.
  { intros hand rest Hh Hwhere.
    destruct (evaluate7_max (hand ++ board p ++ drawn)) as (r & -> & _); [| |done].
    - rewrite length_app, Hfull. lia.
    - unfold known_cards in Hall. destruct Hwhere as [Hrest| ->].
      + assert (hero p ++ board p ++ concat (knownOpponents p) ++ concat opps ++ drawn
                ≡ₚ (hand ++ board p ++ drawn) ++ hero p ++ rest) as Hperm.
        { rewrite (app_assoc (concat (knownOpponents p))), Hrest. solve_Permutation. }
        rewrite <- !app_assoc, Hperm in Hall. by apply NoDup_app in Hall as (? & _ & _).
      + assert (hero p ++ board p ++ concat (knownOpponents p) ++ concat opps ++ drawn
                ≡ₚ (hero p ++ board p ++ drawn) ++ concat (knownOpponents p) ++ concat opps)
          as Hperm by solve_Permutation.
        rewrite <- !app_assoc, Hperm in Hall. by apply NoDup_app in Hall as (? & _ & _). }
  destruct (Heval (hero p) [] Hhero) as [heroRank HheroRank]; [by right|].
  rewrite fmap_app in HheroRank. rewrite HheroRank. simpl.
  destruct (all_Some_Forall2
              (fun hand => evaluate7 (Some <$> (hand ++ board p ++ drawn)))
              (knownOpponents p ++ opps)) as [oppRanks HoppRanks].
  { intros hand Hin.
    destruct (concat_elem_perm hand _ Hin) as [rest Hrest]. rewrite concat_app in Hrest.
    apply (Heval hand rest); [|by left].
    rewrite elem_of_app in Hin. destruct Hin as [Hin|Hin].
    - by eapply Forall_forall in Hpairs.
    - by eapply Forall_forall in Hpairs'. }
  destruct (tally_credit (Some <$> (board p ++ drawn)) heroRank
              ((fun hand : list Card => Some <$> hand) <$> (knownOpponents p ++ opps)) oppRanks)
    as (best & winners & Htally & Hcredit).
  { apply Forall2_fmap_l. eapply Forall2_impl; [exact HoppRanks|].
    intros hand r Hr. simpl. by rewrite <- fmap_app. }
  rewrite (fmap_app _ (knownOpponents p) opps) in Htally. rewrite Htally. simpl.
  eexists _, _. split; [done|].
  exists opps, drawn, heroRank, oppRanks. simpl.
  split_and!; try done.
  by rewrite fmap_app.
Qed.
End trial_facts.

(** ** The whole run *)

Section run_facts.
Variable random : nat → nat.
Variable p : WinRateParams.
Hypothesis Hvalid : valid_input p.
Hypothesis Hroom : (length (knownOpponents p) ≤ 22)%nat.

Lemma run_trials_spec n : ∀ acc k,
  ∃ total log,
    run_trials random p n acc k = Some (total, log)
    ∧ length log = n
    ∧ Forall (trial_ok p) log
    ∧ total = foldl add_credit acc (t_credit <$> log).
Proof.
  induction n as [|n IH]; intros acc k.
  - by exists acc, [].
  - destruct (trial_spec random p Hvalid Hroom k) as (t & k' & Htrial & Hok).
    destruct (IH (add_credit acc (t_credit t)) k') as (total & log & Hrun & Hlen & Hall & Htotal).
    exists total, (t :: log). simpl. rewrite Htrial. simpl. rewrite Hrun. simpl.
    split_and!; [done | by rewrite Hlen | by constructor | done].
Qed.

Lemma calculateWinRate_log_spec :
  ∃ res log,
    calculateWinRate_log random p = Some (res, log)
    ∧ length log = iterations_of p
    ∧ res_iterations res = iterations_of p
    ∧ Forall (trial_ok p) log
    ∧ equity res = ddiv (sum_credits log) (double_of_nat (iterations_of p)).
Proof.
  destruct (run_trials_spec (iterations_of p) (double_of_nat 0) 0%nat)
    as (total & log & Hrun & Hlen & Hall & Htotal).
  eexists _, log. unfold calculateWinRate_log. rewrite Hrun. simpl.
  split_and!; [done | done | done | done |]. by rewrite Htotal.
Qed.
End run_facts.





(** ** Doubles holding integers *)

Lemma bits_pos p : 1 ≤ bits p.
Proof. unfold bits. lia. Qed.

Lemma bits_spec p : 2 ^ (bits p - 1) ≤ Zpos p < 2 ^ bits p.
Proof.
  unfold bits. induction p as [p IH|p IH|]; simpl digits2_pos.
  - rewrite Pos2Z.inj_succ. replace (Z.succ (Z.pos (digits2_pos p)) - 1) with (Z.pos (digits2_pos p)) by lia.
    rewrite Z.pow_succ_r by lia.
    replace (Z.pos (digits2_pos p)) with (Z.succ (Z.pos (digits2_pos p) - 1)) at 1 by lia.
    rewrite Z.pow_succ_r by lia. lia.
  - rewrite Pos2Z.inj_succ. replace (Z.succ (Z.pos (digits2_pos p)) - 1) with (Z.pos (digits2_pos p)) by lia.
    rewrite Z.pow_succ_r by lia.
    replace (Z.pos (digits2_pos p)) with (Z.succ (Z.pos (digits2_pos p) - 1)) at 1 by lia.
    rewrite Z.pow_succ_r by lia. lia.
  - simpl. lia.
Qed.

Lemma bits_unique p d : 2 ^ (d - 1) ≤ Zpos p < 2 ^ d → bits p = d.
Proof.
  intros [Hlo Hhi]. pose proof (bits_spec p) as [Hlo' Hhi']. pose proof (bits_pos p).
  destruct (Z.lt_trichotomy (bits p) d) as [Hlt|[?|Hgt]]; [|done|].
  - assert (2 ^ bits p ≤ 2 ^ (d - 1)) by (apply Z.pow_le_mono_r; lia). lia.
  - assert (d ≤ 0 ∨ 0 < d) as [?|?] by lia.
    + assert (2 ^ d ≤ 2 ^ (bits p - 1)) by (apply Z.pow_le_mono_r; lia). lia.
    + assert (2 ^ d ≤ 2 ^ (bits p - 1)) by (apply Z.pow_le_mono_r; lia). lia.
Qed.

Lemma shift_pos p j : Zpos (Pos.iter xO p j) = Zpos p * 2 ^ Zpos j.
Proof.
  induction j as [|j IH] using Pos.peano_ind.
  - simpl. lia.
  - rewrite Pos.iter_succ, Pos2Z.inj_xO, IH, Pos2Z.inj_succ, Z.pow_succ_r by lia. lia.
Qed.

Lemma bits_shift p j : bits (Pos.iter xO p j) = bits p + Zpos j.
Proof.
  induction j as [|j IH] using Pos.peano_ind.
  - unfold bits. simpl. lia.
  - rewrite Pos.iter_succ. unfold bits in *. simpl digits2_pos. lia.
Qed.

Lemma iter_pos_iter {A} (f : A → A) (n : positive) : ∀ x, SpecFloat.iter_pos f n x = Pos.iter f x n.
Proof.
  induction n as [n IH|n IH|]; intros x; simpl.
  - by rewrite !IH, <- !Pos.iter_swap.
  - by rewrite !IH.
  - done.
Qed.

Lemma shr_exact q j :
  SpecFloat.iter_pos shr_1 j {| shr_m := Zpos (Pos.iter xO q j); shr_r := false; shr_s := false |}
  = {| shr_m := Zpos q; shr_r := false; shr_s := false |}.
Proof.
  rewrite iter_pos_iter. revert q. induction j as [|j IH] using Pos.peano_ind; intros q.
  - done.
  - rewrite Pos.iter_succ_r. rewrite Pos.iter_succ. simpl shr_1.
    rewrite <- (IH q). f_equal.
Qed.

Lemma round_canonical s m e :
  bits m = 53 → -1074 ≤ e ≤ 971 →
  binary_round_aux 53 1024 s (Zpos m) e loc_Exact = S754_finite s m e.
Proof.
  intros Hbits He.
  cbv [binary_round_aux shr_fexp fexp emin Zdigits2 shr_record_of_loc].
  change (Zpos (digits2_pos m)) with (bits m). rewrite Hbits.
  replace (Z.max (53 + e - 53) (3 - 1024 - 53) - e) with 0 by lia.
  cbv [shr shr_m loc_of_shr_record round_nearest_even Zdigits2].
  change (Zpos (digits2_pos m)) with (bits m). rewrite Hbits.
  replace (Z.max (53 + e - 53) (3 - 1024 - 53) - e) with 0 by lia.
  cbv [shr shr_m].
  destruct (Z.leb_spec e (1024 - 53)); [done | lia].
Qed.

(** [binary_round] returns the canonical representation of a value that has
    one. *)
Lemma binary_round_exact s M E m :
  let e := bits M + E - 53 in
  -1074 ≤ e ≤ 971 →
  (e ≤ E ∧ Zpos m = Zpos M * 2 ^ (E - e)) ∨ (E < e ∧ Zpos M = Zpos m * 2 ^ (e - E)) →
  binary_round 53 1024 s M E = S754_finite s m e.
Proof.
  intros e He Hm. unfold binary_round. cbv [fexp emin].
  change (Zpos (digits2_pos M)) with (bits M).
  replace (Z.max (bits M + E - 53) (3 - 1024 - 53)) with e by (unfold e in *; lia).
  unfold shl_align.
  destruct Hm as [[Hle Hm]|[Hlt Hm]].
  - destruct (e - E) as [|d|d] eqn:Hd; [|lia|].
    + assert (e = E) as HeE by lia. rewrite <- HeE in *.
      replace (e - e) with 0 in Hm by lia. rewrite Z.pow_0_r, Z.mul_1_r in Hm.
      injection Hm as ->. apply round_canonical; [unfold e in *; lia | lia].
    + assert (m = Pos.iter xO M d) as ->.
      { apply Pos2Z.inj. rewrite shift_pos, Hm. f_equal. f_equal. lia. }
      apply round_canonical; [|lia]. rewrite bits_shift. unfold e in *. lia.
  - destruct (e - E) as [|j|j] eqn:Hj; [lia| |lia].
    assert (M = Pos.iter xO m j) as HM.
    { apply Pos2Z.inj. by rewrite shift_pos, Hm. }
    assert (bits m = 53) as Hbits.
    { pose proof (bits_shift m j) as Hs. rewrite <- HM in Hs. unfold e in *. lia. }
    cbv [binary_round_aux shr_fexp fexp emin Zdigits2 shr_record_of_loc].
    change (Zpos (digits2_pos M)) with (bits M).
    replace (Z.max (bits M + E - 53) (3 - 1024 - 53) - E) with (Zpos j) by (unfold e in *; lia).
    cbv [shr]. rewrite HM, shr_exact.
    cbv [shr_m loc_of_shr_record round_nearest_even Zdigits2].
    change (Zpos (digits2_pos m)) with (bits m). rewrite Hbits.
    replace (E + Zpos j) with e by lia.
    replace (Z.max (53 + e - 53) (3 - 1024 - 53) - e) with 0 by lia.
    cbv [shr shr_m].
    destruct (Z.leb_spec e (1024 - 53)); [done | lia].
Qed.

(** The double of an integer below [2^53] is the integer itself. *)
Lemma double_of_pos p :
  Zpos p < 2 ^ 53 →
  ∃ m, double_of_Z (Zpos p) = S754_finite false m (bits p - 53)
       ∧ Zpos m = Zpos p * 2 ^ (53 - bits p).
Proof.
  intros Hp. pose proof (bits_spec p) as [Hlo Hhi]. pose proof (bits_pos p) as Hb.
  assert (bits p ≤ 53) as Hb53.
  { destruct (Z_le_gt_dec (bits p) 53) as [?|Hgt]; [done|].
    assert (2 ^ 53 ≤ 2 ^ (bits p - 1)) by (apply Z.pow_le_mono_r; lia). lia. }
  exists (Z.to_pos (Zpos p * 2 ^ (53 - bits p))).
  assert (0 < 2 ^ (53 - bits p)) as Hpow by (apply Z.pow_pos_nonneg; lia).
  assert (Zpos (Z.to_pos (Zpos p * 2 ^ (53 - bits p))) = Zpos p * 2 ^ (53 - bits p)) as Hm
    by (apply Z2Pos.id; lia).
  split; [|done]. unfold double_of_Z, binary_normalize.
  replace (bits p - 53) with (bits p + 0 - 53) by lia.
  apply binary_round_exact; [lia|]. left. split; [lia|].
  rewrite Hm. f_equal. f_equal. lia.
Qed.





(** ** Four deuces *)








(** ** Counting ranks in a Map *)

Lemma map_get_set m k x v :
  map_get (map_set m k x) v = if decide (k = v) then Some x else map_get m v.
Proof.
  induction m as [|[k' x'] m IH]; simpl.
  - repeat case_decide; done.
  - destruct (decide (k' = k)) as [->|Hne]; simpl.
    + repeat case_decide; congruence.
    + rewrite IH. repeat case_decide; congruence.
Qed.

Lemma map_set_keys m k x :
  fst <$> map_set m k x = if decide (k ∈ fst <$> m) then fst <$> m else (fst <$> m) ++ [k].
Proof.
  induction m as [|[k' x'] m IH].
  - simpl map_set. rewrite decide_False; [done | by intros ?%elem_of_nil].
  - simpl map_set. destruct (decide (k' = k)) as [->|Hne]; rewrite !fmap_cons; simpl fst.
    + rewrite decide_True; [done | left].
    + rewrite IH. destruct (decide (k ∈ fst <$> m)) as [Hin|Hnin].
      * rewrite decide_True; [done | by right].
      * rewrite decide_False; [done|]. intros [?|?]%elem_of_cons; congruence.
Qed.

Lemma map_set_NoDup m k x : NoDup (fst <$> m) → NoDup (fst <$> map_set m k x).
Proof.
  intros Hnd. rewrite map_set_keys. case_decide as Hin; [done|].
  apply NoDup_app. split_and!; [done | | apply NoDup_singleton].
  intros y Hy ->%list_elem_of_singleton. done.
Qed.

Lemma map_get_elem m k x : NoDup (fst <$> m) → (k, x) ∈ m ↔ map_get m k = Some x.
Proof.
  induction m as [|[k' x'] m IH]; simpl; intros Hnd.
  - by rewrite elem_of_nil.
  - apply NoDup_cons in Hnd as [Hk' Hnd]. rewrite elem_of_cons, (IH Hnd).
    destruct (decide (k' = k)) as [->|Hne].
    + split; [intros [?|Hget]; [congruence|] | intros [= ->]; by left].
      destruct Hk'. apply list_elem_of_fmap. exists (k, x). split; [done|]. by apply IH.
    + split; [intros [?|?]; [congruence | done] | by right].
Qed.

Lemma multiplicity_cons v x vals :
  multiplicity v (x :: vals) = ((if decide (x = v) then 1 else 0) + multiplicity v vals)%nat.
Proof. unfold multiplicity. rewrite filter_cons. by case_decide. Qed.

Lemma multiplicity_pos v vals : (0 < multiplicity v vals)%nat ↔ v ∈ vals.
Proof.
  induction vals as [|x vals IH]; [rewrite elem_of_nil; unfold multiplicity; simpl; lia|].
  rewrite multiplicity_cons, elem_of_cons. case_decide; [|rewrite <- IH]; intuition (lia || auto).
Qed.

Lemma count_fold vals : ∀ acc,
  NoDup (fst <$> acc) →
  let m := foldl (fun counts rank => map_set counts rank (default 0 (map_get counts rank) + 1)) acc vals in
  NoDup (fst <$> m)
  ∧ (∀ v, default 0 (map_get m v) = default 0 (map_get acc v) + Z.of_nat (multiplicity v vals))
  ∧ (∀ v, is_Some (map_get m v) ↔ is_Some (map_get acc v) ∨ v ∈ vals).
Proof.
  induction vals as [|x vals IH]; intros acc Hnd; simpl.
  - split_and!; [done | intros v; unfold multiplicity; simpl; lia |].
    intros v. rewrite elem_of_nil. tauto.
  - destruct (IH (map_set acc x (default 0 (map_get acc x) + 1))) as (Hnd' & Hget & Hsome).
    { by apply map_set_NoDup. }
    split_and!; [done | |].
    + intros v. rewrite Hget, map_get_set, multiplicity_cons.
      case_decide as Hxv; [subst; simpl|]; lia.
    + intros v. rewrite Hsome, map_get_set, elem_of_cons.
      case_decide as Hxv; [subst|]; intuition (eauto || congruence).
Qed.

Lemma count_ranks_get vals v x :
  map_get (count_ranks vals) v = Some x ↔ v ∈ vals ∧ x = Z.of_nat (multiplicity v vals).
Proof.
  destruct (count_fold vals []) as (_ & Hget & Hsome); [constructor|].
  fold (count_ranks vals) in Hget, Hsome. specialize (Hget v). specialize (Hsome v).
  simpl in Hget, Hsome. split.
  - intros Hx. rewrite Hx in Hget, Hsome. simpl in Hget. split; [|lia].
    destruct Hsome as [Hsome _]. destruct Hsome as [[? [=]]|?]; eauto.
  - intros [Hin ->]. destruct Hsome as [_ [y Hy]]; [by right|].
    rewrite Hy in Hget |- *. simpl in Hget. f_equal. lia.
Qed.

Lemma count_ranks_values vals x :
  x ∈ snd <$> count_ranks vals ↔ ∃ v, v ∈ vals ∧ x = Z.of_nat (multiplicity v vals).
Proof.
  destruct (count_fold vals []) as (Hnd & _); [constructor|].
  fold (count_ranks vals) in Hnd. rewrite list_elem_of_fmap. split.
  - intros ([v y] & -> & Hin). exists v. by apply count_ranks_get, map_get_elem.
  - intros (v & Hin & ->). exists (v, Z.of_nat (multiplicity v vals)). split; [done|].
    by apply map_get_elem, count_ranks_get.
Qed.

Lemma count_cards_ranks cards : count_cards cards = count_ranks (values cards).
Proof. unfold count_cards, count_ranks, values. by rewrite foldl_fmap. Qed.

(** The first element of an array sorted by [(a, b) => b - a] is its
    maximum. *)
Lemma js_sort_desc_head l :
  match js_sort desc l !! 0%nat with
  | Some x => x ∈ l ∧ ∀ y, y ∈ l → y ≤ x
  | None => l = []
  end.
Proof.
  pose proof (Sorted_sort_desc l) as Hsorted.
  pose proof (js_sort_perm desc l) as Hperm.
  destruct (js_sort desc l) as [|x sorted]; simpl.
  - by apply Permutation_nil_l in Hperm.
  - apply (Sorted_StronglySorted _) in Hsorted.
    apply StronglySorted_cons in Hsorted as [Hall _].
    split; [rewrite <- Hperm; left|].
    intros y Hy. rewrite <- Hperm in Hy. apply elem_of_cons in Hy as [->|Hy]; [lia|].
    rewrite Forall_forall in Hall. specialize (Hall y Hy). unfold desc in Hall. lia.
Qed.

Lemma values_are_ranks cards v : v ∈ values cards → v ∈ rank_values_desc.
Proof.
  unfold values. rewrite list_elem_of_fmap. intros (card & -> & _).
  destruct card as [[] ?]; apply (bool_decide_unpack _); vm_compute; exact I.
Qed.

(** C10. For fewer than five cards the label depends only on the largest
    rank multiplicity [m]: One Pair when [m = 2], Three of a Kind when
    [m = 3], High Card otherwise -- also for no card, one card, and four
    cards of one rank. *)
Theorem partial_hand_label (cards : list Card) :
  (length cards < 5)%nat →
  getBestHandLabel cards = Some (partial_label (max_multiplicity cards))
  ∧ (getBestHandLabel cards = Some "One Pair" ↔ max_multiplicity cards = 2%nat)
  ∧ (getBestHandLabel cards = Some "Three of a Kind" ↔ max_multiplicity cards = 3%nat)
  ∧ (max_multiplicity cards ≠ 2%nat → max_multiplicity cards ≠ 3%nat →
     getBestHandLabel cards = Some "High Card").
Proof.
  intros Hlen.
  assert (getBestHandLabel cards = Some (partial_label (max_multiplicity cards))) as Hlabel.
  { unfold getBestHandLabel. rewrite decide_True by done.
    rewrite count_cards_ranks. set (vals := values cards).
    pose proof (js_sort_desc_head (snd <$> count_ranks vals)) as Hhead.
    assert (∀ v, v ∈ vals → (multiplicity v vals ≤ max_multiplicity cards)%nat) as Hle.
    { intros v Hv. apply max_list_elem_of_le, list_elem_of_fmap.
      exists v. split; [done | by apply (values_are_ranks cards)]. }
    assert (max_multiplicity cards = 0%nat
            ∨ ∃ v, v ∈ vals ∧ max_multiplicity cards = multiplicity v vals) as Hmax.
    { assert ((fun v => multiplicity v vals) <$> rank_values_desc ≠ []) as Hne.
      { intros Hnil%fmap_nil_inv. vm_compute in Hnil. discriminate Hnil. }
      apply max_list_elem_of, list_elem_of_fmap_1 in Hne as (v & Hv & _).
      change (max_multiplicity cards = multiplicity v vals) in Hv.
      destruct (decide (max_multiplicity cards = 0%nat)) as [?|Hpos]; [by left|].
      right. exists v. split; [|done]. apply multiplicity_pos. lia. }
    destruct (js_sort desc (snd <$> count_ranks vals) !! 0%nat) as [x|] eqn:Hx.
    - destruct Hhead as [Hin Hge].
      apply count_ranks_values in Hin as (k & Hk & ->).
      assert (max_multiplicity cards = multiplicity k vals) as ->.
      { apply Nat.le_antisymm; [|by apply Hle].
        destruct Hmax as [->|(v & Hv & ->)]; [lia|].
        assert (Z.of_nat (multiplicity v vals) ≤ Z.of_nat (multiplicity k vals)); [|lia].
        apply Hge, count_ranks_values. by exists v. }
      unfold partial_label.
      destruct (decide (multiplicity k vals = 2%nat)) as [->|H2]; [done|].
      rewrite decide_False by (intros [=]; lia).
      destruct (decide (multiplicity k vals = 3%nat)) as [->|H3]; [done|].
      by rewrite decide_False by (intros [=]; lia).
    - assert (max_multiplicity cards = 0%nat) as ->; [|by repeat case_decide].
      destruct Hmax as [?|(v & Hv & _)]; [done|].
      assert (Z.of_nat (multiplicity v vals) ∈ snd <$> count_ranks vals) as Hin.
      { apply count_ranks_values. by exists v. }
      rewrite Hhead in Hin. by apply elem_of_nil in Hin. }
  rewrite Hlabel. unfold partial_label.
  split_and!; [done | | |]; repeat case_decide; try split; intros; try done; try lia.
Qed.

Lemma partial_hand_label_witness :
  (length [mkCard R7 SuitH; mkCard R7 SuitS; mkCard R7 SuitD; mkCard R7 SuitC] < 5)%nat
  ∧ max_multiplicity [mkCard R7 SuitH; mkCard R7 SuitS; mkCard R7 SuitD; mkCard R7 SuitC] = 4%nat
  ∧ getBestHandLabel [mkCard R7 SuitH; mkCard R7 SuitS; mkCard R7 SuitD; mkCard R7 SuitC]
    = Some "High Card".
Proof.
  assert (length [mkCard R7 SuitH; mkCard R7 SuitS; mkCard R7 SuitD; mkCard R7 SuitC] < 5)%nat
    as Hlen by (simpl; lia).
  split_and!; [exact Hlen | reflexivity |].
  exact (proj1 (partial_hand_label _ Hlen)).
Defined.

(** ** The caller's checks *)

Lemma toKey_cardToString card : App.toKey card = cardToString card.
Proof. reflexivity. Qed.

Lemma hasDuplicate_from_spec cards : ∀ seen,
  App.hasDuplicate_from seen cards = false
  ↔ NoDup cards ∧ ∀ card, card ∈ cards → App.toKey card ∉ seen.
Proof.
  induction cards as [|card rest IH]; intros seen; simpl.
  - split; [|done]. intros _. split; [constructor | by intros ? ?%elem_of_nil].
  - case_decide as Hseen.
    + split; [done|]. intros [_ Hfresh]. destruct (Hfresh card); [left | done].
    + rewrite IH, NoDup_cons. split.
      * intros [Hnd Hfresh]. split_and!; [|done|].
        -- intros Hin. apply (Hfresh card Hin), elem_of_union. left. by apply elem_of_singleton.
        -- intros c [->|Hin]%elem_of_cons; [done|].
           intros Hs. apply (Hfresh c Hin), elem_of_union. by right.
      * intros [[Hnin Hnd] Hfresh]. split; [done|].
        intros c Hin. rewrite elem_of_union, elem_of_singleton. intros [Hkey|Hs].
        -- rewrite !toKey_cardToString in Hkey. apply (inj cardToString) in Hkey. by subst.
        -- apply (Hfresh c); [by right | done].
Qed.

Lemma hasDuplicate_spec cards : App.hasDuplicate cards = false ↔ NoDup cards.
Proof.
  unfold App.hasDuplicate. rewrite hasDuplicate_from_spec. split; [by intros [? _]|].
  intros Hnd. split; [done|]. intros ? _. apply not_elem_of_empty.
Qed.

Lemma compactCards_holes n : App.compactCards (replicate n None) = [].
Proof. induction n as [|n IH]; [done | by simpl]. Qed.

Lemma compactCards_insert_None arr : ∀ index,
  App.compactCards (<[index := None]> arr) `sublist_of` App.compactCards arr.
Proof.
  induction arr as [|slot arr IH]; intros [|index]; simpl; try done.
  - destruct slot; simpl; [by apply sublist_cons | done].
  - destruct slot; simpl; [by apply sublist_skip | apply IH].
Qed.

Lemma compactCards_assign_None arr index :
  App.compactCards (App.assign arr index None) `sublist_of` App.compactCards arr.
Proof.
  unfold App.assign. case_decide as Hi; [apply compactCards_insert_None|].
  unfold App.compactCards. rewrite !omap_app. fold (App.compactCards (replicate (index - length arr) None)).
  rewrite compactCards_holes. simpl. by rewrite app_nil_r.
Qed.

Lemma concat_insert_sublist (hands : list (list App.CardSlot)) handIndex hand hand' :
  hands !! handIndex = Some hand →
  App.compactCards hand' `sublist_of` App.compactCards hand →
  concat (App.compactCards <$> <[handIndex := hand']> hands)
  `sublist_of` concat (App.compactCards <$> hands).
Proof.
  revert handIndex. induction hands as [|h hands IH]; intros [|i] Hlook Hsub; simpl in *; try done.
  - simplify_eq. apply sublist_app; done.
  - apply sublist_app; [done | by apply IH].
Qed.

Lemma sublist_concat_fmap_take (hands : list (list App.CardSlot)) count :
  concat (App.compactCards <$> take count hands) `sublist_of` concat (App.compactCards <$> hands).
Proof.
  revert count. induction hands as [|h hands IH]; intros [|count]; simpl; try done.
  - apply sublist_nil_l.
  - apply sublist_app; [done | apply IH].
Qed.

Lemma concat_empty_hands n :
  concat (App.compactCards <$> replicate n [None; None]) = [].
Proof. induction n as [|n IH]; [done | by simpl]. Qed.

(** No card is ever assigned twice. *)
Lemma reachable_NoDup st : App.reachable st → NoDup (App.allCards st).
Proof.
  induction 1 as [|st index card _ IH|st index card _ IH|st h i card ok st' _ IH Hset
                  |st index _ IH|st index _ IH|st h i st' _ IH Hclear|st count _ IH|st v _ IH].
  - apply (bool_decide_unpack _). by vm_compute.
  - unfold App.handleHeroSet.
    destruct (App.hasDuplicate _) eqn:Hdup; simpl; [done|]. by apply hasDuplicate_spec.
  - unfold App.handleBoardSet.
    destruct (App.hasDuplicate _) eqn:Hdup; simpl; [done|]. by apply hasDuplicate_spec.
  - unfold App.handleOpponentSet in Hset.
    destruct (App.knownOpponents st !! h) as [hand|]; [|done]. simpl in Hset.
    destruct (App.hasDuplicate _) eqn:Hdup; simplify_eq; [done|]. by apply hasDuplicate_spec.
  - eapply sublist_NoDup; [exact IH|]. unfold App.allCards. simpl.
    apply sublist_app; [apply compactCards_assign_None | done].
  - eapply sublist_NoDup; [exact IH|]. unfold App.allCards. simpl.
    apply sublist_app; [done|]. apply sublist_app; [apply compactCards_assign_None | done].
  - unfold App.handleClearOpponent in Hclear.
    destruct (App.knownOpponents st !! h) as [hand|] eqn:Hlook; [|done].
    simpl in Hclear. simplify_eq.
    eapply sublist_NoDup; [exact IH|]. unfold App.allCards. simpl.
    do 2 (apply sublist_app; [done|]).
    eapply concat_insert_sublist; [done | apply compactCards_assign_None].
  - eapply sublist_NoDup; [exact IH|]. unfold App.allCards. simpl.
    do 2 (apply sublist_app; [done|]).
    etrans; [apply sublist_concat_fmap_take|].
    by rewrite fmap_app, concat_app, concat_empty_hands, app_nil_r.
  - done.
Qed.

Lemma canCalculate_spec st :
  App.canCalculate st = true
  ↔ length (App.compactCards (App.heroCards st)) = 2%nat
    ∧ Forall (fun hand => length (App.compactCards hand) = 2%nat) (App.knownOpponents st).
Proof.
  unfold App.canCalculate. case_decide as Hhero; [split; [done | by intros [? _]]|].
  destruct (existsb _ _) eqn:Hsome.
  - split; [done|]. intros [_ Hall].
    apply existsb_exists in Hsome as (hand & Hin & Hbad).
    apply negb_true_iff, bool_decide_eq_false in Hbad.
    rewrite Forall_forall in Hall. destruct Hbad. apply Hall. by apply list_elem_of_In.
  - split; [|done]. intros _. split; [done|].
    apply Forall_forall. intros hand Hin.
    destruct (decide (length (App.compactCards hand) = 2%nat)) as [?|Hbad]; [done|].
    assert (existsb (fun hand => negb (bool_decide (length (App.compactCards hand) = 2%nat)))
                    (App.knownOpponents st) = true) as Hcontra; [|congruence].
    apply existsb_exists. exists hand. split; [by apply list_elem_of_In|].
    by apply negb_true_iff, bool_decide_eq_false.
Qed.

(** C1 (amended). [calculateWinRate] checks none of its preconditions; the
    checks are the caller's.  In every state the card handlers can reach,
    the recompute effect runs the engine only when hero holds exactly two
    cards and every known opponent exactly two, and then no card is repeated
    across hero, board and opponents; otherwise the run is blocked.  A card
    that would repeat an assigned one is refused by the entry handlers, which
    leave the cards as they were.  More known opponents than
    [numPlayers - 1] are not rejected: the engine then draws no unknown
    opponent. *)
Theorem caller_guards_engine (random : nat → nat) (st : App.State) :
  App.reachable st →
  (∀ outcome, App.recompute random st = Some outcome →
     outcome = calculateWinRate random (App.engine_params st)
     ∧ length (hero (App.engine_params st)) = 2%nat
     ∧ Forall (fun hand => length hand = 2%nat) (knownOpponents (App.engine_params st))
     ∧ NoDup (known_cards (App.engine_params st)))
  ∧ (length (App.compactCards (App.heroCards st)) ≠ 2%nat
     ∨ Exists (fun hand => length (App.compactCards hand) ≠ 2%nat) (App.knownOpponents st) →
     App.recompute random st = None)
  ∧ (∀ index card,
       ((App.handleHeroSet st index card).1 = false
        ↔ ¬ NoDup (App.compactCards (App.assign (App.heroCards st) index (Some card))
                   ++ App.compactCards (App.boardCards st)
                   ++ concat (App.compactCards <$> App.knownOpponents st)))
       ∧ ((App.handleHeroSet st index card).1 = false →
          App.allCards (App.handleHeroSet st index card).2 = App.allCards st))
  ∧ (∀ index card,
       ((App.handleBoardSet st index card).1 = false
        ↔ ¬ NoDup (App.compactCards (App.heroCards st)
                   ++ App.compactCards (App.assign (App.boardCards st) index (Some card))
                   ++ concat (App.compactCards <$> App.knownOpponents st)))
       ∧ ((App.handleBoardSet st index card).1 = false →
          App.allCards (App.handleBoardSet st index card).2 = App.allCards st))
  ∧ (∀ p, numPlayers p - 1 < Z.of_nat (length (knownOpponents p)) →
       unknownOpponentsCount p = 0).
Proof.
  intros Hreach. split_and!.
  - intros outcome. unfold App.recompute.
    destruct (App.canCalculate st) eqn:Hcan; [|done]. intros [= <-].
    apply canCalculate_spec in Hcan as [Hhero Hknown].
    split_and!; [done | done | by apply Forall_fmap | by apply reachable_NoDup].
  - intros Hbad. unfold App.recompute.
    destruct (App.canCalculate st) eqn:Hcan; [|done].
    apply canCalculate_spec in Hcan as [Hhero Hknown].
    destruct Hbad as [?|Hbad]; [done|].
    apply Exists_exists in Hbad as (hand & Hin & Hne).
    rewrite Forall_forall in Hknown. destruct Hne. by apply Hknown.
  - intros index card. unfold App.handleHeroSet.
    destruct (App.hasDuplicate _) eqn:Hdup; simpl.
    + split; [|done]. split; [|done]. intros _ Hnd%hasDuplicate_spec. congruence.
    + split; [|done]. split; [done|]. intros Hnd. by apply hasDuplicate_spec in Hdup.
  - intros index card. unfold App.handleBoardSet.
    destruct (App.hasDuplicate _) eqn:Hdup; simpl.
    + split; [|done]. split; [|done]. intros _ Hnd%hasDuplicate_spec. congruence.
    + split; [|done]. split; [done|]. intros Hnd. by apply hasDuplicate_spec in Hdup.
  - intros p Hmany. unfold unknownOpponentsCount. lia.
Qed.

Lemma caller_guards_engine_witness :
  App.reachable (App.handleHeroSet App.initial 0 (mkCard RA SuitS)).2
  ∧ App.recompute (fun _ => 0%nat) (App.handleHeroSet App.initial 0 (mkCard RA SuitS)).2 = None
  ∧ (App.handleHeroSet (App.handleHeroSet App.initial 0 (mkCard RA SuitS)).2 1 (mkCard RA SuitS)).1
    = false.
Proof.
  assert (App.reachable (App.handleHeroSet App.initial 0 (mkCard RA SuitS)).2) as Hreach.
  { apply App.reach_hero_set, App.reach_initial. }
  split; [exact Hreach|].
  split; [|by vm_compute].
  apply (caller_guards_engine (fun _ => 0%nat) _ Hreach).
  left. by vm_compute.
Defined.

(** The engine runs on inputs that violate the preconditions: a card held
    twice, more known opponents than [numPlayers - 1], a hero hand of three
    cards. *)
Lemma engine_accepts_invalid_input :
  (¬ NoDup (known_cards duplicate_params)
   ∧ calculateWinRate (fun _ => 0%nat) duplicate_params
     = Some (mkResult (ddiv (double_of_nat 1) (double_of_nat 2)) 1))
  ∧ (numPlayers overfull_params - 1 < Z.of_nat (length (knownOpponents overfull_params))
     ∧ calculateWinRate (fun _ => 0%nat) overfull_params
       = Some (mkResult (ddiv (double_of_nat 1) (double_of_nat 3)) 1))
  ∧ (length (hero three_card_hero_params) ≠ 2%nat
     ∧ calculateWinRate (fun _ => 0%nat) three_card_hero_params
       = Some (mkResult (double_of_nat 0) 1)).
Proof.
  split_and!; try by vm_compute.
  intros Hnd. apply (bool_decide_pack _) in Hnd. by vm_compute in Hnd.
Qed.

(* ================================================================== *)
(** * Further properties of the engine *)
(* ================================================================== *)

(** ** The evaluators *)

(** X1. [evaluate5] does not depend on the order in which the cards are
    given. *)
Theorem evaluate5_order_invariant (cards cards' : list Card) :
  cards ≡ₚ cards' → evaluate5 cards = evaluate5 cards'.
Proof. apply evaluate5_perm. Qed.

Lemma evaluate5_order_invariant_witness :
  full_house_hand ≡ₚ reverse full_house_hand
  ∧ evaluate5 full_house_hand = evaluate5 (reverse full_house_hand).
Proof.
  assert (full_house_hand ≡ₚ reverse full_house_hand) as Hperm.
  { symmetry. apply reverse_Permutation. }
  split; [exact Hperm|]. exact (evaluate5_order_invariant _ _ Hperm).
Defined.

Lemma members_table : forall_hands check_members = true.
Proof. vm_cast_no_check (eq_refl true). Qed.

(** X2. The descriptor of five distinct cards starts with a category from 0
    to 8, and each of its tie-break values is the rank of one of the five
    cards (so lies between 2 and 14). *)
Theorem evaluate5_descriptor_values (cards : list Card) :
  length cards = 5%nat → NoDup cards →
  ∃ r, evaluate5 cards = Some r
       ∧ 0 ≤ pad r 0 ≤ 8
       ∧ Forall (fun v => v ∈ values cards ∧ 2 ≤ v ≤ 14) (drop 1 r).
Proof.
  intros Hlen Hnd.
  destruct (canonical_hand cards Hlen) as (rs & Hlen' & Hsorted & Hperm & Halike & Heval).
  pose proof (descending_Sorted _ Hsorted) as Hdesc.
  pose proof (forall_hands_spec _ members_table rs (all_same_suit cards) Hlen') as Hcheck.
  unfold check_members in Hcheck. cbv zeta in Hcheck.
  rewrite Hdesc, (Halike Hnd) in Hcheck. simpl negb in Hcheck. cbv iota in Hcheck.
  rewrite <- Heval in Hcheck.
  destruct (evaluate5 cards) as [r|]; [|done].
  apply andb_prop in Hcheck as [Hcat Hmem]. apply bool_decide_eq_true in Hcat.
  exists r. split_and!; [done | lia | lia |].
  assert (RANK_VALUE <$> rs ≡ₚ values cards) as Hvals.
  { change (values cards) with (RANK_VALUE ∘ rank <$> cards).
    by rewrite list_fmap_compose, Hperm. }
  apply Forall_forall. intros v Hv.
  rewrite forallb_forall in Hmem.
  apply list_elem_of_In, Hmem, bool_decide_eq_true in Hv. rewrite Hvals in Hv.
  split; [done|]. unfold values in Hv. apply list_elem_of_fmap in Hv as (card & -> & _).
  destruct card as [[] ?]; simpl; lia.
Qed.

Lemma evaluate5_descriptor_values_witness :
  ∃ r, evaluate5 full_house_hand = Some r
       ∧ 0 ≤ pad r 0 ≤ 8
       ∧ Forall (fun v => v ∈ values full_house_hand ∧ 2 ≤ v ≤ 14) (drop 1 r).
Proof.
  apply evaluate5_descriptor_values; [reflexivity|].
  apply (bool_decide_unpack _). vm_compute. exact I.
Defined.

Lemma fold_best_None (hands : list (list (option Card))) : ∀ best,
  (best = None ∨ ∃ h, h ∈ hands ∧ evaluate5_holes h = None) →
  foldl (fun best hand =>
           best ← best;
           r ← evaluate5_holes hand;
           Some (if decide (compareRanks r best > 0) then r else best))
        best hands = None.
Proof.
  induction hands as [|h hands IH]; intros best Hbad; simpl.
  - destruct Hbad as [?|(h & []%elem_of_nil & _)]. done.
  - apply IH. destruct Hbad as [->|(h' & [->|Hin]%elem_of_cons & Hh')].
    + by left.
    + left. rewrite Hh'. by destruct best.
    + right. by exists h'.
Qed.

Lemma best_hand_None hands h :
  h ∈ hands → evaluate5_holes h = None → best_hand hands = None.
Proof.
  intros Hin Hh. unfold best_hand. destruct hands as [|h0 rest]; [done|]. simpl.
  apply elem_of_cons in Hin as [->|Hin]; [by rewrite Hh|].
  destruct (evaluate5_holes h0) as [first|]; [|done]. simpl. rewrite drop_0.
  apply fold_best_None. right. by exists h.
Qed.

(** X3. Given fewer than seven entries [evaluate7] throws, whatever the
    cards: its table of index tuples reaches index 6. *)
Theorem evaluate7_needs_seven (cards : list (option Card)) :
  (length cards < 7)%nat → evaluate7 cards = None.
Proof.
  intros Hlen. unfold evaluate7. rewrite best_of_best_hand.
  apply (best_hand_None _ (pick cards [2; 3; 4; 5; 6]%nat)).
  - apply list_elem_of_fmap_2. apply (bool_decide_unpack _). by vm_compute.
  - unfold evaluate5_holes. rewrite (mapM_None_2 id); [done|].
    apply Exists_exists. exists None. split; [|done].
    unfold pick. apply list_elem_of_fmap. exists 6%nat. split; [|set_solver].
    by rewrite lookup_ge_None_2 by lia.
Qed.

Lemma evaluate7_needs_seven_witness :
  (length (Some <$> take 6 quad_deuces_seven) < 7)%nat
  ∧ evaluate7 (Some <$> take 6 quad_deuces_seven) = None.
Proof.
  assert (length (Some <$> take 6 quad_deuces_seven) < 7)%nat as Hlen by (simpl; lia).
  split; [exact Hlen|]. exact (evaluate7_needs_seven _ Hlen).
Defined.

(** X4. [evaluate7] looks at the first seven entries only: further cards
    never change the result. *)
Theorem evaluate7_first_seven (cards : list (option Card)) :
  evaluate7 cards = evaluate7 (take 7 cards).
Proof.
  unfold evaluate7. rewrite !best_of_best_hand. f_equal.
  apply list_fmap_ext. intros _ combo Hcombo%list_elem_of_lookup_2.
  assert (Forall (fun idx => idx < 7)%nat combo) as Hidx.
  { assert (Forall (Forall (fun idx => idx < 7)%nat) COMBOS_7_5) as Hall.
    { apply (bool_decide_unpack _). by vm_compute. }
    rewrite Forall_forall in Hall. by apply Hall. }
  unfold pick. apply list_fmap_ext. intros _ idx Hin%list_elem_of_lookup_2.
  rewrite Forall_forall in Hidx. by rewrite lookup_take_lt by (by apply Hidx).
Qed.

(** ** Combination tables *)

Lemma backtrack_subsets k : ∀ avail combo,
  backtrack k avail combo = (fun rest => combo ++ rest) <$> subsets k avail.
Proof.
  induction k as [|k IHk]; intros avail combo.
  - destruct avail; simpl; by rewrite app_nil_r.
  - induction avail as [|i rest IHrest]; [done|].
    change (backtrack (S k) (i :: rest) combo)
      with (backtrack k rest (combo ++ [i]) ++ backtrack (S k) rest combo).
    rewrite IHk, IHrest. simpl subsets.
    rewrite fmap_app, <- list_fmap_compose. f_equal.
    apply list_fmap_ext. intros _ tail _. simpl. by rewrite <- app_assoc.
Qed.

Lemma getCombos_subsets n : getCombos n = subsets 5 (seq 0 n).
Proof.
  unfold getCombos. case_decide as H7; [by subst|].
  rewrite backtrack_subsets. apply list_fmap_id.
Qed.

Lemma length_subsets {A} k (l : list A) : length (subsets k l) = choose (length l) k.
Proof.
  revert k. induction l as [|x l IH]; intros [|k]; simpl; try done.
  by rewrite length_app, length_fmap, !IH.
Qed.

Lemma NoDup_subsets {A} k (l : list A) : NoDup l → NoDup (subsets k l).
Proof.
  intros Hnd. revert k. induction Hnd as [|x l Hx Hnd IH]; intros [|k]; simpl.
  - apply NoDup_singleton.
  - constructor.
  - apply NoDup_singleton.
  - apply NoDup_app. split_and!.
    + apply NoDup_fmap_2; [|apply IH]. by intros ?? [= ?].
    + intros s (s' & -> & _)%list_elem_of_fmap [Hsub _]%elem_of_subsets.
      apply Hx. eapply elem_of_sublist; [|exact Hsub]. left.
    + apply IH.
Qed.

(** X5. [getCombos(n)] lists every increasing 5-tuple of indices below [n]
    exactly once: its entries are the 5-element sub-sequences of
    [0 .. n-1], none repeated, [n] choose 5 in number (21 for seven cards,
    none below five). *)
Theorem getCombos_enumerates (n : nat) :
  (∀ combo, combo ∈ getCombos n ↔ combo `sublist_of` seq 0 n ∧ length combo = 5%nat)
  ∧ NoDup (getCombos n)
  ∧ length (getCombos n) = choose n 5
  ∧ choose 7 5 = 21%nat
  ∧ ((n < 5)%nat → getCombos n = []).
Proof.
  rewrite getCombos_subsets. split_and!.
  - intros combo. apply elem_of_subsets.
  - apply NoDup_subsets, NoDup_seq.
  - by rewrite length_subsets, length_seq.
  - reflexivity.
  - intros Hn. destruct (subsets 5 (seq 0 n)) as [|combo rest] eqn:Hs; [done|].
    assert (combo ∈ subsets 5 (seq 0 n)) as Hin by (rewrite Hs; left).
    apply elem_of_subsets in Hin as [Hsub Hlen].
    apply sublist_length in Hsub. rewrite length_seq in Hsub. lia.
Qed.

(** X6. The cache of [getCombos] is transparent: with a cache filled by
    earlier calls only, a call returns the table of the uncached function,
    and repeating the call returns the same table and leaves the cache as it
    is. *)
Theorem getCombos_memo_stable (cache : gmap nat (list (list nat))) (n : nat) :
  cache_coherent cache →
  (getCombos_memo cache n).1 = getCombos n
  ∧ getCombos_memo (getCombos_memo cache n).2 n = getCombos_memo cache n
  ∧ cache_coherent (getCombos_memo cache n).2.
Proof.
  intros Hcache.
  destruct (getCombos_memo_transparent cache n Hcache) as [Htable Hnext].
  split_and!; [done | | done].
  unfold getCombos_memo. case_decide as H7; [done|].
  destruct (cache !! n) as [cached|] eqn:Hhit; simpl.
  - by rewrite Hhit.
  - by rewrite lookup_insert_eq.
Qed.

Lemma getCombos_memo_stable_witness :
  (getCombos_memo ∅ 6).1 = getCombos 6
  ∧ getCombos_memo (getCombos_memo ∅ 6).2 6 = getCombos_memo ∅ 6
  ∧ cache_coherent (getCombos_memo ∅ 6).2.
Proof. exact (getCombos_memo_stable ∅ 6 cache_coherent_empty). Defined.

(** ** Comparator *)

Lemma pad_trailing_zeros a n i : pad (a ++ replicate n 0) i = pad a i.
Proof.
  unfold pad. destruct (decide (i < length a)%nat) as [Hi|Hi].
  - by rewrite lookup_app_l.
  - rewrite lookup_app_r, (lookup_ge_None_2 a) by lia. simpl.
    destruct (replicate n 0 !! (i - length a)%nat) as [x|] eqn:Hx; [|done].
    by apply lookup_replicate in Hx as [-> _].
Qed.

(** X7. Trailing zeros never matter to [compareRanks]: padding either
    argument with zeros leaves the result unchanged, so two arrays that
    differ only in trailing zeros compare as equal. *)
Theorem compareRanks_trailing_zeros (a b : list Z) (n m : nat) :
  compareRanks (a ++ replicate n 0) (b ++ replicate m 0) = compareRanks a b
  ∧ compareRanks a (a ++ replicate n 0) = 0.
Proof.
  assert (∀ a b n m, compareRanks (a ++ replicate n 0) (b ++ replicate m 0) = compareRanks a b)
    as Hpad.
  { clear. intros a b n m.
    eapply lex_result_unique; [apply compareRanks_lex|].
    destruct (compareRanks_lex a b) as [[-> Heq]|(i & Hlt & Hne & ->)].
    - left. split; [done|]. intros i. by rewrite !pad_trailing_zeros.
    - right. exists i. rewrite !pad_trailing_zeros. split_and!; [|done|done].
      intros j Hj. rewrite !pad_trailing_zeros. by apply Hlt. }
  split; [apply Hpad|].
  rewrite <- (app_nil_r a) at 1. change [] with (replicate 0 0).
  rewrite Hpad. apply compareRanks_refl.
Qed.

(** ** Deck *)

(** X8. [createDeck] depends on the set of excluded cards only: repeated or
    reordered exclusions give the same deck; the deck has 52 minus the number
    of distinct excluded cards; and every card is in the deck or excluded,
    never both. *)
Theorem createDeck_by_set :
  (∀ e1 e2, (∀ card, card ∈ e1 ↔ card ∈ e2) → createDeck e1 = createDeck e2)
  ∧ (∀ exclude, length (createDeck exclude) = (52 - length (remove_dups exclude))%nat)
  ∧ (∀ exclude card, (card ∈ createDeck exclude ∨ card ∈ exclude)
                     ∧ ¬ (card ∈ createDeck exclude ∧ card ∈ exclude)).
Proof.
  assert (∀ e1 e2, (∀ card, card ∈ e1 ↔ card ∈ e2) → createDeck e1 = createDeck e2) as Hset.
  { intros e1 e2 Hsame. rewrite !createDeck_filter. apply list_filter_iff.
    intros card. by rewrite Hsame. }
  split_and!; [done | |].
  - intros exclude. rewrite (Hset exclude (remove_dups exclude)).
    + apply length_createDeck, NoDup_remove_dups.
    + intros card. by rewrite elem_of_remove_dups.
  - intros exclude card. rewrite createDeck_elem.
    destruct (decide (card ∈ exclude)); split; tauto.
Qed.

(** ** Draws *)

(** X9. [drawRandom] takes exactly one card out of a non-empty deck and
    returns it: the deck it leaves is the old one without that card, one
    shorter and in the same order.  From an empty deck it returns
    [undefined] and the deck stays empty.  Either way it uses one random
    number. *)
Theorem drawRandom_takes_one (random : nat → nat) (deck : list Card) (k : nat) :
  (deck = [] → drawRandom random deck k = (None, [], S k))
  ∧ (deck ≠ [] →
     ∃ card deck',
       drawRandom random deck k = (Some card, deck', S k)
       ∧ card ∈ deck
       ∧ deck ≡ₚ card :: deck'
       ∧ deck' `sublist_of` deck
       ∧ length deck = S (length deck')).
Proof.
  split.
  - by intros ->.
  - intros Hne.
    destruct (drawRandom_spec random deck k) as (card & deck' & Hdraw & Hperm).
    { destruct deck; [done | simpl; lia]. }
    exists card, deck'. split_and!; [done | | done | |].
    + rewrite Hperm. left.
    + unfold drawRandom in Hdraw. injection Hdraw as _ <-. apply sublist_delete.
    + by rewrite Hperm.
Qed.

(** ** Equity *)

(** *** Rounding never passes a bound on the grid *)


Lemma pow2_pos a : 0 ≤ a → 0 < 2 ^ a.
Proof. intros. by apply Z.pow_pos_nonneg. Qed.

Lemma bits_le_53 p : Zpos p < 2 ^ 53 → bits p ≤ 53.
Proof.
  intros Hp. pose proof (bits_spec p) as [Hlo _]. pose proof (bits_pos p).
  destruct (Z_le_gt_dec (bits p) 53) as [?|Hgt]; [done|].
  assert (2 ^ 53 ≤ 2 ^ (bits p - 1)) by (apply Z.pow_le_mono_r; lia). lia.
Qed.

Lemma bits_mono p q : Zpos p ≤ Zpos q → bits p ≤ bits q.
Proof.
  intros Hle. pose proof (bits_spec p) as [Hlo _]. pose proof (bits_spec q) as [_ Hhi].
  pose proof (bits_pos p). pose proof (bits_pos q).
  destruct (Z_le_gt_dec (bits p) (bits q)) as [?|Hgt]; [done|].
  assert (2 ^ bits q ≤ 2 ^ (bits p - 1)) by (apply Z.pow_le_mono_r; lia). lia.
Qed.

Lemma loc_of_record_of_loc m l : loc_of_shr_record (shr_record_of_loc m l) = l.
Proof. by destruct l as [|[]]. Qed.

Lemma shr_m_record_of_loc m l : shr_m (shr_record_of_loc m l) = m.
Proof. by destruct l as [|[]]. Qed.

Lemma shr_1_sem r :
  0 ≤ shr_m r →
  shr_m (shr_1 r) = shr_m r / 2
  ∧ (loc_of_shr_record (shr_1 r) = loc_Exact
     ↔ loc_of_shr_record r = loc_Exact ∧ shr_m r mod 2 = 0).
Proof.
  destruct r as [m rb sb]. simpl. intros Hm.
  destruct m as [|[p|p|]|p]; try lia; simpl shr_m.
  - split; [done|]. destruct rb, sb; simpl; split; try done; by intros [? ?].
  - split; [rewrite Pos2Z.inj_xI; apply Z.div_unique with 1; lia|].
    rewrite Pos2Z.inj_xI. replace ((2 * Zpos p + 1) mod 2) with 1
      by (apply Z.mod_unique with (Zpos p); lia).
    destruct rb, sb; simpl; split; try done; by intros [? ?].
  - split; [rewrite Pos2Z.inj_xO; apply Z.div_unique with 0; lia|].
    rewrite Pos2Z.inj_xO. replace ((2 * Zpos p) mod 2) with 0
      by (apply Z.mod_unique with (Zpos p); lia).
    destruct rb, sb; simpl; split; try done; by intros [? ?].
  - split; [done|]. destruct rb, sb; simpl; split; try done; by intros [? ?].
Qed.

Lemma shr_iter_sem j : ∀ r,
  0 ≤ shr_m r →
  shr_m (SpecFloat.iter_pos shr_1 j r) = shr_m r / 2 ^ Zpos j
  ∧ (loc_of_shr_record (SpecFloat.iter_pos shr_1 j r) = loc_Exact
     ↔ loc_of_shr_record r = loc_Exact ∧ shr_m r mod 2 ^ Zpos j = 0).
Proof.
  induction j as [|j IH] using Pos.peano_ind; intros r Hr.
  - change (SpecFloat.iter_pos shr_1 1 r) with (shr_1 r). change (2 ^ 1) with 2.
    by apply shr_1_sem.
  - rewrite iter_pos_iter, Pos.iter_succ, <- iter_pos_iter.
    destruct (IH r Hr) as [Hm Hloc].
    assert (0 ≤ shr_m (SpecFloat.iter_pos shr_1 j r)) as Hpos.
    { rewrite Hm. apply Z.div_pos; [done | by apply pow2_pos]. }
    destruct (shr_1_sem _ Hpos) as [Hm' Hloc'].
    rewrite Pos2Z.inj_succ, Z.pow_succ_r by lia.
    pose proof (pow2_pos (Zpos j) ltac:(lia)) as Hpow.
    split.
    + rewrite Hm', Hm, Z.div_div by lia. f_equal. lia.
    + rewrite Hloc', Hloc, Hm.
      rewrite (Z.mul_comm 2), Z.rem_mul_r by lia.
      pose proof (Z.mod_pos_bound (shr_m r) (2 ^ Zpos j) Hpow).
      pose proof (Z.mod_pos_bound (shr_m r / 2 ^ Zpos j) 2 ltac:(lia)).
      split.
      * intros [[? ?] ?]. split; [done | nia].
      * intros [? ?]. split; [split; [done | nia] | nia].
Qed.

Lemma round_nearest_even_bounds m l :
  m ≤ round_nearest_even m l ≤ m + 1 ∧ (l = loc_Exact → round_nearest_even m l = m).
Proof.
  destruct l as [|[]]; simpl; try (split; [lia | done]).
  destruct (Z.even m); split; try lia; done.
Qed.

Lemma shr_sem r e sh :
  0 ≤ sh → 0 ≤ shr_m r →
  (shr r e sh).2 = e + sh
  ∧ shr_m (shr r e sh).1 = shr_m r / 2 ^ sh
  ∧ (loc_of_shr_record (shr r e sh).1 = loc_Exact
     ↔ loc_of_shr_record r = loc_Exact ∧ shr_m r mod 2 ^ sh = 0).
Proof.
  intros Hsh Hr. destruct sh as [|j|j]; [| |lia]; simpl.
  - rewrite Z.add_0_r, Z.div_1_r, Z.mod_1_r. split_and!; [done | done |]. split; [done | by intros [? _]].
  - split; [done|]. change (Z.pow_pos 2 j) with (2 ^ Zpos j). by apply shr_iter_sem.
Qed.

(** Rounding does not go above a bound that is itself on the grid. *)
Lemma binary_round_aux_le q e lx T :
  53 ≤ bits q →
  -1074 ≤ e + (bits q - 53) ≤ 970 →
  match lx with
  | loc_Exact => Zpos q ≤ T * 2 ^ (bits q - 53)
  | _ => Zpos q + 1 ≤ T * 2 ^ (bits q - 53)
  end →
  ∃ m3 e3,
    binary_round_aux 53 1024 false (Zpos q) e lx = S754_finite false m3 e3
    ∧ bits m3 = 53
    ∧ e + (bits q - 53) ≤ e3 ≤ e + (bits q - 53) + 1
    ∧ Zpos m3 * 2 ^ (e3 - (e + (bits q - 53))) ≤ T.
Proof.
  intros Hbits He HT. set (sh := bits q - 53) in *. set (e1 := e + sh) in *.
  assert (0 ≤ sh) as Hsh by (unfold sh; lia).
  pose proof (pow2_pos sh Hsh) as Hpow.
  unfold binary_round_aux, shr_fexp. cbv [fexp emin Zdigits2].
  change (Zpos (digits2_pos q)) with (bits q).
  replace (Z.max (bits q + e - 53) (3 - 1024 - 53) - e) with sh by (unfold sh; lia).
  destruct (shr_sem (shr_record_of_loc (Zpos q) lx) e sh Hsh) as (He' & Hm1 & Hl1).
  { by rewrite shr_m_record_of_loc. }
  rewrite shr_m_record_of_loc, loc_of_record_of_loc in *.
  destruct (shr (shr_record_of_loc (Zpos q) lx) e sh) as [mrs' e']. simpl in He', Hm1, Hl1.
  subst e'. fold e1.
  set (m1 := shr_m mrs') in *. set (l1 := loc_of_shr_record mrs') in *.
  pose proof (bits_spec q) as [Hlo Hhi].
  assert (2 ^ 52 ≤ m1 < 2 ^ 53) as [Hm1lo Hm1hi].
  { rewrite Hm1. split.
    - apply Z.div_le_lower_bound; [done|].
      rewrite <- Z.pow_add_r by lia. replace (sh + 52) with (bits q - 1) by (unfold sh; lia). done.
    - apply Z.div_lt_upper_bound; [done|].
      rewrite <- Z.pow_add_r by lia. replace (sh + 53) with (bits q) by (unfold sh; lia). done. }
  destruct (round_nearest_even_bounds m1 l1) as [[Hm2lo Hm2hi] Hexact].
  set (m2 := round_nearest_even m1 l1) in *.
  assert (m2 ≤ T) as Hm2T.
  { destruct l1 as [|c] eqn:Hl1eq.
    - rewrite Hexact by done. destruct Hl1 as [[-> _] _]; [done|].
      rewrite Hm1. apply Z.div_le_upper_bound; [done | lia].
    - assert (Zpos q < T * 2 ^ sh) as Hlt.
      { destruct lx as [|c']; [|lia].
        destruct (decide (Zpos q = T * 2 ^ sh)) as [Heq|?]; [|lia].
        assert (loc_Inexact c = loc_Exact) as [=]. apply Hl1. split; [done|].
        rewrite Heq. by apply Z.mod_mul, Z.neq_sym, Z.lt_neq. }
      assert (m1 < T); [|lia]. rewrite Hm1. apply Z.div_lt_upper_bound; [done | lia]. }
  destruct (decide (m2 = 9007199254740992)) as [Hmax|Hmax].
  - rewrite Hmax. exists 4503599627370496%positive, (e1 + 1).
    change (Zpos (digits2_pos 9007199254740992)) with 54. cbv [shr_record_of_loc].
    replace (Z.max (54 + e1 - 53) (3 - 1024 - 53) - e1) with 1 by lia.
    cbv [shr SpecFloat.iter_pos shr_1 shr_m].
    destruct (Z.leb_spec (e1 + 1) (1024 - 53)); [|lia].
    split_and!; [done | done | lia | lia |].
    replace (e1 + 1 - e1) with 1 by lia. rewrite Hmax in Hm2T. lia.
  - destruct m2 as [|p2|p2] eqn:Hm2; [lia | | lia].
    assert (bits p2 = 53) as Hb2 by (apply bits_unique; lia).
    exists p2, e1. cbv [Zdigits2 shr_record_of_loc].
    change (Zpos (digits2_pos p2)) with (bits p2). rewrite Hb2.
    replace (Z.max (53 + e1 - 53) (3 - 1024 - 53) - e1) with 0 by lia.
    cbv [shr shr_m].
    destruct (Z.leb_spec e1 (1024 - 53)); [|lia].
    split_and!; [done | done | lia | lia |].
    replace (e1 - e1) with 0 by lia. lia.
Qed.

Lemma binary_round_le M E T :
  -1074 ≤ bits M + E - 53 ≤ 970 →
  (if decide (bits M + E - 53 ≤ E) then Zpos M * 2 ^ (E - (bits M + E - 53)) ≤ T
   else Zpos M ≤ T * 2 ^ (bits M + E - 53 - E)) →
  ∃ m3 e3,
    binary_round 53 1024 false M E = S754_finite false m3 e3
    ∧ bits m3 = 53
    ∧ bits M + E - 53 ≤ e3 ≤ bits M + E - 53 + 1
    ∧ Zpos m3 * 2 ^ (e3 - (bits M + E - 53)) ≤ T.
Proof.
  intros He HT. set (e1 := bits M + E - 53) in *.
  unfold binary_round. cbv [fexp emin].
  change (Zpos (digits2_pos M)) with (bits M).
  replace (Z.max (bits M + E - 53) (3 - 1024 - 53)) with e1 by (unfold e1; lia).
  unfold shl_align. destruct (e1 - E) as [|j|j] eqn:Hj.
  - rewrite decide_True in HT by lia.
    replace (E - e1) with 0 in HT by lia.
    destruct (binary_round_aux_le M E loc_Exact T) as (m3 & e3 & Hr & Hb & He3 & Hv).
    { unfold e1 in *. lia. } { unfold e1 in *. lia. }
    { replace (bits M - 53) with 0 by (unfold e1 in *; lia). lia. }
    exists m3, e3. replace (E + (bits M - 53)) with e1 in * by (unfold e1; lia). split_and!; (done || lia).
  - rewrite decide_False in HT by lia.
    destruct (binary_round_aux_le M E loc_Exact T) as (m3 & e3 & Hr & Hb & He3 & Hv).
    { unfold e1 in *. lia. } { unfold e1 in *. lia. }
    { replace (bits M - 53) with (Zpos j) by (unfold e1 in *; lia). done. }
    exists m3, e3. replace (E + (bits M - 53)) with e1 in * by (unfold e1; lia). split_and!; (done || lia).
  - rewrite decide_True in HT by lia.
    pose proof (bits_shift M j) as Hbs. pose proof (shift_pos M j) as Hsp.
    destruct (binary_round_aux_le (Pos.iter xO M j) e1 loc_Exact T) as (m3 & e3 & Hr & Hb & He3 & Hv).
    { rewrite Hbs. unfold e1 in *. lia. } { rewrite Hbs. unfold e1 in *. lia. }
    { rewrite Hbs. replace (bits M + Zpos j - 53) with 0 by (unfold e1 in *; lia).
      rewrite Hsp. replace (Zpos j) with (E - e1) by lia. lia. }
    exists m3, e3. rewrite Hbs in *.
    replace (e1 + (bits M + Zpos j - 53)) with e1 in * by (unfold e1 in *; lia). split_and!; (done || lia).
Qed.

Lemma at_most_mono x K K' : K ≤ K' → at_most x K → at_most x K'.
Proof.
  intros HK [->|(m & e & -> & Hb & He & Hv)]; [by left|].
  right. exists m, e. split_and!; [done | done | lia | lia |].
  pose proof (pow2_pos 200 ltac:(lia)). nia.
Qed.

Lemma shl_align_fst m e ez :
  ez ≤ e →
  Zpos (shl_align m e ez).1 = Zpos m * 2 ^ (e - ez)
  ∧ bits (shl_align m e ez).1 = bits m + (e - ez).
Proof.
  intros Hle. unfold shl_align. destruct (ez - e) as [|d|d] eqn:Hd; simpl fst.
  - replace (e - ez) with 0 by lia. rewrite Z.pow_0_r. lia.
  - lia.
  - rewrite shift_pos, bits_shift. replace (e - ez) with (Zpos d) by lia. done.
Qed.

Lemma pow2_le_inv a b : 0 ≤ b → 2 ^ a ≤ 2 ^ b → a ≤ b.
Proof.
  intros Hb Hle. destruct (Z_le_gt_dec a b) as [?|Hgt]; [done|].
  assert (2 ^ b < 2 ^ a) by (apply Z.pow_lt_mono_r; lia). lia.
Qed.


Lemma at_most_exponent m e K :
  bits m = 53 → -200 ≤ e → 0 ≤ K → Zpos m * 2 ^ (e + 200) ≤ 2 ^ K * 2 ^ 200 → e ≤ K - 52.
Proof.
  intros Hb He HK Hv. pose proof (bits_spec m) as [Hlo _]. rewrite Hb in Hlo.
  change (2 ^ (53 - 1)) with (2 ^ 52) in Hlo.
  pose proof (pow2_pos (e + 200) ltac:(lia)) as Hpow.
  assert (2 ^ (52 + (e + 200)) ≤ 2 ^ (K + 200)) as Hle.
  { rewrite (Z.pow_add_r 2 52), (Z.pow_add_r 2 K) by lia.
    etrans; [|exact Hv]. apply Z.mul_le_mono_nonneg_r; lia. }
  apply pow2_le_inv in Hle; lia.
Qed.

Lemma dadd_at_most x c K :
  at_most x K → at_most c 1 → 0 ≤ K → K + 1 ≤ 2 ^ 53 →
  at_most (dadd x c) (K + 1).
Proof.
  intros Hx Hc HK HK1.
  destruct Hx as [->|(mx & ex & -> & Hbx & Hex & Hvx)].
  { destruct Hc as [->|(mc & ec & -> & Hc)]; [by left|].
    apply (at_most_mono _ 1); [lia|]. right. by exists mc, ec. }
  destruct Hc as [->|(mc & ec & -> & Hbc & Hec & Hvc)].
  { apply (at_most_mono _ K); [lia|]. right. by exists mx, ex. }
  assert (ec ≤ -52) as Hec52.
  { replace (-52) with (0 - 52) by lia. apply (at_most_exponent mc); [done | lia | lia |].
    by rewrite Z.pow_0_r. }
  unfold dadd, SFadd. set (ez := Z.min ex ec).
  destruct (shl_align_fst mx ex ez) as [Hax Hbax]; [lia|].
  destruct (shl_align_fst mc ec ez) as [Hac Hbac]; [lia|].
  set (ax := (shl_align mx ex ez).1) in *. set (ac := (shl_align mc ec ez).1) in *.
  unfold cond_Zopp. change (Zpos ax + Zpos ac) with (Zpos (ax + ac)).
  unfold binary_normalize. set (M := (ax + ac)%positive).
  assert (Zpos M = Zpos ax + Zpos ac) as HM by (unfold M; lia).
  set (z := ez + 200). assert (0 ≤ z) as Hz by (unfold z, ez; lia).
  pose proof (pow2_pos z Hz) as Hpz.
  pose proof (pow2_pos 200 ltac:(lia)) as Hp200.
  assert (Zpos M * 2 ^ z = Zpos mx * 2 ^ (ex + 200) + Zpos mc * 2 ^ (ec + 200)) as HMz.
  { rewrite HM, Hax, Hac.
    replace (ex + 200) with ((ex - ez) + z) by (unfold z; lia).
    replace (ec + 200) with ((ec - ez) + z) by (unfold z; lia).
    rewrite !Z.pow_add_r by (unfold ez; lia). lia. }
  assert (Zpos M * 2 ^ z ≤ (K + 1) * 2 ^ 200) as HMv by lia.
  set (e1 := bits M + ez - 53).
  assert (ex ≤ e1) as He1lo.
  { assert (bits ax ≤ bits M) by (apply bits_mono; lia). unfold e1. lia. }
  pose proof (bits_spec M) as [HMlo _].
  assert (e1 ≤ 1) as He1hi.
  { assert (2 ^ (bits M - 1 + z) ≤ 2 ^ 253) as Hle.
    { rewrite Z.pow_add_r by (pose proof (bits_pos M); lia).
      change (2 ^ 253) with (2 ^ 53 * 2 ^ 200).
      etrans; [apply Z.mul_le_mono_nonneg_r; [lia | exact HMlo]|].
      etrans; [exact HMv|]. apply Z.mul_le_mono_nonneg_r; lia. }
    apply pow2_le_inv in Hle; [|lia]. unfold e1, z in *. lia. }
  assert (ez ≤ 0) as Hez0 by (unfold ez; lia).
  assert (2 ^ 200 = 2 ^ (- ez) * 2 ^ z) as H200.
  { rewrite <- Z.pow_add_r by lia. f_equal. unfold z. lia. }
  set (T := if decide (e1 ≤ 0) then (K + 1) * 2 ^ (- e1) else 2 ^ 52).
  assert (Zpos M ≤ T * 2 ^ (e1 - ez)) as HMT.
  { unfold T. case_decide as He10.
    - rewrite <- Z.mul_assoc, <- Z.pow_add_r by lia.
      replace (- e1 + (e1 - ez)) with (- ez) by lia.
      apply (Z.mul_le_mono_pos_r _ _ (2 ^ z)); [done|]. rewrite <- Z.mul_assoc, <- H200. done.
    - assert (e1 = 1) as He11 by lia. rewrite He11.
      replace (1 - ez) with (1 + - ez) by lia. rewrite Z.pow_add_r by lia.
      apply (Z.mul_le_mono_pos_r _ _ (2 ^ z)); [done|].
      rewrite <- !Z.mul_assoc, <- H200. change (2 ^ 52 * (2 ^ 1 * 2 ^ 200)) with (2 ^ 53 * 2 ^ 200).
      etrans; [exact HMv|]. apply Z.mul_le_mono_nonneg_r; lia. }
  destruct (binary_round_le M ez T) as (m3 & e3 & -> & Hb3 & He3 & Hv3).
  { fold e1. lia. }
  { fold e1. case_decide.
    - replace (ez - e1) with 0 by lia. replace (e1 - ez) with 0 in HMT by lia. lia.
    - done. }
  fold e1 in He3, Hv3.
  assert (Zpos m3 * 2 ^ (e3 + 200) ≤ (K + 1) * 2 ^ 200) as Hv.
  { replace (e3 + 200) with ((e3 - e1) + (e1 + 200)) by lia.
    rewrite Z.pow_add_r, Z.mul_assoc by lia.
    pose proof (pow2_pos (e1 + 200) ltac:(lia)) as Hp1.
    assert (T * 2 ^ (e1 + 200) ≤ (K + 1) * 2 ^ 200) as HT.
    { unfold T. case_decide as He10.
      - rewrite <- Z.mul_assoc, <- Z.pow_add_r by lia.
        replace (- e1 + (e1 + 200)) with 200 by lia. lia.
      - assert (e1 = 1) as He11 by lia. rewrite He11.
        change (2 ^ 52 * 2 ^ (1 + 200)) with (2 ^ 53 * 2 ^ 200).
        assert (2 ^ (bits M - 1) * 2 ^ z = 2 ^ 53 * 2 ^ 200) as Heq.
        { rewrite <- Z.pow_add_r by (pose proof (bits_pos M); lia).
          change (2 ^ 53 * 2 ^ 200) with (2 ^ 253). f_equal. unfold e1, z in *. lia. }
        rewrite <- Heq. etrans; [|exact HMv]. apply Z.mul_le_mono_nonneg_r; [lia | exact HMlo]. }
    etrans; [|exact HT]. apply Z.mul_le_mono_nonneg_r; [lia | exact Hv3]. }
  right. exists m3, e3. split_and!; [done | done | lia | | done].
  assert (e3 ≤ 53 - 52); [|lia].
  apply (at_most_exponent m3); [done | lia | lia |].
  etrans; [exact Hv|]. apply Z.mul_le_mono_nonneg_r; lia.
Qed.

Lemma value_le_one m e :
  e ≤ 0 → Zpos m ≤ 2 ^ (- e) → (0 <= inject_Z (Zpos m) * 2 ^ e <= 1)%Q.
Proof.
  intros He Hm. pose proof (pow2_pos (- e) ltac:(lia)) as Hpow.
  assert ((2 ^ e == / inject_Z (2 ^ (- e)))%Q) as ->.
  { replace e with (- - e) at 1 by lia. rewrite Qpower_opp, Zpower_Qpower by lia. reflexivity. }
  assert (0 < inject_Z (2 ^ (- e)))%Q as HP by (rewrite <- (Zlt_Qlt 0); done).
  split.
  - apply Qmult_le_0_compat; [by rewrite <- (Zle_Qle 0)|].
    apply Qinv_le_0_compat, Qlt_le_weak, HP.
  - apply Qle_shift_div_r; [done|]. rewrite Qmult_1_l. by rewrite <- Zle_Qle.
Qed.

(** A double divided by a larger one is at most 1. *)
Lemma ddiv_at_most s K mn en :
  at_most s K → bits mn = 53 → -52 ≤ en ≤ 1 →
  K * 2 ^ 200 ≤ Zpos mn * 2 ^ (en + 200) →
  ∃ q, double_value (ddiv s (S754_finite false mn en)) = Some q ∧ (0 <= q <= 1)%Q.
Proof.
  intros [->|(ms & es & -> & Hbs & Hes & Hvs)] Hbn Hen HK.
  { exists 0%Q. split; [done|]. split; by vm_compute. }
  pose proof (bits_spec ms) as [Hslo Hshi]. pose proof (bits_spec mn) as [Hnlo Hnhi].
  rewrite Hbs in Hslo, Hshi. rewrite Hbn in Hnlo, Hnhi.
  change (2 ^ (53 - 1)) with (2 ^ 52) in *.
  assert (Zpos ms * 2 ^ (es + 200) ≤ Zpos mn * 2 ^ (en + 200)) as Hle by lia.
  pose proof (pow2_pos (es + 200) ltac:(lia)) as Hpes.
  pose proof (pow2_pos (en + 200) ltac:(lia)) as Hpen.
  assert (es ≤ en) as Hesen.
  { destruct (Z_le_gt_dec es en) as [?|Hgt]; [done|].
    assert (2 ^ (en + 200 + 1) ≤ 2 ^ (es + 200)) as Hmono by (apply Z.pow_le_mono_r; lia).
    rewrite Z.pow_add_r in Hmono by lia. change (2 ^ 1) with 2 in Hmono. nia. }
  set (δ := en - es).
  assert (Zpos ms ≤ Zpos mn * 2 ^ δ) as Hms.
  { apply (Z.mul_le_mono_pos_r _ _ (2 ^ (es + 200))); [done|].
    rewrite <- Z.mul_assoc, <- Z.pow_add_r by (unfold δ; lia).
    replace (δ + (es + 200)) with (en + 200) by (unfold δ; lia). done. }
  pose proof (pow2_pos δ ltac:(unfold δ; lia)) as Hpδ.
  unfold ddiv, SFdiv, SFdiv_core_binary. cbv [fexp emin Zdigits2].
  change (Zpos (digits2_pos ms)) with (bits ms). change (Zpos (digits2_pos mn)) with (bits mn).
  rewrite Hbs, Hbn.
  replace (Z.min (Z.max (53 + es - (53 + en) - 53) (3 - 1024 - 53)) (es - en))
    with (es - en - 53) by lia.
  replace (es - en - (es - en - 53)) with 53 by lia.
  rewrite Z.shiftl_mul_pow2 by lia.
  pose proof (Z.div_eucl_eq (Zpos ms * 2 ^ 53) (Zpos mn) ltac:(lia)) as Heq.
  pose proof (Z.mod_pos_bound (Zpos ms * 2 ^ 53) (Zpos mn) ltac:(lia)) as Hr.
  unfold Z.modulo in Hr.
  destruct (Z.div_eucl (Zpos ms * 2 ^ 53) (Zpos mn)) as [q r].
  assert (2 ^ 52 ≤ q) as Hqlo by nia.
  destruct q as [|qp|qp]; [lia | | lia].
  assert (53 ≤ bits qp) as Hbq.
  { pose proof (bits_spec qp) as [_ Hqhi].
    destruct (Z_le_gt_dec 53 (bits qp)) as [?|Hgt]; [done|].
    assert (2 ^ bits qp ≤ 2 ^ 52) by (apply Z.pow_le_mono_r; lia). lia. }
  assert (Zpos qp ≤ 2 ^ (53 + δ) ∧ (r ≠ 0 → Zpos qp + 1 ≤ 2 ^ (53 + δ))) as [Hq Hq'].
  { rewrite Z.pow_add_r by (unfold δ; lia). split; [nia|]. intros Hr0. nia. }
  assert (bits qp ≤ 54 + δ) as Hbq'.
  { pose proof (bits_spec qp) as [Hqlo' _]. pose proof (bits_pos qp).
    assert (2 ^ (bits qp - 1) ≤ 2 ^ (53 + δ)) as Hmono by lia.
    apply pow2_le_inv in Hmono; [lia | unfold δ; lia]. }
  set (sh := bits qp - 53). set (e1 := es - en - 53 + sh).
  change (xorb false false) with false.
  destruct (binary_round_aux_le qp (es - en - 53) (new_location (Zpos mn) r) (2 ^ (- e1)))
    as (m3 & e3 & -> & Hb3 & He3 & Hv3).
  { done. }
  { fold sh e1. unfold e1, sh, δ in *. lia. }
  { fold sh. rewrite <- Z.pow_add_r by (unfold e1, sh, δ in *; lia).
    replace (- e1 + sh) with (53 + δ) by (unfold e1, δ; lia).
    unfold new_location, new_location_even, new_location_odd.
    destruct (Z.even (Zpos mn)); destruct (Z.eqb_spec r 0); try done; by apply Hq'. }
  fold sh e1 in He3, Hv3.
  assert (e1 ≤ -52) as He1 by (unfold e1, sh, δ in *; lia).
  assert (Zpos m3 ≤ 2 ^ (- e3)) as Hm3.
  { pose proof (pow2_pos (e3 - e1) ltac:(lia)) as Hp.
    apply (Z.mul_le_mono_pos_r _ _ (2 ^ (e3 - e1))); [done|].
    rewrite <- Z.pow_add_r by lia. replace (- e3 + (e3 - e1)) with (- e1) by lia. done. }
  eexists. split; [done|]. apply value_le_one; [lia | done].
Qed.

(** The double of an integer from 1 to [2^53]. *)
Lemma double_of_nat_canonical (n : nat) :
  (1 ≤ n)%nat → Z.of_nat n ≤ 2 ^ 53 →
  ∃ m e, double_of_nat n = S754_finite false m e ∧ bits m = 53 ∧ -52 ≤ e ≤ 1
         ∧ Zpos m * 2 ^ (e + 200) = Z.of_nat n * 2 ^ 200.
Proof.
  intros Hpos Hsafe. unfold double_of_nat.
  destruct (Z.of_nat n) as [|p|p] eqn:Hn; [lia | | lia].
  destruct (decide (Zpos p = 2 ^ 53)) as [Hmax|Hmax].
  - assert (p = 9007199254740992%positive) as -> by lia.
    exists 4503599627370496%positive, 1. by vm_compute.
  - assert (Zpos p < 2 ^ 53) as Hlt by lia.
    destruct (double_of_pos p Hlt) as (m & -> & Hm).
    pose proof (bits_spec p) as [Hlo Hhi]. pose proof (bits_pos p) as Hb.
    pose proof (bits_le_53 p Hlt) as Hb53.
    pose proof (pow2_pos (53 - bits p) ltac:(lia)) as Hpow.
    exists m, (bits p - 53). split_and!; [done | | lia | lia |].
    + apply bits_unique. rewrite Hm. change (2 ^ (53 - 1)) with (2 ^ 52). split.
      * replace 52 with ((bits p - 1) + (53 - bits p)) by lia.
        rewrite Z.pow_add_r by lia. nia.
      * replace 53 with (bits p + (53 - bits p)) at 2 by lia.
        rewrite Z.pow_add_r by lia. nia.
    + rewrite Hm, <- Z.mul_assoc, <- Z.pow_add_r by lia. f_equal. f_equal. lia.
Qed.

(** The credits of up to 23 winners. *)
Lemma credit_at_most (w : nat) :
  (1 ≤ w ≤ 23)%nat → at_most (ddiv (double_of_nat 1) (double_of_nat w)) 1.
Proof.
  intros Hw.
  assert (Forall (fun w => at_most (ddiv (double_of_nat 1) (double_of_nat w)) 1) (seq 1 23))
    as Hall.
  { repeat (constructor;
      [right; eexists _, _; split; [vm_compute; reflexivity|];
       split; [by vm_compute|]; split; [lia | by vm_compute] |]).
    constructor. }
  rewrite Forall_forall in Hall. apply Hall, elem_of_seq. lia.
Qed.

Lemma sum_credits_at_most log :
  Forall (fun t => match t_credit t with Some c => at_most c 1 | None => True end) log →
  ∀ x K, at_most x K → 0 ≤ K → K + Z.of_nat (length log) ≤ 2 ^ 53 →
  at_most (foldl add_credit x (t_credit <$> log)) (K + Z.of_nat (length log)).
Proof.
  induction 1 as [|t log Ht _ IH]; intros x K Hx HK Hsafe; simpl in *.
  - by rewrite Z.add_0_r.
  - replace (K + Z.of_nat (S (length log))) with ((K + 1) + Z.of_nat (length log)) by lia.
    apply IH; [|lia|lia].
    destruct (t_credit t) as [c|]; simpl.
    + apply dadd_at_most; [done | done | done | lia].
    + by apply (at_most_mono _ K); [lia|].
Qed.

Lemma trial_credit_at_most p t :
  valid_input p → (length (knownOpponents p) ≤ 22)%nat → trial_ok p t →
  match t_credit t with Some c => at_most c 1 | None => True end.
Proof.
  intros (_ & _ & Hplayers & _) Hroom.
  intros (opps & drawn & hr & ranks & _ & Hopps & _ & _ & _ & _ & _ & Hranks & ->).
  unfold spec_credit. destruct (hero_is_best hr ranks); [|done].
  apply credit_at_most. split; [lia|].
  assert (ties hr ranks ≤ length ranks)%nat as Hties by apply length_filter.
  apply Forall2_length in Hranks. rewrite length_app in Hranks. lia.
Qed.

(** X10. For every valid input with at most 22 known opponents and an
    iteration count that a JS number counts exactly (up to [2^53]) the
    equity [calculateWinRate] returns is a double of value between 0 and 1:
    the rounding of the additions and of the division never takes it out
    of the interval. *)
Theorem equity_in_unit_interval (random : nat → nat) (p : WinRateParams) :
  valid_input p → (length (knownOpponents p) ≤ 22)%nat →
  Z.of_nat (iterations_of p) ≤ 2 ^ 53 →
  ∃ res q, calculateWinRate random p = Some res
           ∧ double_value (equity res) = Some q ∧ (0 <= q <= 1)%Q.
Proof.
  intros Hvalid Hroom Hsafe.
  destruct (calculateWinRate_log_spec random p Hvalid Hroom)
    as (res & log & Hrun & Hlen & _ & Hall & Hequity).
  assert (at_most (sum_credits log) (Z.of_nat (iterations_of p))) as Hsum.
  { rewrite <- Hlen. change (Z.of_nat (length log)) with (0 + Z.of_nat (length log)).
    apply sum_credits_at_most; [| by left | done | lia].
    eapply Forall_impl; [exact Hall|]. intros t. by apply trial_credit_at_most. }
  destruct (double_of_nat_canonical (iterations_of p)) as (mn & en & Hn & Hbn & Hen & Hvn);
    [by destruct Hvalid as (_ & _ & _ & _ & _ & ?) | done |].
  destruct (ddiv_at_most (sum_credits log) (Z.of_nat (iterations_of p)) mn en)
    as (q & Hq & Hbounds); [done | done | done | lia |].
  exists res, q. unfold calculateWinRate. rewrite Hrun, Hequity, Hn. done.
Qed.

Lemma equity_in_unit_interval_witness :
  ∃ res q, calculateWinRate (fun n => (3 * n + 1)%nat) split_pot_params = Some res
           ∧ double_value (equity res) = Some q ∧ (0 <= q <= 1)%Q.
Proof.
  apply equity_in_unit_interval.
  - unfold valid_input. simpl.
    split_and!; [done | lia | lia | lia | constructor | | unfold iterations_of; simpl; lia].
    apply (bool_decide_unpack _). vm_compute. exact I.
  - simpl. lia.
  - by vm_compute.
Defined.

Lemma trial_no_draws random random' p k :
  (5 ≤ length (board p))%nat →
  numPlayers p - 1 ≤ Z.of_nat (length (knownOpponents p)) →
  trial random p k = trial random' p k.
Proof.
  intros Hboard Hknown. unfold trial.
  assert (Z.to_nat (unknownOpponentsCount p) = 0%nat) as ->
    by (unfold unknownOpponentsCount; lia).
  assert ((5 - length (board p))%nat = 0%nat) as -> by lia.
  reflexivity.
Qed.

Lemma run_trials_no_draws random random' p n :
  (5 ≤ length (board p))%nat →
  numPlayers p - 1 ≤ Z.of_nat (length (knownOpponents p)) →
  ∀ acc k, run_trials random p n acc k = run_trials random' p n acc k.
Proof.
  intros Hboard Hknown. induction n as [|n IH]; intros acc k; [done|].
  simpl. rewrite (trial_no_draws random random' p k Hboard Hknown).
  destruct (trial random' p k) as [[t k']|]; [|done]. simpl. by rewrite IH.
Qed.

(** X11. When the board already holds five cards and the known opponents
    fill the table, nothing is drawn: the result of [calculateWinRate] is
    the same for every sequence of random numbers. *)
Theorem no_draws_no_randomness (random random' : nat → nat) (p : WinRateParams) :
  (5 ≤ length (board p))%nat →
  numPlayers p - 1 ≤ Z.of_nat (length (knownOpponents p)) →
  calculateWinRate random p = calculateWinRate random' p.
Proof.
  intros Hboard Hknown. unfold calculateWinRate, calculateWinRate_log.
  by rewrite (run_trials_no_draws random random' p _ Hboard Hknown).
Qed.

Lemma no_draws_no_randomness_witness :
  calculateWinRate (fun n => n) (four_deuces 2 [[mkCard RA SuitS; mkCard RA SuitH]] (Some 4%nat))
  = calculateWinRate (fun n => (n * n + 1)%nat)
      (four_deuces 2 [[mkCard RA SuitS; mkCard RA SuitH]] (Some 4%nat)).
Proof.
  apply no_draws_no_randomness; simpl; lia.
Defined.

(** ** Straights among any number of ranks *)

Lemma elem_of_powerset {A} (l s : list A) : s ∈ powerset l ↔ s `sublist_of` l.
Proof.
  revert s. induction l as [|x l IH]; intros s; simpl.
  - by rewrite list_elem_of_singleton, sublist_nil_r.
  - rewrite elem_of_app, list_elem_of_fmap, IH, sublist_cons_r. split.
    + intros [(s' & -> & Hs')|Hs]; [right; exists s'; by rewrite <- IH | by left].
    + intros [Hs|(s' & -> & Hs')]; [by right | left; exists s'; by rewrite IH].
Qed.

Lemma straight_table : forallb check_straight (powerset RANKS_desc) = true.
Proof. vm_cast_no_check (eq_refl true). Qed.

(** X12. [getStraightHigh] is right for any number of distinct ranks, not
    only for five: it is [null] below five ranks, and otherwise the highest
    [r] with [r .. r-4] all present, or 5 when there is no such [r] and the
    wheel A-2-3-4-5 is present. *)
Theorem getStraightHigh_any_size (rs : list Rank) :
  NoDup rs →
  getStraightHigh (RANK_VALUE <$> rs)
  = if decide (length rs < 5)%nat then None else spec_straight_high (RANK_VALUE <$> rs).
Proof.
  intros Hnd. case_decide as Hlen.
  { unfold getStraightHigh. by rewrite length_fmap, decide_True. }
  set (canon := filter (fun r => r ∈ rs) RANKS_desc).
  assert (canon ≡ₚ rs) as Hperm.
  { apply NoDup_Permutation; [|done|].
    - apply NoDup_filter. apply (bool_decide_unpack _). by vm_compute.
    - intros r. unfold canon. rewrite list_elem_of_filter. split; [by intros [? _]|].
      intros Hr. split; [done|]. destruct r; apply (bool_decide_unpack _); by vm_compute. }
  assert (check_straight canon = true) as Hcheck.
  { pose proof straight_table as Htable. rewrite forallb_forall in Htable.
    apply Htable, list_elem_of_In, elem_of_powerset, sublist_filter. }
  unfold check_straight in Hcheck. cbv zeta in Hcheck.
  rewrite bool_decide_false in Hcheck by (rewrite Hperm; lia).
  apply bool_decide_eq_true in Hcheck.
  assert (RANK_VALUE <$> rs ≡ₚ RANK_VALUE <$> canon) as Hvals by (by rewrite Hperm).
  rewrite (getStraightHigh_perm _ _ (NoDup_fmap_2 RANK_VALUE _ Hnd) Hvals), Hcheck.
  symmetry. by apply spec_straight_high_perm.
Qed.

Lemma getStraightHigh_any_size_witness :
  NoDup [R3; RA; R5; R9; R4; R2; R6]
  ∧ getStraightHigh (RANK_VALUE <$> [R3; RA; R5; R9; R4; R2; R6]) = Some 6.
Proof.
  assert (NoDup [R3; RA; R5; R9; R4; R2; R6]) as Hnd.
  { apply (bool_decide_unpack _). vm_compute. exact I. }
  split; [exact Hnd|].
  exact (eq_trans (getStraightHigh_any_size _ Hnd) eq_refl).
Defined.

(** ** Labels *)

Lemma partial_label_formula (cards : list Card) :
  (length cards < 5)%nat →
  getBestHandLabel cards = Some (partial_label (max_multiplicity cards)).
Proof.
  intros Hlen. unfold getBestHandLabel. rewrite decide_True by done.
  rewrite count_cards_ranks. set (vals := values cards).
  pose proof (js_sort_desc_head (snd <$> count_ranks vals)) as Hhead.
  assert (∀ v, v ∈ vals → (multiplicity v vals ≤ max_multiplicity cards)%nat) as Hle.
  { intros v Hv. apply max_list_elem_of_le, list_elem_of_fmap.
    exists v. split; [done | by apply (values_are_ranks cards)]. }
  assert (max_multiplicity cards = 0%nat
          ∨ ∃ v, v ∈ vals ∧ max_multiplicity cards = multiplicity v vals) as Hmax.
  { assert ((fun v => multiplicity v vals) <$> rank_values_desc ≠ []) as Hne.
    { intros Hnil%fmap_nil_inv. vm_compute in Hnil. discriminate Hnil. }
    apply max_list_elem_of, list_elem_of_fmap_1 in Hne as (v & Hv & _).
    change (max_multiplicity cards = multiplicity v vals) in Hv.
    destruct (decide (max_multiplicity cards = 0%nat)) as [?|Hpos]; [by left|].
    right. exists v. split; [|done]. apply multiplicity_pos. lia. }
  destruct (js_sort desc (snd <$> count_ranks vals) !! 0%nat) as [x|] eqn:Hx.
  - destruct Hhead as [Hin Hge].
    apply count_ranks_values in Hin as (k & Hk & ->).
    assert (max_multiplicity cards = multiplicity k vals) as ->.
    { apply Nat.le_antisymm; [|by apply Hle].
      destruct Hmax as [->|(v & Hv & ->)]; [lia|].
      assert (Z.of_nat (multiplicity v vals) ≤ Z.of_nat (multiplicity k vals)); [|lia].
      apply Hge, count_ranks_values. by exists v. }
    unfold partial_label.
    destruct (decide (multiplicity k vals = 2%nat)) as [->|H2]; [done|].
    rewrite decide_False by (intros [=]; lia).
    destruct (decide (multiplicity k vals = 3%nat)) as [->|H3]; [done|].
    by rewrite decide_False by (intros [=]; lia).
  - assert (max_multiplicity cards = 0%nat) as ->; [|by repeat case_decide].
    destruct Hmax as [?|(v & Hv & _)]; [done|].
    assert (Z.of_nat (multiplicity v vals) ∈ snd <$> count_ranks vals) as Hin.
    { apply count_ranks_values. by exists v. }
    rewrite Hhead in Hin. by apply elem_of_nil in Hin.
Qed.

Lemma max_multiplicity_perm cards cards' :
  cards ≡ₚ cards' → max_multiplicity cards = max_multiplicity cards'.
Proof.
  intros Hperm. unfold max_multiplicity. f_equal.
  apply list_fmap_ext. intros _ v _. apply multiplicity_perm. unfold values. by rewrite Hperm.
Qed.

Lemma best_category_perm (cards cards' : list Card) best best' :
  NoDup cards → cards ≡ₚ cards' →
  (∃ s, s ∈ subsets 5 cards' ∧ evaluate5 s = Some best') →
  (∀ s, length s = 5%nat → NoDup s → s ⊆ cards →
     ∃ r, evaluate5 s = Some r ∧ 0 ≤ compareRanks best r) →
  0 ≤ compareRanks best best'.
Proof.
  intros Hnd Hperm (s & [Hsub Hlen]%elem_of_subsets & Hs) Hmax.
  destruct (Hmax s Hlen) as (r & Hr & Hge).
  - apply (sublist_NoDup s cards'); [by rewrite <- Hperm | done].
  - intros card Hin. rewrite Hperm. by eapply elem_of_sublist.
  - congruence.
Qed.

(** X13. For distinct cards the label of [getBestHandLabel] does not depend
    on the order of the cards, for partial hands and for five or more
    cards alike. *)
Theorem getBestHandLabel_order_invariant (cards cards' : list Card) :
  NoDup cards → cards ≡ₚ cards' →
  getBestHandLabel cards = getBestHandLabel cards'.
Proof.
  intros Hnd Hperm.
  assert (NoDup cards') as Hnd' by (by rewrite <- Hperm).
  assert (length cards' = length cards) as Hlen by (by rewrite Hperm).
  destruct (decide (length cards < 5)%nat) as [Hshort|Hlong].
  - rewrite !partial_label_formula by lia. by rewrite (max_multiplicity_perm _ _ Hperm).
  - destruct (best_of_subsets cards (getCombos (length cards)) Hnd)
      as (best & Heval & Horigin & Hmax); [lia | |].
    { rewrite <- pick_getCombos. by rewrite length_fmap. }
    destruct (best_of_subsets cards' (getCombos (length cards')) Hnd')
      as (best' & Heval' & Horigin' & Hmax'); [lia | |].
    { rewrite <- pick_getCombos. by rewrite length_fmap. }
    unfold getBestHandLabel. rewrite !decide_False by lia. rewrite Heval, Heval'. simpl.
    pose proof (best_category_perm cards cards' best best' Hnd Hperm Horigin' Hmax) as Hge.
    pose proof (best_category_perm cards' cards best' best Hnd' (symmetry Hperm) Horigin Hmax')
      as Hle.
    rewrite (compareRanks_flip best best') in Hle.
    assert (compareRanks best best' = 0) as Hz by lia.
    rewrite compareRanks_zero_iff in Hz. specialize (Hz 0%nat). unfold pad in Hz.
    by rewrite Hz.
Qed.

Lemma getBestHandLabel_order_invariant_witness :
  NoDup quad_deuces_seven
  ∧ quad_deuces_seven ≡ₚ reverse quad_deuces_seven
  ∧ getBestHandLabel quad_deuces_seven = getBestHandLabel (reverse quad_deuces_seven).
Proof.
  assert (NoDup quad_deuces_seven) as Hnd.
  { apply (bool_decide_unpack _). vm_compute. exact I. }
  assert (quad_deuces_seven ≡ₚ reverse quad_deuces_seven) as Hperm.
  { symmetry. apply reverse_Permutation. }
  split_and!; [exact Hnd | exact Hperm |].
  exact (getBestHandLabel_order_invariant _ _ Hnd Hperm).
Defined.

(** ** Card keys and the UI's bookkeeping *)

(** X14. The key of a card identifies it: two cards have the same key only
    when they are the same card; a key has two characters; and the UI's
    [toKey] writes the same key as the engine's [cardToString]. *)
Theorem card_keys_identify_cards :
  (∀ c1 c2, cardToString c1 = cardToString c2 ↔ c1 = c2)
  ∧ (∀ card, String.length (cardToString card) = 2%nat)
  ∧ (∀ card, App.toKey card = cardToString card).
Proof.
  split_and!.
  - intros c1 c2. split; [apply (inj cardToString) | by intros ->].
  - by intros [[] []].
  - done.
Qed.

(** X15. [hasDuplicate] answers [true] exactly when some card occurs twice
    in the list. *)
Theorem hasDuplicate_iff_repeated (cards : list Card) :
  App.hasDuplicate cards = true ↔ ¬ NoDup cards.
Proof.
  rewrite <- hasDuplicate_spec. by destruct (App.hasDuplicate cards).
Qed.

#[global] Instance toKey_inj : Inj (=) (=) App.toKey.
Proof. intros c1 c2. apply (inj cardToString). Qed.

(** X16. In every state the handlers can reach, the "Cards Used" counter
    (the size of [usedKeys]) is the number of cards assigned to hero, board
    and opponents, and it never exceeds 52. *)
Theorem cards_used_counts_cards (st : App.State) :
  App.reachable st →
  size (App.usedKeys st) = length (App.allCards st)
  ∧ (length (App.allCards st) ≤ 52)%nat.
Proof.
  intros Hreach. pose proof (reachable_NoDup st Hreach) as Hnd. split.
  - unfold App.usedKeys. rewrite size_list_to_set, length_fmap; [done|].
    by apply (NoDup_fmap_2 App.toKey).
  - rewrite <- length_full_deck. apply submseteq_length, NoDup_submseteq; [done|].
    intros card _. apply elem_of_full_deck.
Qed.

Lemma cards_used_counts_cards_witness :
  App.reachable (App.handleBoardSet App.initial 2 (mkCard RQ SuitD)).2
  ∧ size (App.usedKeys (App.handleBoardSet App.initial 2 (mkCard RQ SuitD)).2) = 1%nat.
Proof.
  assert (App.reachable (App.handleBoardSet App.initial 2 (mkCard RQ SuitD)).2) as Hreach.
  { apply App.reach_board_set, App.reach_initial. }
  split; [exact Hreach|].
  exact (eq_trans (proj1 (cards_used_counts_cards _ Hreach)) eq_refl).
Defined.

(** X17. [nextEmptyIndex] is [-1] exactly when every slot holds a card, and
    otherwise the index of the first empty slot; the slot [entryIndex]
    chooses for a typed rank never holds a card already. *)
Theorem nextEmptyIndex_first_empty (cards : list App.CardSlot) :
  (App.nextEmptyIndex cards = -1 ↔ Forall is_Some cards)
  ∧ (∀ i : nat, App.nextEmptyIndex cards = Z.of_nat i ↔
       cards !! i = Some None
       ∧ ∀ j, (j < i)%nat → ∃ card, cards !! j = Some (Some card))
  ∧ (∀ active i : nat, App.entryIndex cards active = Z.of_nat i →
       ∀ card, cards !! i ≠ Some (Some card)).
Proof.
  unfold App.CardSlot in *.
  assert (∀ i : nat, App.nextEmptyIndex cards = Z.of_nat i ↔
            cards !! i = Some None
            ∧ ∀ j, (j < i)%nat → ∃ card, cards !! j = Some (Some card)) as Hfirst.
  { intros i. unfold App.nextEmptyIndex.
    match goal with |- context [@list_find ?A ?P ?H ?l] =>
      destruct (@list_find A P H l) as [[i' slot]|] eqn:Hfind end.
    - apply list_find_Some in Hfind as (Hslot & -> & Hbefore). split.
      + intros ->%(inj Z.of_nat). split; [done|]. intros j Hj.
        destruct (lookup_lt_is_Some_2 cards j) as [[card|] Hcard].
        { eapply Nat.lt_trans; [exact Hj | by eapply lookup_lt_Some]. }
        { by exists card. }
        by destruct (Hbefore j None Hcard Hj).
      + intros [Hi Hfilled]. f_equal.
        destruct (lt_eq_lt_dec i i') as [[Hlt|?]|Hgt]; [|done|].
        * by destruct (Hbefore i None Hi Hlt).
        * destruct (Hfilled i' Hgt) as [card Hcard]. congruence.
    - split; [lia|]. intros [Hi _]. apply list_find_None in Hfind.
      rewrite Forall_forall in Hfind. destruct (Hfind None); [|done].
      by eapply list_elem_of_lookup_2. }
  split_and!; [|done|].
  - unfold App.nextEmptyIndex.
    match goal with |- context [@list_find ?A ?P ?H ?l] =>
      destruct (@list_find A P H l) as [[i slot]|] eqn:Hfind end.
    + split; [lia|]. intros Hall.
      apply list_find_Some in Hfind as (Hslot & -> & _).
      rewrite Forall_forall in Hall. by destruct (Hall None (list_elem_of_lookup_2 _ _ _ Hslot)).
    + split; [|done]. intros _. apply list_find_None in Hfind.
      eapply Forall_impl; [exact Hfind|]. intros [card|] Hne; [by eexists | done].
  - intros active i. unfold App.entryIndex.
    match goal with |- context [match ?slot with _ => _ end] =>
      destruct slot as [[held|]|] eqn:Hactive end.
    + intros [Hi _]%Hfirst card. congruence.
    + intros ->%(inj Z.of_nat) card. unfold App.CardSlot in *. congruence.
    + intros ->%(inj Z.of_nat) card. unfold App.CardSlot in *. congruence.
Qed.

(** ** Holes, order and categories in the 7-card selector *)


Lemma HandRank_of_subset (cards s : list Card) best :
  NoDup cards → s ∈ subsets 5 cards → evaluate5 s = Some best → HandRank best.
Proof.
  intros Hnd [Hsub Hlen]%elem_of_subsets Hs. exists s. split_and!; [done | | done].
  by apply (sublist_NoDup s cards).
Qed.

(** X18. The best hand of seven distinct cards does not depend on their
    order: it is the same whichever two of them are the hole cards. *)
Theorem evaluate7_order_invariant (cards cards' : list Card) :
  length cards = 7%nat → NoDup cards → cards ≡ₚ cards' →
  evaluate7 (Some <$> cards) = evaluate7 (Some <$> cards').
Proof.
  intros Hlen Hnd Hperm.
  assert (NoDup cards') as Hnd' by (by rewrite <- Hperm).
  assert (length cards' = 7%nat) as Hlen' by (by rewrite <- Hperm).
  destruct (evaluate7_max cards Hlen Hnd) as (best & -> & Horigin & Hmax).
  destruct (evaluate7_max cards' Hlen' Hnd') as (best' & -> & Horigin' & Hmax').
  f_equal.
  pose proof (best_category_perm cards cards' best best' Hnd Hperm Horigin' Hmax) as Hge.
  pose proof (best_category_perm cards' cards best' best Hnd' (symmetry Hperm) Horigin Hmax')
    as Hle.
  rewrite (compareRanks_flip best best') in Hle.
  destruct Horigin as (s & Hs & Hbest). destruct Horigin' as (s' & Hs' & Hbest').
  apply HandRank_eq; [| | lia].
  - exact (HandRank_of_subset cards s best Hnd Hs Hbest).
  - exact (HandRank_of_subset cards' s' best' Hnd' Hs' Hbest').
Qed.

Lemma evaluate7_order_invariant_witness :
  evaluate7 (Some <$> quad_deuces_seven) = evaluate7 (Some <$> reverse quad_deuces_seven).
Proof.
  apply evaluate7_order_invariant; [reflexivity | |].
  - apply (bool_decide_unpack _). vm_compute. exact I.
  - symmetry. apply reverse_Permutation.
Defined.

(** X19. A hand of a higher category wins the comparison: when the
    category of five distinct cards, by the precedence of poker hands, is
    above that of five others, [compareRanks] puts its descriptor first
    whatever the ranks involved. *)
Theorem higher_category_wins (a b : list Card) :
  length a = 5%nat → NoDup a → length b = 5%nat → NoDup b →
  spec_category (values a) (spec_flush a) > spec_category (values b) (spec_flush b) →
  ∃ ra rb, evaluate5 a = Some ra ∧ evaluate5 b = Some rb ∧ compareRanks ra rb > 0.
Proof.
  intros Hla Hna Hlb Hnb Hcat.
  destruct (hand_facts a Hla Hna) as (ra & Ha & _ & -> & _).
  destruct (hand_facts b Hlb Hnb) as (rb & Hb & _ & -> & _).
  eexists _, _. split_and!; [done | done |]. by apply compareRanks_category.
Qed.

Lemma higher_category_wins_witness :
  ∃ ra rb, evaluate5 royal_flush_hand = Some ra ∧ evaluate5 four_aces_hand = Some rb
           ∧ compareRanks ra rb > 0.
Proof.
  apply higher_category_wins; try reflexivity.
  - apply (bool_decide_unpack _). vm_compute. exact I.
  - apply (bool_decide_unpack _). vm_compute. exact I.
Defined.

(** ** When the run returns *)





(** ** The label of five or more cards *)

(** X21. For five or more distinct cards [getBestHandLabel] names the
    highest category, by the precedence of poker hands, that any five of
    the cards make; for seven cards it is the name of the category
    [evaluate7] reports. *)
Theorem getBestHandLabel_names_best_category (cards : list Card) :
  (5 ≤ length cards)%nat → NoDup cards →
  (∃ s, s ∈ subsets 5 cards
        ∧ getBestHandLabel cards
          = Some (rankToLabel (spec_category (values s) (spec_flush s)))
        ∧ ∀ s', s' ∈ subsets 5 cards →
            spec_category (values s') (spec_flush s')
            ≤ spec_category (values s) (spec_flush s))
  ∧ (length cards = 7%nat →
     getBestHandLabel cards
     = (fun best => rankToLabel (pad best 0)) <$> evaluate7 (Some <$> cards)).
Proof.
  intros Hlen Hnd. split.
  - destruct (best_of_subsets cards (getCombos (length cards)) Hnd Hlen)
      as (best & Heval & (s & Hs & Hbest) & Hmax).
    { rewrite <- pick_getCombos. by rewrite length_fmap. }
    pose proof Hs as [Hsub Hlen5]%elem_of_subsets.
    assert (NoDup s) as Hnds by (by apply (sublist_NoDup s cards)).
    destruct (hand_facts s Hlen5 Hnds) as (r & Hr & _ & Hspec & _).
    assert (best = spec_evaluateFive s) as -> by congruence.
    exists s. split_and!; [done | |].
    + unfold getBestHandLabel. rewrite decide_False by lia. by rewrite Heval.
    + intros s' [Hsub' Hlen']%elem_of_subsets.
      assert (NoDup s') as Hnds' by (by apply (sublist_NoDup s' cards)).
      destruct (Hmax s' Hlen' Hnds') as (r' & Hr' & Hge).
      { intros card Hin. by eapply elem_of_sublist. }
      destruct (hand_facts s' Hlen' Hnds') as (r'' & Hr'' & _ & Hspec' & _).
      assert (r' = spec_evaluateFive s') as -> by congruence.
      destruct (Z_le_gt_dec (spec_category (values s') (spec_flush s'))
                  (spec_category (values s) (spec_flush s))) as [?|Hgt]; [done|].
      pose proof (compareRanks_category (spec_evaluateFive s') (spec_evaluateFive s) Hgt) as Hpos.
      rewrite (compareRanks_flip (spec_evaluateFive s) (spec_evaluateFive s')) in Hpos. lia.
  - intros H7. unfold getBestHandLabel, evaluate7, getCombos.
    rewrite decide_False by lia. rewrite decide_True by done.
    by destruct (best_of (Some <$> cards) COMBOS_7_5).
Qed.

Lemma getBestHandLabel_names_best_category_witness :
  getBestHandLabel quad_deuces_seven
  = (fun best => rankToLabel (pad best 0)) <$> evaluate7 (Some <$> quad_deuces_seven).
Proof.
  refine (proj2 (getBestHandLabel_names_best_category quad_deuces_seven _ _) eq_refl).
  - simpl. lia.
  - apply (bool_decide_unpack _). vm_compute. exact I.
Defined.

(** ** What the duplicate guard of the set handlers accepts *)

Lemma compactCards_insert_Some arr card : ∀ index, (index < length arr)%nat →
  App.compactCards (<[index := Some card]> arr)
  ≡ₚ card :: App.compactCards (<[index := None]> arr).
Proof.
  induction arr as [|slot arr IH]; intros [|index] Hlt; simpl in *; try lia.
  - done.
  - specialize (IH index ltac:(lia)). unfold App.compactCards in *.
    destruct slot as [other|]; simpl; rewrite IH; [apply Permutation_swap | done].
Qed.

Lemma compactCards_assign_Some arr index card :
  App.compactCards (App.assign arr index (Some card))
  ≡ₚ card :: App.compactCards (App.assign arr index None).
Proof.
  unfold App.assign. case_decide as Hlt; [by apply compactCards_insert_Some|].
  pose proof (compactCards_holes (index - length arr)) as Hholes.
  unfold App.compactCards in *. rewrite !omap_app, Hholes. simpl. rewrite app_nil_r.
  symmetry. apply Permutation_cons_append.
Qed.

Lemma concat_insert_perm (hands : list (list App.CardSlot)) hand hand' card : ∀ handIndex,
  (handIndex < length hands)%nat →
  App.compactCards hand' ≡ₚ card :: App.compactCards hand →
  concat (App.compactCards <$> <[handIndex := hand']> hands)
  ≡ₚ card :: concat (App.compactCards <$> <[handIndex := hand]> hands).
Proof.
  induction hands as [|first hands IH]; intros [|handIndex] Hlt Hperm; simpl in *; try lia.
  - by rewrite Hperm.
  - rewrite (IH handIndex) by (lia || done). by rewrite Permutation_middle.
Qed.

Lemma accepts_iff_unused nextAll cleared card :
  NoDup cleared → nextAll ≡ₚ card :: cleared →
  App.hasDuplicate nextAll = false ↔ card ∉ cleared.
Proof.
  intros Hnd Hperm. rewrite hasDuplicate_spec, Hperm, NoDup_cons.
  split; [by intros [? _] | by intros ?].
Qed.

(** X22. A set handler accepts a card exactly when no other slot holds
    it: the card must be absent from the cards in play once the slot being
    written is cleared.  So a card can be typed again over itself, but not
    into a second slot; and after a rejected card the cards in play are as
    before. *)
Theorem set_accepted_iff_unused (st : App.State) (index : nat) (card : Card) :
  App.reachable st →
  ((App.handleHeroSet st index card).1 = true
   ↔ card ∉ App.allCards (App.handleClearHero st index))
  ∧ ((App.handleBoardSet st index card).1 = true
     ↔ card ∉ App.allCards (App.handleClearBoard st index))
  ∧ (∀ handIndex cleared,
       App.handleClearOpponent st handIndex index = Some cleared →
       ∃ ok st', App.handleOpponentSet st handIndex index card = Some (ok, st')
                 ∧ (ok = true ↔ card ∉ App.allCards cleared))
  ∧ ((App.handleHeroSet st index card).1 = false →
     App.allCards (App.handleHeroSet st index card).2 = App.allCards st)
  ∧ ((App.handleBoardSet st index card).1 = false →
     App.allCards (App.handleBoardSet st index card).2 = App.allCards st).
Proof.
  intros Hreach. split_and!.
  - pose proof (reachable_NoDup _ (App.reach_clear_hero st index Hreach)) as Hnd.
    unfold App.handleHeroSet.
    match goal with |- context [App.hasDuplicate ?l] =>
      pose proof (accepts_iff_unused l _ card Hnd) as Hiff;
      destruct (App.hasDuplicate l) end; simpl.
    + rewrite <- Hiff; [done|]. unfold App.allCards. simpl.
      by rewrite compactCards_assign_Some.
    + rewrite <- Hiff; [done|]. unfold App.allCards. simpl.
      by rewrite compactCards_assign_Some.
  - pose proof (reachable_NoDup _ (App.reach_clear_board st index Hreach)) as Hnd.
    unfold App.handleBoardSet.
    match goal with |- context [App.hasDuplicate ?l] =>
      pose proof (accepts_iff_unused l _ card Hnd) as Hiff;
      destruct (App.hasDuplicate l) end; simpl.
    + rewrite <- Hiff; [done|]. unfold App.allCards. simpl.
      by rewrite compactCards_assign_Some, Permutation_middle.
    + rewrite <- Hiff; [done|]. unfold App.allCards. simpl.
      by rewrite compactCards_assign_Some, Permutation_middle.
  - intros handIndex cleared Hclear.
    pose proof (reachable_NoDup _ (App.reach_clear_opponent st handIndex index _ Hreach Hclear))
      as Hnd.
    unfold App.handleClearOpponent in Hclear. unfold App.handleOpponentSet.
    destruct (App.knownOpponents st !! handIndex) as [hand|] eqn:Hhand; [|done].
    simpl in Hclear. simplify_eq. simpl.
    match goal with |- context [App.hasDuplicate ?l] =>
      pose proof (accepts_iff_unused l _ card Hnd) as Hiff;
      destruct (App.hasDuplicate l) end; eexists _, _; (split; [done|]).
    + rewrite <- Hiff; [done|]. unfold App.allCards. simpl.
      rewrite (concat_insert_perm _ (App.assign hand index None) _ card);
        [| by eapply lookup_lt_Some | apply compactCards_assign_Some].
      by rewrite <- !Permutation_middle.
    + rewrite <- Hiff; [done|]. unfold App.allCards. simpl.
      rewrite (concat_insert_perm _ (App.assign hand index None) _ card);
        [| by eapply lookup_lt_Some | apply compactCards_assign_Some].
      by rewrite <- !Permutation_middle.
  - unfold App.handleHeroSet. by destruct (App.hasDuplicate _).
  - unfold App.handleBoardSet. by destruct (App.hasDuplicate _).
Qed.

Lemma set_accepted_iff_unused_witness :
  (App.handleHeroSet App.initial 0 (mkCard RA SuitS)).1 = true
  ↔ mkCard RA SuitS ∉ App.allCards (App.handleClearHero App.initial 0).
Proof.
  exact (proj1 (set_accepted_iff_unused App.initial 0 (mkCard RA SuitS) App.reach_initial)).
Defined.

(** ** No trials *)

(** X23. With an iteration count of 0 the loop body never runs, nothing is
    drawn or evaluated, and the equity returned is [0 / 0], NaN, whatever
    the other inputs are. *)
Theorem zero_iterations_nan (random : nat → nat) (p : WinRateParams) :
  iterations p = Some 0%nat →
  calculateWinRate random p = Some (mkResult S754_nan 0).
Proof.
  intros Hzero. unfold calculateWinRate, calculateWinRate_log, iterations_of.
  by rewrite Hzero.
Qed.

Lemma zero_iterations_nan_witness :
  calculateWinRate (fun n => n) (mkParams [] [] 2 [] (Some 0%nat))
  = Some (mkResult S754_nan 0).
Proof. exact (zero_iterations_nan (fun n => n) (mkParams [] [] 2 [] (Some 0%nat)) eq_refl). Defined.
